(** * Website Plunder: the asset-resolution and HTML-rewriting pipeline

    A shallow embedding of [server/mcps/parser.js], [server/mcps/fetcher.js],
    [server/mcps/storage.js] and [server/routes/replicate.js], the
    properties of the design document that concern them, and further
    properties of the code.

    Conventions of the embedding.
    - A JavaScript string is a [string]; a character is one byte of its
      UTF-8 encoding, so the class [\s] of a regular expression is the
      ASCII white space.
    - A JavaScript object used as a dictionary and a [Map] are association
      lists in creation order without repeated keys.  Property names that
      every object inherits from [Object.prototype] are outside the model.
    - [undefined] and [null] are [None].
    - What the libraries compute (the WHATWG [URL] parser, cheerio's HTML
      parser and serialiser, robots-parser, base64) is the instance of a
      type class; what the network answers is a record of oracles. *)

From Stdlib Require Import String Ascii List Bool Arith NArith ZArith Lia.
From Equations Require Import Equations.
Import ListNotations.
Open Scope list_scope.
Open Scope string_scope.

(** ** JavaScript values and strings *)

Module Js.

(** The characters that string literals of the source contain and that a
    Rocq string literal cannot. *)
Definition dquote : ascii := ascii_of_nat 34.
Definition squote : ascii := ascii_of_nat 39.
Definition newline : ascii := ascii_of_nat 10.
Definition dq : string := String dquote EmptyString.
Definition nl : string := String newline EmptyString.

(** [ToBoolean] of a string. *)
Definition truthy (s : string) : bool :=
  match s with EmptyString => false | String _ _ => true end.

(** [ToBoolean] of a string or [undefined]. *)
Definition truthy_opt (o : option string) : bool :=
  match o with Some s => truthy s | None => false end.

(** [a || b] on strings or [undefined]. *)
Definition or_else (a b : option string) : option string :=
  if truthy_opt a then a else b.

(** [ToPropertyKey]: indexing with [undefined] uses the key [undefined]. *)
Definition key (o : option string) : string :=
  match o with Some s => s | None => "undefined" end.

(** [s] without the prefix [p], when it starts with it. *)
Fixpoint strip_prefix (p s : string) : option string :=
  match p with
  | EmptyString => Some s
  | String a p' =>
      match s with
      | EmptyString => None
      | String b s' => if Ascii.eqb a b then strip_prefix p' s' else None
      end
  end.

(** [s.startsWith(p)]. *)
Definition startsWith (s p : string) : bool :=
  match strip_prefix p s with Some _ => true | None => false end.

(** [s.includes(p)]. *)
Fixpoint includes (s p : string) : bool :=
  match strip_prefix p s with
  | Some _ => true
  | None =>
      match s with
      | EmptyString => false
      | String _ s' => includes s' p
      end
  end.

(** The first [length s - length rest] characters of [s]: what a match
    that started at [s] and stopped at [rest] has consumed. *)
Definition consumed (s rest : string) : string :=
  String.substring 0 (String.length s - String.length rest) s.

(** [GetSubstitution] for a pattern without capture groups: in the
    replacement text [$$] is a dollar, [$&] the match, [$`] what precedes
    it and [$'] what follows it; every other character stands for itself. *)
Fixpoint substitution (matched before after repl : string) : string :=
  match repl with
  | EmptyString => EmptyString
  | String c r =>
      if Ascii.eqb c "$" then
        match r with
        | EmptyString => String c EmptyString
        | String d r' =>
            if Ascii.eqb d "$" then String "$" (substitution matched before after r')
            else if Ascii.eqb d "&" then matched ++ substitution matched before after r'
            else if Ascii.eqb d "`" then before ++ substitution matched before after r'
            else if Ascii.eqb d squote then after ++ substitution matched before after r'
            else String c (substitution matched before after r)
        end
      else String c (substitution matched before after r)
  end.

(** [s.replace(new RegExp(escape(pat), 'g'), repl)] where [escape] puts a
    backslash before every regular-expression metacharacter: every
    occurrence of the literal text [pat], left to right and without
    overlap, gives way to the substitution of [repl].  [skip] counts the
    characters of the current match still to pass over and [before] is the
    text already passed.  An empty [pat] matches between any two
    characters and at both ends. *)
Fixpoint replace_from (pat repl : string) (skip : nat) (before s : string) : string :=
  match s with
  | EmptyString =>
      match skip, pat with
      | 0, EmptyString => substitution pat before EmptyString repl
      | _, _ => EmptyString
      end
  | String c s' =>
      match skip with
      | S k => replace_from pat repl k (before ++ String c EmptyString) s'
      | 0 =>
          match strip_prefix pat s with
          | Some after =>
              substitution pat before after repl ++
              match pat with
              | EmptyString =>
                  String c (replace_from pat repl 0 (before ++ String c EmptyString) s')
              | String _ p' =>
                  replace_from pat repl (String.length p') (before ++ String c EmptyString) s'
              end
          | None => String c (replace_from pat repl 0 (before ++ String c EmptyString) s')
          end
      end
  end.

Definition replaceAll (s pat repl : string) : string :=
  replace_from pat repl 0 EmptyString s.

(** White space and line terminators, as [trim] and [parseInt] pass over
    them: the ASCII ones, and in their UTF-8 encoding U+00A0, U+1680,
    U+2000 to U+200A, U+2028, U+2029, U+202F, U+205F, U+3000 and U+FEFF. *)
Definition white_space (c : ascii) : bool :=
  existsb (Ascii.eqb c) (map ascii_of_nat [9; 10; 11; 12; 13; 32]).

Definition white_space2 (c1 c2 : ascii) : bool :=
  (N_of_ascii c1 =? 194)%N && (N_of_ascii c2 =? 160)%N.

Definition white_space3 (c1 c2 c3 : ascii) : bool :=
  let n1 := N_of_ascii c1 in
  let n2 := N_of_ascii c2 in
  let n3 := N_of_ascii c3 in
  ((n1 =? 225) && (n2 =? 154) && (n3 =? 128))%N ||
  ((n1 =? 226) && (n2 =? 128) &&
   (((128 <=? n3) && (n3 <=? 138)) || (n3 =? 168) || (n3 =? 169) || (n3 =? 175)))%N ||
  ((n1 =? 226) && (n2 =? 129) && (n3 =? 159))%N ||
  ((n1 =? 227) && (n2 =? 128) && (n3 =? 128))%N ||
  ((n1 =? 239) && (n2 =? 187) && (n3 =? 191))%N.

(** [s.trimStart()] *)
Fixpoint trim_start (s : string) : string :=
  match s with
  | EmptyString => s
  | String c1 s1 =>
      if white_space c1 then trim_start s1
      else
        match s1 with
        | EmptyString => s
        | String c2 s2 =>
            if white_space2 c1 c2 then trim_start s2
            else
              match s2 with
              | EmptyString => s
              | String c3 s3 =>
                  if white_space3 c1 c2 c3 then trim_start s3 else s
              end
        end
  end.

(** [s.trimEnd()]: [s] without the longest end that is all white space. *)
Fixpoint trim_end (s : string) : string :=
  match s with
  | EmptyString => s
  | String c s' =>
      match trim_start s with
      | EmptyString => EmptyString
      | String _ _ => String c (trim_end s')
      end
  end.

(** [s.trim()] *)
Definition trim (s : string) : string := trim_end (trim_start s).

(** [s.endsWith(p)] *)
Definition endsWith (s p : string) : bool :=
  Nat.leb (String.length p) (String.length s) &&
  String.eqb (String.substring (String.length s - String.length p) (String.length p) s) p.

(** [s.repeat(n)] *)
Fixpoint repeat (s : string) (n : nat) : string :=
  match n with
  | 0 => EmptyString
  | S n' => s ++ repeat s n'
  end.

(** The upper-case letter of an ASCII letter: what a regular expression
    that ignores case compares. *)
Definition upper (c : ascii) : ascii :=
  let n := N_of_ascii c in
  if ((97 <=? n) && (n <=? 122))%N then ascii_of_N (n - 32) else c.

(** [s] without the prefix [p], the case of the letters ignored when
    [ci]. *)
Fixpoint strip_prefix_ci (ci : bool) (p s : string) : option string :=
  match p with
  | EmptyString => Some s
  | String a p' =>
      match s with
      | EmptyString => None
      | String b s' =>
          if (if ci then Ascii.eqb (upper a) (upper b) else Ascii.eqb a b)
          then strip_prefix_ci ci p' s'
          else None
      end
  end.

(** The value of a character as a digit of the radix: [0-9], then the
    letters in either case. *)
Definition digit_value (radix : N) (c : ascii) : option N :=
  let n := N_of_ascii c in
  let v :=
    if ((48 <=? n) && (n <=? 57))%N then Some (n - 48)%N
    else if ((97 <=? n) && (n <=? 122))%N then Some (n - 87)%N
    else if ((65 <=? n) && (n <=? 90))%N then Some (n - 55)%N
    else None in
  match v with
  | Some d => if (d <? radix)%N then Some d else None
  | None => None
  end.

(** The number that the longest prefix of digits of [s] writes, after the
    digits read so far; [None] while no digit was read. *)
Fixpoint digits_value (radix : N) (s : string) (acc : option N) : option N :=
  match s with
  | EmptyString => acc
  | String c s' =>
      match digit_value radix c with
      | Some d =>
          digits_value radix s'
            (Some (match acc with Some a => a * radix + d | None => d end)%N)
      | None => acc
      end
  end.

(** [parseInt(s)] without a radix; [None] is [NaN].  The result is the
    integer that the digits write: a Number is that integer up to [2^53]
    and the nearest double beyond. *)
Definition parseInt (s : string) : option Z :=
  let s := trim_start s in
  let '(sign, s) :=
    match s with
    | String c s' =>
        if Ascii.eqb c "-" then ((-1)%Z, s')
        else if Ascii.eqb c "+" then (1%Z, s')
        else (1%Z, s)
    | EmptyString => (1%Z, s)
    end in
  let '(radix, s) :=
    match strip_prefix "0x" s with
    | Some s' => (16%N, s')
    | None =>
        match strip_prefix "0X" s with
        | Some s' => (16%N, s')
        | None => (10%N, s)
        end
    end in
  match digits_value radix s None with
  | Some n => Some (sign * Z.of_N n)%Z
  | None => None
  end.

(** [s.split(sep)] for a separator of one character. *)
Fixpoint split (sep : ascii) (s : string) : list string :=
  match s with
  | EmptyString => [EmptyString]
  | String c s' =>
      if Ascii.eqb c sep then EmptyString :: split sep s'
      else
        match split sep s' with
        | part :: parts => String c part :: parts
        | [] => [String c EmptyString]
        end
  end.

(** The decimal digits of [n], most significant first, before [acc]. *)
Fixpoint digits (fuel : nat) (n : N) (acc : string) : string :=
  let acc := String (ascii_of_N (48 + n mod 10)) acc in
  match fuel with
  | 0 => acc
  | S fuel' => if (n <? 10)%N then acc else digits fuel' (n / 10)%N acc
  end.

(** [String(n)] for an integer [0 <= n < 10^21], which a Number writes in
    full. *)
Definition decimal (n : N) : string :=
  digits (N.to_nat (N.log2 n)) n EmptyString.

(** A decimal digit. *)
Definition decimal_digit (c : ascii) : bool :=
  match digit_value 10 c with Some _ => true | None => false end.

(** [s] has an occurrence of [p], the case of the letters ignored. *)
Fixpoint includes_ci (s p : string) : bool :=
  match strip_prefix_ci true p s with
  | Some _ => true
  | None =>
      match s with
      | EmptyString => false
      | String _ s' => includes_ci s' p
      end
  end.

End Js.

(** ** Association lists in creation order: objects and Maps *)

Module Dict.

Section Ops.
Context {V : Type}.

Definition t := list (string * V).

(** [m.get(k)], [o[k]]. *)
Fixpoint get (m : t) (k : string) : option V :=
  match m with
  | [] => None
  | (k', v) :: m' => if String.eqb k' k then Some v else get m' k
  end.

(** [m.has(k)]. *)
Definition has (m : t) (k : string) : bool :=
  match get m k with Some _ => true | None => false end.

(** [m.set(k, v)], [o[k] = v]: an existing key keeps its place. *)
Fixpoint set (m : t) (k : string) (v : V) : t :=
  match m with
  | [] => [(k, v)]
  | (k', v') :: m' =>
      if String.eqb k' k then (k', v) :: m' else (k', v') :: set m' k v
  end.

(** [m.delete(k)], [delete o[k]]. *)
Fixpoint delete (m : t) (k : string) : t :=
  match m with
  | [] => []
  | (k', v') :: m' =>
      if String.eqb k' k then delete m' k else (k', v') :: delete m' k
  end.

Definition keys (m : t) : list string := map fst m.

End Ops.

Arguments t : clear implicits.

End Dict.

(** The own keys of an object in the order [Object.keys] lists them: array
    indices first, by value, then the other keys in creation order. *)
Module ObjectKeys.

Definition digit (c : ascii) : option N :=
  let n := N_of_ascii c in
  if ((48 <=? n) && (n <=? 57))%N then Some (n - 48)%N else None.

Fixpoint number (acc : N) (s : string) : option N :=
  match s with
  | EmptyString => Some acc
  | String c s' =>
      match digit c with
      | Some d => number (acc * 10 + d)%N s'
      | None => None
      end
  end.

(** A canonical numeric string below [2^32 - 1]. *)
Definition array_index (k : string) : option N :=
  match k with
  | EmptyString => None
  | String c rest =>
      match digit c with
      | None => None
      | Some d =>
          if (d =? 0)%N && negb (String.eqb rest EmptyString) then None
          else if Nat.ltb 10 (String.length k) then None
          else match number 0 k with
               | Some n => if (n <? 4294967295)%N then Some n else None
               | None => None
               end
      end
  end.

Fixpoint insert (n : N) (k : string) (l : list (N * string)) : list (N * string) :=
  match l with
  | [] => [(n, k)]
  | (m, k') :: l' =>
      if (n <=? m)%N then (n, k) :: l else (m, k') :: insert n k l'
  end.

Fixpoint indices (ks : list string) : list (N * string) :=
  match ks with
  | [] => []
  | k :: ks' =>
      match array_index k with
      | Some n => insert n k (indices ks')
      | None => indices ks'
      end
  end.

Definition is_index (k : string) : bool :=
  match array_index k with Some _ => true | None => false end.

Definition own {V} (o : Dict.t V) : list string :=
  map snd (indices (Dict.keys o)) ++
  filter (fun k => negb (is_index k)) (Dict.keys o).

End ObjectKeys.

(** [{...o}]: a fresh object with the properties of [o] in enumeration
    order. *)
Definition spread (o : Dict.t string) : Dict.t string :=
  fold_left
    (fun acc k => match Dict.get o k with
                  | Some v => Dict.set acc k v
                  | None => acc
                  end)
    (ObjectKeys.own o) [].


(** ** Regular expressions

    The fragment of the regular-expression language that the literals of
    [parser.js] use, with the backtracking semantics of the language:
    [?] and [+] are greedy and give back what they took when the rest of
    the pattern fails. *)

Module Regex.

Inductive t :=
| Lit (s : string)              (* the characters of [s] *)
| Class (p : ascii -> bool)     (* one character of a class *)
| Opt (r : t)                   (* [r?] *)
| Plus (p : ascii -> bool)      (* [c+] for a class [c] *)
| Seq (r1 r2 : t)               (* [r1 r2] *)
| Group (r : t).                (* [(r)], capture group 1 *)

(** What is left of the input and the text of group 1. *)
Definition result := (string * option string)%type.

Fixpoint plus (p : ascii -> bool) (s : string) (k : string -> option result)
  : option result :=
  match s with
  | EmptyString => None
  | String c s' =>
      if p c then
        match plus p s' k with
        | Some x => Some x
        | None => k s'
        end
      else None
  end.

Fixpoint run (r : t) (s : string) (cap : option string)
    (k : string -> option string -> option result) : option result :=
  match r with
  | Lit l =>
      match Js.strip_prefix l s with
      | Some s' => k s' cap
      | None => None
      end
  | Class p =>
      match s with
      | String c s' => if p c then k s' cap else None
      | EmptyString => None
      end
  | Opt r' =>
      match run r' s cap k with
      | Some x => Some x
      | None => k s cap
      end
  | Plus p => plus p s (fun s' => k s' cap)
  | Seq r1 r2 => run r1 s cap (fun s' cap' => run r2 s' cap' k)
  | Group r' => run r' s cap (fun s' _ => k s' (Some (Js.consumed s s')))
  end.

(** A match that starts at the first character of [s]. *)
Definition at_start (r : t) (s : string) : option result :=
  run r s None (fun rest cap => Some (rest, cap)).

(** [s.match(r)] for [r] without the [g] flag: the first match, as its
    text and the text of group 1; [None] is [null]. *)
Fixpoint exec (r : t) (s : string) : option (string * option string) :=
  match at_start r s with
  | Some (rest, cap) => Some (Js.consumed s rest, cap)
  | None =>
      match s with
      | EmptyString => None
      | String _ s' => exec r s'
      end
  end.

(** [s.match(r)] for [r] with the [g] flag: the texts of all matches, left
    to right and without overlap; the empty list is [null].  [skip] counts
    the characters of the last match still to pass over. *)
Fixpoint scan (r : t) (skip : nat) (s : string) : list string :=
  match s with
  | EmptyString =>
      match skip with
      | 0 => match at_start r s with Some _ => [EmptyString] | None => [] end
      | S _ => []
      end
  | String _ s' =>
      match skip with
      | S k => scan r k s'
      | 0 =>
          match at_start r s with
          | Some (rest, _) =>
              let m := Js.consumed s rest in
              m :: scan r (String.length m - 1) s'
          | None => scan r 0 s'
          end
      end
  end.

Definition match_all (r : t) (s : string) : list string := scan r 0 s.

(** Group 1 of the first match: [s.match(r)[1]]. *)
Definition group1 (r : t) (s : string) : option string :=
  match exec r s with
  | Some (_, cap) => cap
  | None => None
  end.

Definition one_of (cs : list ascii) (c : ascii) : bool :=
  existsb (Ascii.eqb c) cs.

(** [\s] *)
Definition space : ascii -> bool :=
  one_of (map ascii_of_nat [9; 10; 11; 12; 13; 32]).

(** The class of the two quote characters, written [q] below. *)
Definition quote : ascii -> bool := one_of [Js.squote; Js.dquote].

(** The class [^q)\s]: neither a quote, nor a closing parenthesis, nor
    white space. *)
Definition url_char (c : ascii) : bool :=
  negb (quote c || Ascii.eqb c ")" || space c).

Declare Scope regex_scope.
Delimit Scope regex_scope with regex.
Infix "·" := Seq (at level 60, right associativity) : regex_scope.

(** [/url\(q?([^q)\s]+)q?\)/] *)
Definition css_url : t :=
  (Lit "url(" · Opt (Class quote) · Group (Plus url_char) · Opt (Class quote) · Lit ")")%regex.

(** [/@import\s+(?:url\()?q?([^q)\s]+)q?\)?/] *)
Definition css_import : t :=
  (Lit "@import" · Plus space · Opt (Lit "url(") · Opt (Class quote) ·
   Group (Plus url_char) · Opt (Class quote) · Opt (Lit ")"))%regex.

(** [/q?([^q)\s]+)q?/] *)
Definition quoted_word : t :=
  (Opt (Class quote) · Group (Plus url_char) · Opt (Class quote))%regex.

End Regex.

(** ** What a regular expression matches *)

Module Matching.

Import Regex.

(** Every character of [s] is in the class [p]. *)
Fixpoint all (p : ascii -> bool) (s : string) : bool :=
  match s with
  | EmptyString => true
  | String c s' => p c && all p s'
  end.

(** [matches r s cap cap']: the expression [r] matches the whole of [s]
    and turns the text of group 1 from [cap] into [cap']. *)
Inductive matches : Regex.t -> string -> option string -> option string -> Prop :=
| m_lit l cap : matches (Lit l) l cap cap
| m_class p c cap :
    p c = true -> matches (Class p) (String c EmptyString) cap cap
| m_opt r s cap cap' : matches r s cap cap' -> matches (Opt r) s cap cap'
| m_skip r cap : matches (Opt r) EmptyString cap cap
| m_plus p c s cap :
    p c = true -> all p s = true -> matches (Plus p) (String c s) cap cap
| m_seq r1 r2 s1 s2 cap cap' cap'' :
    matches r1 s1 cap cap' -> matches r2 s2 cap' cap'' ->
    matches (Seq r1 r2) (s1 ++ s2) cap cap''
| m_group r s cap cap' :
    matches r s cap cap' -> matches (Group r) s cap (Some s).

(** Some character of [s] is in the class [p]. *)
Fixpoint some (p : ascii -> bool) (s : string) : bool :=
  match s with
  | EmptyString => false
  | String c s' => p c || some p s'
  end.

(** The expression has a group that every match goes through. *)
Fixpoint captures (r : Regex.t) : bool :=
  match r with
  | Group _ => true
  | Seq r1 r2 => captures r1 || captures r2
  | _ => false
  end.

End Matching.

(** ** Regular expressions with several groups

    The regular expressions of [formatHTML], with the backtracking
    semantics of the language: alternatives in order, [*] greedy and [*?]
    lazy, each over a class of characters, and numbered groups.  A class
    is given as it reads when the expression ignores case. *)

Module Rx.

Inductive t :=
| Chars (s : string)            (* the characters of [s] *)
| Set_ (p : ascii -> bool)      (* one character of a class *)
| Star (p : ascii -> bool)      (* [c*] for a class [c] *)
| Lazy (p : ascii -> bool)      (* [c*?] for a class [c] *)
| Seq (r1 r2 : t)               (* [r1 r2] *)
| Alt (r1 r2 : t)               (* [r1|r2] *)
| Group (i : nat) (r : t).      (* [(r)], the group of number [i] *)

(** The text of the groups that took part in a match. *)
Definition captures := list (nat * string).

Definition cap (i : nat) (caps : captures) : option string :=
  match find (fun e => Nat.eqb (fst e) i) caps with
  | Some e => Some (snd e)
  | None => None
  end.

(** What is left of the input, and the groups. *)
Definition result := (string * captures)%type.

Fixpoint star (p : ascii -> bool) (s : string) (k : string -> option result)
  : option result :=
  match s with
  | EmptyString => k s
  | String c s' =>
      if p c then
        match star p s' k with
        | Some x => Some x
        | None => k s
        end
      else k s
  end.

Fixpoint lazy_star (p : ascii -> bool) (s : string) (k : string -> option result)
  : option result :=
  match k s with
  | Some x => Some x
  | None =>
      match s with
      | EmptyString => None
      | String c s' => if p c then lazy_star p s' k else None
      end
  end.

(** [ci] is the flag [i]. *)
Fixpoint run (ci : bool) (r : t) (s : string) (caps : captures)
    (k : string -> captures -> option result) : option result :=
  match r with
  | Chars l =>
      match Js.strip_prefix_ci ci l s with
      | Some s' => k s' caps
      | None => None
      end
  | Set_ p =>
      match s with
      | String c s' => if p c then k s' caps else None
      | EmptyString => None
      end
  | Star p => star p s (fun s' => k s' caps)
  | Lazy p => lazy_star p s (fun s' => k s' caps)
  | Seq r1 r2 => run ci r1 s caps (fun s' caps' => run ci r2 s' caps' k)
  | Alt r1 r2 =>
      match run ci r1 s caps k with
      | Some x => Some x
      | None => run ci r2 s caps k
      end
  | Group i r' =>
      run ci r' s caps (fun s' caps' => k s' ((i, Js.consumed s s') :: caps'))
  end.

(** A match that starts at the first character of [s]. *)
Definition at_start (ci : bool) (r : t) (s : string) : option result :=
  run ci r s [] (fun rest caps => Some (rest, caps)).

(** [s.match(r)] for [r] without the flag [g]: the groups of the first
    match; [None] is [null]. *)
Fixpoint exec (ci : bool) (r : t) (s : string) : option captures :=
  match at_start ci r s with
  | Some (_, caps) => Some caps
  | None =>
      match s with
      | EmptyString => None
      | String _ s' => exec ci r s'
      end
  end.

(** [s.replace(r, fn)] for [r] with the flag [g] and a function [fn] that
    has a state: every match, left to right and without overlap, gives
    way to what [fn] returns for its text and its groups.  [skip] counts
    the characters of the current match still to pass over. *)
Fixpoint replace_from {S : Type} (ci : bool) (r : t)
    (fn : S -> string -> captures -> S * string)
    (skip : nat) (state : S) (s : string) : S * string :=
  match s with
  | EmptyString =>
      match skip with
      | 0 =>
          match at_start ci r s with
          | Some (_, caps) => fn state EmptyString caps
          | None => (state, EmptyString)
          end
      | S _ => (state, EmptyString)
      end
  | String c s' =>
      match skip with
      | S k => replace_from ci r fn k state s'
      | 0 =>
          match at_start ci r s with
          | Some (rest, caps) =>
              let matched := Js.consumed s rest in
              let '(state, replacement) := fn state matched caps in
              match matched with
              | EmptyString =>
                  let '(state, out) := replace_from ci r fn 0 state s' in
                  (state, replacement ++ String c out)
              | String _ m' =>
                  let '(state, out) := replace_from ci r fn (String.length m') state s' in
                  (state, replacement ++ out)
              end
          | None =>
              let '(state, out) := replace_from ci r fn 0 state s' in
              (state, String c out)
          end
      end
  end.

Definition replace {S : Type} (ci : bool) (r : t)
    (fn : S -> string -> captures -> S * string) (state : S) (s : string)
  : S * string :=
  replace_from ci r fn 0 state s.

(** The groups [1] to [n] of a match, [None] for one that took no part. *)
Definition groups (n : nat) (caps : captures) : list (option string) :=
  map (fun i => cap i caps) (seq 1 n).

(** [s.split(r)] for [r] with [n] groups, from the position [q] on: [piece]
    is the text from the end [p] of the last separator to [q], and [skip]
    counts the characters of the separator found still to pass over.  A
    match that ends where the piece starts does not separate. *)
Fixpoint split_from (ci : bool) (r : t) (n : nat) (skip : nat) (piece s : string)
  : list (option string) :=
  match s with
  | EmptyString => [Some piece]
  | String c s' =>
      match skip with
      | S k => split_from ci r n k piece s'
      | 0 =>
          match at_start ci r s with
          | Some (rest, caps) =>
              match Js.consumed s rest, piece with
              | EmptyString, EmptyString =>
                  split_from ci r n 0 (String c EmptyString) s'
              | EmptyString, String _ _ =>
                  Some piece :: groups n caps ++
                  split_from ci r n 0 (String c EmptyString) s'
              | String _ m', _ =>
                  Some piece :: groups n caps ++
                  split_from ci r n (String.length m') EmptyString s'
              end
          | None => split_from ci r n 0 (piece ++ String c EmptyString) s'
          end
      end
  end.

Definition split (ci : bool) (r : t) (n : nat) (s : string) : list (option string) :=
  match s with
  | EmptyString =>
      match at_start ci r s with
      | Some _ => []
      | None => [Some s]
      end
  | String _ _ => split_from ci r n 0 EmptyString s
  end.

(** [[^>]] *)
Definition not_gt (c : ascii) : bool := negb (Ascii.eqb c ">").

(** [[\s\S]] *)
Definition any (c : ascii) : bool := true.

(** [\d] *)
Definition digit (c : ascii) : bool :=
  let n := N_of_ascii c in ((48 <=? n) && (n <=? 57))%N.

(** [r1|r2|...] *)
Fixpoint alternatives (r : t) (rs : list t) : t :=
  match rs with
  | [] => r
  | r' :: rs' => Alt r (alternatives r' rs')
  end.

Declare Scope rx_scope.
Delimit Scope rx_scope with rx.
Infix "·" := Seq (at level 60, right associativity) : rx_scope.

(** [/(<style[^>]*>)([\s\S]*?)(<\/style>)/gi] *)
Definition style_block : t :=
  (Group 1 (Chars "<style" · Star not_gt · Chars ">") ·
   Group 2 (Lazy any) ·
   Group 3 (Chars "</style>"))%rx.

(** [/(<[^>]+>)/g] *)
Definition tag : t :=
  Group 1 (Chars "<" · Set_ not_gt · Star not_gt · Chars ">")%rx.

(** [/___STYLE_(\d+)___/] *)
Definition style_placeholder : t :=
  (Chars "___STYLE_" · Group 1 (Set_ digit · Star digit) · Chars "___")%rx.

(** [/<(img|br|hr|input|meta|link)/i] *)
Definition single_line_tag : t :=
  (Chars "<" ·
   Group 1 (alternatives (Chars "img")
              [Chars "br"; Chars "hr"; Chars "input"; Chars "meta"; Chars "link"]))%rx.

(** [/<(span|a|strong|em|b|i|u|small|code)/i] *)
Definition inline_tag : t :=
  (Chars "<" ·
   Group 1 (alternatives (Chars "span")
              [Chars "a"; Chars "strong"; Chars "em"; Chars "b"; Chars "i";
               Chars "u"; Chars "small"; Chars "code"]))%rx.

End Rx.

(** ** The document tree and the cheerio operations the code uses *)

Module Dom.

(** [elem.attribs] *)
Definition attrs := Dict.t string.

Set Warnings "-register-all".

(** A node of the parsed document.  [Markup] is a place where the code
    handed cheerio a string of HTML to insert ([replaceWith], [prepend]):
    the nodes that string parses to are cheerio's business, and the model
    does not look into them. *)
Inductive node :=
| Elem (name : string) (attribs : attrs) (children : list node)
| Text (data : string)
| Markup (html : string).

(** The children of the root of the document. *)
Definition forest := list node.

(** A selector, as a test on the name and the attributes of an element. *)
Definition selector := string -> attrs -> bool.

(** [tag] *)
Definition tag (t : string) : selector := fun n _ => String.eqb n t.

(** [*] *)
Definition any : selector := fun _ _ => true.

(** [tag[a]] *)
Definition tag_with (t a : string) : selector :=
  fun n at_ => String.eqb n t && Dict.has at_ a.

(** [tag[a=v]], the value compared as it is written. *)
Definition tag_attr_is (t a v : string) : selector :=
  fun n at_ =>
    String.eqb n t &&
    match Dict.get at_ a with Some x => String.eqb x v | None => false end.

(** [[a*=v]] *)
Definition attr_contains (a v : string) : selector :=
  fun _ at_ =>
    match Dict.get at_ a with Some x => Js.includes x v | None => false end.

(** [s1, s2, ...] *)
Definition either (ss : list selector) : selector :=
  fun n at_ => existsb (fun s => s n at_) ss.

(** [$(sel).each((i, elem) => ...)] for a callback that only reads and
    writes the attributes of [elem]. *)
Fixpoint each_node (sel : selector) (fn : attrs -> attrs) (n : node) : node :=
  match n with
  | Elem t a cs => Elem t (if sel t a then fn a else a) (map (each_node sel fn) cs)
  | _ => n
  end.

Definition each (sel : selector) (fn : attrs -> attrs) (d : forest) : forest :=
  map (each_node sel fn) d.

(** [$(sel).remove()] *)
Fixpoint remove_node (sel : selector) (n : node) : list node :=
  match n with
  | Elem t a cs =>
      if sel t a then [] else [Elem t a (flat_map (remove_node sel) cs)]
  | _ => [n]
  end.

Definition remove (sel : selector) (d : forest) : forest :=
  flat_map (remove_node sel) d.

(** The elements [$(sel)] selects, in document order. *)
Fixpoint select_node (sel : selector) (n : node) : list node :=
  match n with
  | Elem t a cs =>
      (if sel t a then [n] else []) ++ flat_map (select_node sel) cs
  | _ => []
  end.

Definition select (sel : selector) (d : forest) : list node :=
  flat_map (select_node sel) d.

(** [$(sel).each((i, elem) => { ... $(elem).replaceWith(markup) })] where
    the callback replaces [elem] when [fn] gives the markup.  A selected
    element below a replaced one leaves the document with it. *)
Fixpoint replace_node (sel : selector) (fn : attrs -> option string) (n : node) : node :=
  match n with
  | Elem t a cs =>
      match (if sel t a then fn a else None) with
      | Some m => Markup m
      | None => Elem t a (map (replace_node sel fn) cs)
      end
  | _ => n
  end.

Definition replace_each (sel : selector) (fn : attrs -> option string) (d : forest) : forest :=
  map (replace_node sel fn) d.

(** [$(sel).prepend(markup)] *)
Fixpoint prepend_node (sel : selector) (m : string) (n : node) : node :=
  match n with
  | Elem t a cs =>
      Elem t a ((if sel t a then [Markup m] else []) ++ map (prepend_node sel m) cs)
  | _ => n
  end.

Definition prepend (sel : selector) (m : string) (d : forest) : forest :=
  map (prepend_node sel m) d.

(** [$(elem).html()] of a [style] element: its text. *)
Fixpoint inner_text (cs : list node) : string :=
  match cs with
  | [] => EmptyString
  | Text s :: cs' => s ++ inner_text cs'
  | Markup s :: cs' => s ++ inner_text cs'
  | Elem _ _ _ :: cs' => inner_text cs'
  end.

(** The name and the attributes of every element, in document order. *)
Fixpoint elems_node (n : node) : list (string * attrs) :=
  match n with
  | Elem t a cs => (t, a) :: flat_map elems_node cs
  | _ => []
  end.

Definition elems (d : forest) : list (string * attrs) :=
  flat_map elems_node d.



End Dom.

Import Dom.

(** ** The libraries *)

(** What the code reads of a WHATWG [URL] object. *)
Record Url := { href : string; protocol : string; host : string }.

(** [new URL(url)] and [new URL(url, base)]; [None] when the constructor
    throws. *)
Class UrlApi := { URL : string -> option string -> option Url }.

(** cheerio: [cheerio.load(html)] and [$.html()]. *)
Class Cheerio := {
  load : string -> forest;
  html_of : forest -> string
}.

(** robots-parser: [RobotsParser(robotsUrl, contents).isAllowed(url, ua)],
    for a [url] of the origin the file was fetched from. *)
Class Robots := { isAllowed : string -> string -> string -> string -> bool }.

(** [Buffer.from(data).toString('base64')] *)
Class Base64 := { base64 : string -> string }.

(** ** parser.js *)

Module Parser.

(** Tags to completely remove. *)
Definition STRIP_TAGS : list string :=
  ["script"; "noscript"; "iframe"; "object"; "embed"].

(** Dangerous attributes to remove. *)
Definition STRIP_ATTRIBUTES : list string :=
  ["onload"; "onerror"; "onclick"; "onmouseover"; "onmouseout";
   "onchange"; "onsubmit"; "onfocus"; "onblur"].

(** An entry of [assets.images] or [assets.stylesheets]. *)
Record Asset := {
  original : string;
  absolute : string;
  inlineStyle : bool;
  importRule : bool
}.

Record Assets := { images : list Asset; stylesheets : list Asset }.

(** [assetMap[k]] when it is truthy. *)
Definition lookup (assetMap : Dict.t string) (k : option string) : option string :=
  match Dict.get assetMap (Js.key k) with
  | Some v => if Js.truthy v then Some v else None
  | None => None
  end.

(** The markup that takes the place of a stylesheet link. *)
Definition styleTag (css : string) : string :=
  "<style type=" ++ Js.dq ++ "text/css" ++ Js.dq ++ ">" ++ css ++ "</style>".

(** The banner of [addReplicaBanner], line by line. *)
Definition banner : string :=
  String.concat Js.nl
    [ "";
      "      <div style=" ++ Js.dq;
      "        position: fixed;";
      "        top: 0;";
      "        left: 0;";
      "        right: 0;";
      "        background: linear-gradient(135deg, #1a1a2e 0%, #16213e 100%);";
      "        color: #f4a261;";
      "        padding: 8px 16px;";
      "        text-align: center;";
      "        font-family: 'Courier New', monospace;";
      "        font-size: 12px;";
      "        border-bottom: 2px solid #f4a261;";
      "        z-index: 999999;";
      "        box-shadow: 0 2px 8px rgba(0,0,0,0.3);";
      "      " ++ Js.dq ++ ">";
      "        ⚓ REPLICATED SITE • Original interactivity disabled • For preview purposes only ⚓";
      "      </div>";
      "      <div style=" ++ Js.dq ++ "height: 36px;" ++ Js.dq ++ "></div>";
      "    " ].

Section WithUrl.
Context `{UrlApi}.

(** [resolveUrl(url, baseUrl)].  Whatever the [URL] constructor throws is
    caught and the reference is returned as it came. *)
Definition resolveUrl (url baseUrl : string) : string :=
  if Js.startsWith url "//" then
    match URL baseUrl None with
    | Some baseUrlObj => protocol baseUrlObj ++ url
    | None => url
    end
  else if Js.startsWith url "http://" || Js.startsWith url "https://" then url
  else if Js.startsWith url "data:" then url
  else
    match URL url (Some baseUrl) with
    | Some u => href u
    | None => url
    end.

(** [resolveUrl] on the value of an attribute that may be missing:
    [url.startsWith] throws on [undefined], which the function catches to
    return its argument. *)
Definition resolveUrl_attr (url : option string) (baseUrl : string) : option string :=
  match url with
  | Some u => Some (resolveUrl u baseUrl)
  | None => None
  end.

Definition asset (inline import : bool) (url baseUrl : string) : Asset :=
  {| original := url; absolute := resolveUrl url baseUrl;
     inlineStyle := inline; importRule := import |}.

(** The references of the first loop of [extractAssets], one image
    element at a time. *)
Definition image_sources (baseUrl : string) (elem : node) : list Asset :=
  match elem with
  | Elem _ a _ =>
      match Dict.get a "src" with
      | Some src =>
          if Js.truthy src && negb (Js.startsWith src "data:")
          then [asset false false src baseUrl] else []
      | None => []
      end
  | _ => []
  end.

(** The text of group 1 of each match: [match.match(r)[1]] for every
    [match].  A match without it would be passed over; there is none
    (lemmas [captured_css_url] and [captured_css_import]). *)
Definition captured (r : Regex.t) (matches : list string) : list string :=
  flat_map (fun m => match Regex.group1 r m with Some u => [u] | None => [] end)
           matches.

(** The second loop: the [url(...)] of the [style] attribute. *)
Definition background_images (baseUrl : string) (elem : node) : list Asset :=
  match elem with
  | Elem _ a _ =>
      match Dict.get a "style" with
      | Some style =>
          flat_map
            (fun url =>
               if negb (Js.startsWith url "data:")
               then [asset true false url baseUrl] else [])
            (captured Regex.css_url (Regex.match_all Regex.css_url style))
      | None => []
      end
  | _ => []
  end.

(** The third loop: the stylesheet links. *)
Definition linked_stylesheets (baseUrl : string) (elem : node) : list Asset :=
  match elem with
  | Elem _ a _ =>
      match Dict.get a "href" with
      | Some href_ =>
          if Js.truthy href_ && negb (Js.startsWith href_ "data:")
          then [asset false false href_ baseUrl] else []
      | None => []
      end
  | _ => []
  end.

(** The fourth loop: the [@import] rules of the [style] elements. *)
Definition imported_stylesheets (baseUrl : string) (elem : node) : list Asset :=
  match elem with
  | Elem _ _ cs =>
      flat_map
        (fun url =>
           if negb (Js.startsWith url "data:")
           then [asset false true url baseUrl] else [])
        (captured Regex.quoted_word
                  (Regex.match_all Regex.css_import (inner_text cs)))
  | _ => []
  end.

(** [extractAssets($, baseUrl)]; the [fonts] of the result stay empty and
    the [element] of a reference is never read. *)
Definition extractAssets (doc : forest) (baseUrl : string) : Assets :=
  {| images :=
       flat_map (image_sources baseUrl) (select (tag_with "img" "src") doc) ++
       flat_map (background_images baseUrl)
                (select (attr_contains "style" "background") doc);
     stylesheets :=
       flat_map (linked_stylesheets baseUrl)
                (select (tag_attr_is "link" "rel" "stylesheet") doc) ++
       flat_map (imported_stylesheets baseUrl) (select (tag "style") doc) |}.

(** [stripUnsafeContent($)] *)
Definition stripUnsafeContent (doc : forest) : forest :=
  let doc := fold_left (fun d t => remove (tag t) d) STRIP_TAGS doc in
  let doc := each any (fun a => fold_left Dict.delete STRIP_ATTRIBUTES a) doc in
  let doc := each (tag "form")
                  (fun a => Dict.delete (Dict.set a "onsubmit" "return false;") "action")
                  doc in
  each (either [tag "input"; tag "textarea"; tag "button"])
       (fun a => Dict.set a "disabled" "disabled") doc.

(** The callback of the first loop of [rewriteAssets]. *)
Definition rewrite_src (assetMap : Dict.t string) (a : attrs) : attrs :=
  match lookup assetMap (Dict.get a "src") with
  | Some v => Dict.set a "src" v
  | None => a
  end.

(** The callback of the second loop. *)
Definition rewrite_style (assetMap : Dict.t string) (a : attrs) : attrs :=
  match Dict.get a "style" with
  | Some style =>
      Dict.set a "style"
        (fold_left
           (fun style originalUrl =>
              match Dict.get assetMap originalUrl with
              | Some v => Js.replaceAll style originalUrl v
              | None => style
              end)
           (ObjectKeys.own assetMap) style)
  | None => a
  end.

(** The CSS the third loop finds for a link, by its [href] and then, when
    a base URL is given, by its absolute form. *)
Definition stylesheet_for (assetMap : Dict.t string) (baseUrl : option string)
    (a : attrs) : option string :=
  let href_ := Dict.get a "href" in
  match lookup assetMap href_ with
  | Some css => Some css
  | None =>
      match baseUrl with
      | Some b =>
          if Js.truthy b then lookup assetMap (resolveUrl_attr href_ b)
          else None
      | None => None
      end
  end.

(** [rewriteAssets($, assetMap, baseUrl)] *)
Definition rewriteAssets (doc : forest) (assetMap : Dict.t string)
    (baseUrl : option string) : forest :=
  let doc := each (tag_with "img" "src") (rewrite_src assetMap) doc in
  let doc := each (attr_contains "style" "background") (rewrite_style assetMap) doc in
  replace_each (tag_attr_is "link" "rel" "stylesheet")
    (fun a => option_map styleTag (stylesheet_for assetMap baseUrl a)) doc.

(** [processCSS(css, baseUrl, assetMap)] *)
Definition processCSS (css baseUrl : string) (assetMap : Dict.t string) : string :=
  fold_left
    (fun processedCSS url =>
       if negb (Js.startsWith url "data:") then
         let absoluteUrl := resolveUrl url baseUrl in
         match lookup assetMap (Some absoluteUrl) with
         | Some v => Js.replaceAll processedCSS url v
         | None =>
             match lookup assetMap (Some url) with
             | Some v => Js.replaceAll processedCSS url v
             | None => processedCSS
             end
         end
       else processedCSS)
    (captured Regex.css_url (Regex.match_all Regex.css_url css)) css.

(** [addReplicaBanner($)] *)
Definition addReplicaBanner (doc : forest) : forest :=
  prepend (tag "body") banner doc.

End WithUrl.

(** [formatHTML(html)] *)

Definition indentStr : string := "  ".

(** An entry of [preserved]. *)
Record Preserved := {
  open : option string;
  content : option string;
  close : option string
}.

(** The function that [formatHTML] replaces the style blocks with. *)
Definition preserve (preserved : list Preserved) (matched : string)
    (caps : Rx.captures) : list Preserved * string :=
  let placeholder :=
    "___STYLE_" ++ Js.decimal (N.of_nat (length preserved)) ++ "___" in
  ((preserved ++ [{| open := Rx.cap 1 caps;
                     content := Rx.cap 2 caps;
                     close := Rx.cap 3 caps |}])%list,
   placeholder).

Definition is_match (m : option Rx.captures) : bool :=
  match m with Some _ => true | None => false end.

(** One turn of the loop of [formatHTML] on [parts[i]]: the new values of
    [formatted] and [indent], or [None] when the turn throws a
    [TypeError]. *)
Definition format_part (preserved : list Preserved) (state : string * nat)
    (parts_i : option string) : option (string * nat) :=
  let '(formatted, indent) := state in
  match parts_i with
  | None => None
  | Some text =>
      let part := Js.trim text in
      if negb (Js.truthy part) then Some state
      else if Js.startsWith part "___STYLE_" then
        match Rx.exec false Rx.style_placeholder part with
        | None => None
        | Some caps =>
            match Js.parseInt (Js.key (Rx.cap 1 caps)) with
            | None => None
            | Some index =>
                match (if (index <? 0)%Z then None
                       else nth_error preserved (Z.to_nat index)) with
                | None => None
                | Some block =>
                    Some (formatted ++ Js.repeat indentStr indent ++
                          Js.key (open block) ++ Js.key (content block) ++
                          Js.key (close block) ++ Js.nl,
                          indent)
                end
            end
        end
      else if Js.startsWith part "<" then
        if Js.startsWith part "</" then
          let indent := indent - 1 in
          Some (formatted ++ Js.repeat indentStr indent ++ part ++ Js.nl, indent)
        else if Js.endsWith part "/>" ||
                is_match (Rx.exec true Rx.single_line_tag part) then
          Some (formatted ++ Js.repeat indentStr indent ++ part ++ Js.nl, indent)
        else
          Some (formatted ++ Js.repeat indentStr indent ++ part ++ Js.nl,
                if negb (is_match (Rx.exec true Rx.inline_tag part))
                then S indent else indent)
      else
        Some (formatted ++ Js.repeat indentStr indent ++ part ++ Js.nl, indent)
  end.

(** The loop over the parts. *)
Fixpoint format_parts (preserved : list Preserved) (state : string * nat)
    (parts : list (option string)) : option (string * nat) :=
  match parts with
  | [] => Some state
  | parts_i :: rest =>
      match format_part preserved state parts_i with
      | Some state' => format_parts preserved state' rest
      | None => None
      end
  end.

(** [formatHTML(html)]: the formatted text, or [None] when the function
    throws. *)
Definition formatHTML (html : string) : option string :=
  let '(preserved, processedHtml) := Rx.replace true Rx.style_block preserve [] html in
  let parts := Rx.split false Rx.tag 1 processedHtml in
  match format_parts preserved (EmptyString, 0) parts with
  | Some (formatted, _) => Some formatted
  | None => None
  end.

End Parser.

(** ** fetcher.js *)

Module Fetcher.

(** What the code reads of a rejected axios request, and of any [Error]. *)
Record Failure := {
  code : option string;          (* [error.code] *)
  status_of : option nat;        (* [error.response?.status] *)
  message : string               (* [error.message] *)
}.

(** What the code reads of an axios response. *)
Record Response := {
  status : nat;                  (* [response.status] *)
  content_type : option string;  (* [response.headers['content-type']] *)
  data : string;                 (* [response.data] *)
  responseUrl : option string    (* [response.request.res.responseUrl] *)
}.

(** [await axios.get(...)]: rejected or resolved.  Redirects, the time
    limit, the size limit and [validateStatus] are axios's: a request that
    fails any of them is rejected. *)
Definition Outcome := (Failure + Response)%type.

(** The network, as the job meets it.  The requests for assets are told
    apart by their position in [assets.stylesheets] and [assets.images],
    since two requests for one URL need not fare alike.  [completion]
    orders the requests that one [Promise.all] awaits by the moment they
    settle: the rest of each callback runs then. *)
Record Network := {
  get_robots : string -> Outcome;
  get_page : string -> Outcome;
  get_stylesheet : nat -> string -> Outcome;
  get_image : nat -> string -> Outcome;
  completion : list nat -> list nat
}.

Definition USER_AGENT : string :=
  "Mozilla/5.0 (compatible; WebsitePlunder/1.0; +https://github.com/yourorg/website-plunder)".

(** [new Error(msg)] *)
Definition Error (msg : string) : Failure :=
  {| code := None; status_of := None; message := msg |}.

(** What [fetchHTML] returns. *)
Record Page := { html : string; finalUrl : string; contentType : option string }.

Section WithLibraries.
Context `{UrlApi} `{Robots} `{Base64}.
Variable net : Network.

(** [checkRobots(url)] *)
Definition checkRobots (url : string) : bool :=
  match URL url None with
  | None => true
  | Some urlObj =>
      let robotsUrl := protocol urlObj ++ "//" ++ host urlObj ++ "/robots.txt" in
      match get_robots net robotsUrl with
      | inr response =>
          if Nat.eqb (status response) 200
          then isAllowed robotsUrl (data response) url USER_AGENT
          else true
      | inl _ => true
      end
  end.

(** The request for the page in [fetchHTML], and what is returned of the
    response. *)
Definition request_page (url : string) : Failure + Page :=
  match get_page net url with
  | inl error => inl error
  | inr response =>
      inr {| html := data response;
             finalUrl := match Js.or_else (responseUrl response) (Some url) with
                         | Some u => u
                         | None => url
                         end;
             contentType := content_type response |}
  end.

(** The [try] block of [fetchHTML]: what it throws or returns. *)
Definition fetchHTML_try (url : string) : Failure + Page :=
  if negb (checkRobots url) then inl (Error "Blocked by robots.txt")
  else request_page url.

(** The [catch] block of [fetchHTML]: the error it throws in turn. *)
Definition fetchHTML_catch (error : Failure) : Failure :=
  if match code error with Some c => String.eqb c "ECONNABORTED" | None => false end
  then Error "Request timeout - site took too long to respond"
  else if match status_of error with Some s => Nat.eqb s 404 | None => false end
  then Error "Page not found (404)"
  else if match status_of error with Some s => Nat.eqb s 403 | None => false end
  then Error "Access forbidden (403)"
  else Error ("Failed to fetch HTML: " ++ message error).

(** [fetchHTML(url)] *)
Definition fetchHTML (url : string) : Failure + Page :=
  match fetchHTML_try url with
  | inl error => inl (fetchHTML_catch error)
  | inr page => inr page
  end.

(** [fetchCSS(url, refererUrl)] for the stylesheet at position [i]. *)
Definition fetchCSS (i : nat) (url refererUrl : string) : option string :=
  match get_stylesheet net i url with
  | inr response => Some (data response)
  | inl _ => None
  end.

(** [fetchImage(url, refererUrl)] for the image at position [i]. *)
Definition fetchImage (i : nat) (url refererUrl : string) : option string :=
  match get_image net i url with
  | inr response =>
      let contentType :=
        match Js.or_else (content_type response) (Some "image/png") with
        | Some c => c
        | None => "image/png"
        end in
      Some ("data:" ++ contentType ++ ";base64," ++ base64 (data response))
  | inl _ => None
  end.

(** [fetchAsset(url, refererUrl)].  Nothing in the repository calls it and
    the network has no oracle for it: [request] is its [axios.get]. *)
Definition fetchAsset (request : string -> Outcome) (url refererUrl : string)
  : option string :=
  match request url with
  | inr response =>
      let contentType :=
        match Js.or_else (content_type response) (Some "application/octet-stream") with
        | Some c => c
        | None => "application/octet-stream"
        end in
      Some ("data:" ++ contentType ++ ";base64," ++ base64 (data response))
  | inl _ => None
  end.

End WithLibraries.

End Fetcher.

(** ** storage.js *)

Module Storage.

(** [this.store]: a Map from session id to a Map from URL to data. *)
Definition t := Dict.t (Dict.t string).

(** [storeAsset(sessionId, originalUrl, dataUrl)] *)
Definition storeAsset (store : t) (sessionId originalUrl dataUrl : string) : t :=
  let store := if Dict.has store sessionId then store
               else Dict.set store sessionId [] in
  match Dict.get store sessionId with
  | Some sessionStore =>
      Dict.set store sessionId (Dict.set sessionStore originalUrl dataUrl)
  | None => store
  end.

(** [getAssetMap(sessionId)] *)
Definition getAssetMap (store : t) (sessionId : string) : Dict.t string :=
  match Dict.get store sessionId with
  | None => []
  | Some sessionStore =>
      fold_left (fun assetMap '(originalUrl, dataUrl) =>
                   Dict.set assetMap originalUrl dataUrl)
                sessionStore []
  end.

(** [clearSession(sessionId)] *)
Definition clearSession (store : t) (sessionId : string) : t :=
  if Dict.has store sessionId then Dict.delete store sessionId else store.

(** Auto-cleanup old sessions after 1 hour. *)
Definition CLEANUP_INTERVAL : N := 60 * 60 * 1000.

(** [generateSessionId()] at the time [now] in milliseconds, [Date.now()];
    [random] is [Math.random().toString(36).substr(2, 9)]. *)
Definition generateSessionId (now : N) (random : string) : string :=
  "session_" ++ Js.decimal now ++ "_" ++ random.

(** The test that the cleanup timer makes on a session at the time [now]:
    [now - parseInt(sessionId.split('_')[1]) > CLEANUP_INTERVAL].  With
    [NaN] on either side the comparison is false.  A session id is a
    string, so that nothing here throws. *)
Definition expired (now : N) (sessionId : string) : bool :=
  match Js.parseInt (Js.key (nth_error (Js.split "_" sessionId) 1)) with
  | Some timestamp => (Z.of_N now - timestamp >? Z.of_N CLEANUP_INTERVAL)%Z
  | None => false
  end.

(** The callback of the timer of [startCleanupTimer], run at the time
    [now]: [forEach] visits every session of the store once, and the
    callback deletes the session it is visiting when it is old. *)
Definition cleanup (now : N) (store : t) : t :=
  fold_left
    (fun store sessionId =>
       if expired now sessionId then Dict.delete store sessionId else store)
    (Dict.keys store) store.

(** What [getStats] returns. *)
Record Stats := { sessions : nat; totalAssets : nat }.

(** [getStats()] *)
Definition getStats (store : t) : Stats :=
  {| sessions := length store;
     totalAssets :=
       fold_left (fun totalAssets sessionStore => totalAssets + length (snd sessionStore))
                 store 0 |}.

End Storage.

(** ** routes/replicate.js *)

Module Replicate.

Import Parser Fetcher.

(** The calls the handler makes on the storage module, in order. *)
Inductive Call :=
| StoreAsset (sessionId originalUrl dataUrl : string)
| GetAssetMap (sessionId : string)
| ClearSession (sessionId : string).

(** The store shared by all requests, and the calls made on it so far. *)
Record World := { store : Storage.t; calls : list Call }.

Definition storeAsset (w : World) (sessionId originalUrl dataUrl : string) : World :=
  {| store := Storage.storeAsset (store w) sessionId originalUrl dataUrl;
     calls := calls w ++ [StoreAsset sessionId originalUrl dataUrl] |}.

Definition getAssetMap (w : World) (sessionId : string) : Dict.t string * World :=
  (Storage.getAssetMap (store w) sessionId,
   {| store := store w; calls := calls w ++ [GetAssetMap sessionId] |}).

Definition clearSession (w : World) (sessionId : string) : World :=
  {| store := Storage.clearSession (store w) sessionId;
     calls := calls w ++ [ClearSession sessionId] |}.

(** What the handler sends. *)
Inductive Reply :=
| BadRequest (error : string)     (* status 400, [success: false] *)
| ServerError (error : string)    (* status 500, [success: false] *)
| Success (html : string) (images totalImages stylesheets : nat).

Definition CONCURRENCY : nat := 5.

(** [xs.slice(i, j)] for [i <= j]. *)
Definition slice {A} (xs : list A) (i j : nat) : list A :=
  firstn (j - i) (skipn i xs).

Section Handler.
Context `{UrlApi} `{Cheerio} `{Robots} `{Base64}.
Variable net : Network.
Variable sessionId : string.
Variable finalUrl : string.

(** STEP 3: what the callback does for the stylesheet at position [i]
    once its request has settled. *)
Definition stylesheet_settled (sheets : list Asset) (w : World) (i : nat) : World :=
  match nth_error sheets i with
  | Some sheet =>
      match fetchCSS net i (absolute sheet) finalUrl with
      | Some css =>
          if Js.truthy css then
            storeAsset (storeAsset w sessionId (original sheet) css)
                       sessionId (absolute sheet) css
          else w
      | None => w
      end
  | None => w
  end.

Definition fetch_stylesheets (sheets : list Asset) (w : World) : World :=
  fold_left (stylesheet_settled sheets)
            (completion net (seq 0 (length sheets))) w.

(** STEP 4: the same for the image at position [i]. *)
Definition image_settled (imgs : list Asset) (w : World) (i : nat) : World :=
  match nth_error imgs i with
  | Some img =>
      match fetchImage net i (absolute img) finalUrl with
      | Some dataUrl =>
          if Js.truthy dataUrl then
            storeAsset (storeAsset w sessionId (original img) dataUrl)
                       sessionId (absolute img) dataUrl
          else w
      | None => w
      end
  | None => w
  end.

(** The entry of [imageResults] for the image at position [i]. *)
Definition image_result (i : nat) (img : Asset) : string * bool :=
  (absolute img, Js.truthy_opt (fetchImage net i (absolute img) finalUrl)).

(** The loop over the batches, from position [i] on. *)
Equations? fetch_images (imgs : list Asset) (i : nat) (w : World)
    (imageResults : list (string * bool)) : World * list (string * bool)
    by wf (length imgs - i) lt :=
  fetch_images imgs i w imageResults with lt_dec i (length imgs) := {
    | left _ =>
        let batch := slice imgs i (i + CONCURRENCY) in
        let positions := seq i (length batch) in
        fetch_images imgs (i + CONCURRENCY)
          (fold_left (image_settled imgs) (completion net positions) w)
          (imageResults ++ map (fun p => image_result (fst p) (snd p))
                               (combine positions batch))%list;
    | right _ => (w, imageResults) }.
Proof. unfold CONCURRENCY. lia. Qed.

(** STEP 5: the asset map with the CSS of every stylesheet processed. *)
Definition processedAssetMap (assets : Assets) (assetMap : Dict.t string) : Dict.t string :=
  fold_left
    (fun processed sheet =>
       match Js.or_else (Dict.get assetMap (original sheet))
                        (Dict.get assetMap (absolute sheet)) with
       | Some css =>
           if Js.truthy css then
             let processedCSS :=
               if Js.includes css "url(" then processCSS css finalUrl assetMap
               else css in
             Dict.set (Dict.set processed (original sheet) processedCSS)
                      (absolute sheet) processedCSS
           else processed
       | None => processed
       end)
    (stylesheets assets) (spread assetMap).

(** STEP 6: the document that is serialised. *)
Definition rewriteHTML (doc : forest) (processed : Dict.t string) : forest :=
  addReplicaBanner (rewriteAssets (stripUnsafeContent doc) processed None).

(** The state of a job that got its page, before the reply is built. *)
Record Job := {
  assets : Assets;
  imageResults : list (string * bool);
  assetMap : Dict.t string;
  processed : Dict.t string;
  replica : forest;
  world : World
}.

(** STEPS 2 to 6 on the page fetched. *)
Definition run (html : string) (w : World) : Job :=
  let doc := load html in
  let assets := extractAssets doc finalUrl in
  let w := fetch_stylesheets (stylesheets assets) w in
  let '(w, imageResults) := fetch_images (images assets) 0 w [] in
  let '(assetMap, w) := getAssetMap w sessionId in
  let processed := processedAssetMap assets assetMap in
  {| assets := assets;
     imageResults := imageResults;
     assetMap := assetMap;
     processed := processed;
     replica := rewriteHTML doc processed;
     world := w |}.

End Handler.

Section Route.
Context `{UrlApi} `{Cheerio} `{Robots} `{Base64}.

(** [replicate(req, res)] for a request whose body has the given [url],
    with the session id that [generateSessionId] returns. *)
Definition replicate (net : Network) (sessionId : string) (url : option string)
    (w : World) : Reply * World :=
  match url with
  | None => (BadRequest "URL is required", w)
  | Some url =>
      if negb (Js.truthy url) then (BadRequest "URL is required", w)
      else
        match URL url None with
        | None => (BadRequest "Invalid URL format", w)
        | Some _ =>
            match fetchHTML net url with
            | inr page =>
                let job := run net sessionId (finalUrl page) (Fetcher.html page) w in
                let replicatedHTML := html_of (replica job) in
                let w := clearSession (world job) sessionId in
                (Success replicatedHTML
                   (length (filter snd (imageResults job)))
                   (length (images (assets job)))
                   (length (stylesheets (assets job))),
                 w)
            | inl error =>
                let w := clearSession w sessionId in
                (ServerError
                   (if Js.truthy (message error) then message error
                    else "Failed to replicate website"),
                 w)
            end
        end
  end.

End Route.

End Replicate.

(** ** Notions the statements below are written with *)

Module Doc.

(** The elements of a document that are neither selected by [sel] nor
    below a selected element, in document order. *)
Fixpoint outside_node (sel : selector) (n : node) : list (string * attrs) :=
  match n with
  | Elem t a cs =>
      if sel t a then [] else (t, a) :: flat_map (outside_node sel) cs
  | _ => []
  end.

Definition outside (sel : selector) (d : forest) : list (string * attrs) :=
  flat_map (outside_node sel) d.


(** The selector of the tags that [stripUnsafeContent] removes. *)
Definition stripped : selector :=
  fun t _ => existsb (String.eqb t) Parser.STRIP_TAGS.

(** The stylesheet links that [rewriteAssets] replaces. *)
Definition inlined `{UrlApi} (assetMap : Dict.t string) (baseUrl : option string)
  : selector :=
  fun t a =>
    tag_attr_is "link" "rel" "stylesheet" t a &&
    match Parser.stylesheet_for assetMap baseUrl a with
    | Some _ => true
    | None => false
    end.


(** What a callback run on the selected elements makes of the attributes
    of an element of tag [t]. *)
Definition on (sel : selector) (fn : attrs -> attrs) (t : string) (a : attrs) : attrs :=
  if sel t a then fn a else a.

Definition lift (x : string -> attrs -> attrs) (e : string * attrs) : string * attrs :=
  (fst e, x (fst e) (snd e)).

(** The attributes of an element of tag [t] after [stripUnsafeContent]. *)
Definition sanitize (t : string) (a : attrs) : attrs :=
  let a := on any (fun a => fold_left Dict.delete Parser.STRIP_ATTRIBUTES a) t a in
  let a := on (tag "form")
              (fun a => Dict.delete (Dict.set a "onsubmit" "return false;") "action")
              t a in
  on (either [tag "input"; tag "textarea"; tag "button"])
     (fun a => Dict.set a "disabled" "disabled") t a.

(** The attributes of an element after the first two loops of
    [rewriteAssets]. *)
Definition substitute (assetMap : Dict.t string) (t : string) (a : attrs) : attrs :=
  on (attr_contains "style" "background") (Parser.rewrite_style assetMap) t
     (on (tag_with "img" "src") (Parser.rewrite_src assetMap) t a).

(** The tags of the interactive controls. *)
Definition control (t : string) : bool :=
  String.eqb t "input" || String.eqb t "textarea" || String.eqb t "button".

End Doc.

Module Gate.

Section WithLibraries.
Context `{UrlApi} `{Robots}.
Variable net : Fetcher.Network.

(** The robots policy of the origin of [url] was retrieved with status
    200 and disallows [url] for the user agent of the tool. *)
Definition disallowed (url : string) : Prop :=
  exists urlObj response,
    URL url None = Some urlObj /\
    Fetcher.get_robots net
      (protocol urlObj ++ "//" ++ host urlObj ++ "/robots.txt") = inr response /\
    Fetcher.status response = 200 /\
    isAllowed (protocol urlObj ++ "//" ++ host urlObj ++ "/robots.txt")
              (Fetcher.data response) url Fetcher.USER_AGENT = false.

(** What [fetchHTML] makes of the request for the page alone. *)
Definition page_fetch (url : string) : Fetcher.Failure + Fetcher.Page :=
  match Fetcher.request_page net url with
  | inl error => inl (Fetcher.fetchHTML_catch error)
  | inr page => inr page
  end.

End WithLibraries.

End Gate.

Module Jobs.

Import Replicate.

(** A reference whose literal text is not in the data scheme. *)
Definition fetchable (r : Parser.Asset) : Prop :=
  Js.startsWith (Parser.original r) "data:" = false.

(** [w'] comes from [w] by calls other than [clearSession]. *)
Definition no_clear (w w' : World) : Prop :=
  exists l, calls w' = (calls w ++ l)%list /\ forall s, ~ In (ClearSession s) l.




(** The session that a call on the storage module names. *)
Definition session_of (c : Call) : string :=
  match c with
  | StoreAsset sessionId _ _ => sessionId
  | GetAssetMap sessionId => sessionId
  | ClearSession sessionId => sessionId
  end.


End Jobs.

Module Sessions.

(** A call that changes the store. *)
Inductive Op :=
| Put (sessionId originalUrl dataUrl : string)
| Clear (sessionId : string).

Definition apply (store : Storage.t) (o : Op) : Storage.t :=
  match o with
  | Put s k v => Storage.storeAsset store s k v
  | Clear s => Storage.clearSession store s
  end.



End Sessions.

(** ** Pages, networks and libraries to run the code on *)

Module Sample.

Import Fetcher Replicate.

(** The [URL] constructor on the URLs of the examples: an address of the
    origin [http://h], and a file name resolved against [http://h/]. *)
Definition url_api : UrlApi :=
  {| URL := fun url base =>
       match base with
       | None =>
           if Js.startsWith url "http://h/"
           then Some {| href := url; protocol := "http:"; host := "h" |}
           else None
       | Some b =>
           if String.eqb b "http://h/"
           then Some {| href := b ++ url; protocol := "http:"; host := "h" |}
           else None
       end |}.

(** A robots policy that disallows everything when it has the line
    [Disallow: /]. *)
Definition robots : Robots :=
  {| isAllowed := fun _ contents _ _ => negb (Js.includes contents "Disallow: /") |}.

(** The payloads of the examples are written in base64 already. *)
Definition buffer : Base64 := {| base64 := fun data => data |}.

(** A page that parses to [doc]; the serialisation is not looked at. *)
Definition cheerio (doc : forest) : Cheerio :=
  {| load := fun _ => doc; html_of := fun _ => "<html>...</html>" |}.

Definition ok (contentType data : string) : Outcome :=
  inr {| status := 200; content_type := Some contentType; data := data;
         responseUrl := None |}.

Definition timeout : Outcome :=
  inl {| code := Some "ECONNABORTED"; status_of := None;
         message := "timeout of 15000ms exceeded" |}.

Definition not_found : Outcome :=
  inl {| code := Some "ERR_BAD_REQUEST"; status_of := Some 404;
         message := "Request failed with status code 404" |}.

Definition png : string := "data:image/png;base64,iVBORw0KGgo=".

(** A network without robots policy on which every request succeeds, but
    for the images at the positions [lost]. *)
Definition network (lost : list nat) : Network :=
  {| get_robots := fun _ => not_found;
     get_page := fun _ => ok "text/html" "<html>";
     get_stylesheet := fun _ _ => ok "text/css" "body{color:red}";
     get_image := fun i _ =>
       if existsb (Nat.eqb i) lost then timeout else ok "image/png" "iVBORw0KGgo=";
     completion := fun positions => positions |}.

Definition empty : World := {| store := []; calls := [] |}.



(** A page that refers to one image by its relative and by its absolute
    address. *)
Definition mixed_page : forest :=
  [Elem "html" []
     [Elem "body" []
        [Elem "img" [("src", "a.png")] [];
         Elem "img" [("src", "http://h/a.png")] []]]].



(** A page with a stylesheet and an image. *)
Definition plain_page : forest :=
  [Elem "html" []
     [Elem "head" [] [Elem "link" [("rel", "stylesheet"); ("href", "b.css")] []];
      Elem "body" [] [Elem "img" [("src", "a.png")] []]]].


End Sample.

(** ** Documents as trees *)

Module Tree.

(** The document without the elements that [sel] selects, the attributes
    of every other element changed by [x] according to its tag. *)
Fixpoint prune_node (sel : selector) (x : string -> attrs -> attrs) (n : node)
  : list node :=
  match n with
  | Elem t a cs =>
      if sel t a then [] else [Elem t (x t a) (flat_map (prune_node sel x) cs)]
  | _ => [n]
  end.

Definition prune (sel : selector) (x : string -> attrs -> attrs) (d : forest) : forest :=
  flat_map (prune_node sel x) d.

(** The text nodes of a document, in order. *)
Fixpoint texts_node (n : node) : list string :=
  match n with
  | Elem _ _ cs => flat_map texts_node cs
  | Text s => [s]
  | Markup _ => []
  end.

Definition texts (d : forest) : list string := flat_map texts_node d.

End Tree.

(** * Properties *)

Import Doc Gate Jobs.

(** ** Association lists *)

Section DictFacts.
Context {V : Type}.
Implicit Types (m : Dict.t V) (k : string) (v : V).

Lemma get_set_same m k v : Dict.get (Dict.set m k v) k = Some v.
Proof.
  induction m as [|[k' v'] m IH]; simpl.
  - now rewrite String.eqb_refl.
  - destruct (String.eqb k' k) eqn:E; simpl; rewrite E; auto.
Qed.

Lemma get_set_other m k k' v :
  k <> k' -> Dict.get (Dict.set m k v) k' = Dict.get m k'.
Proof.
  intros Hk. induction m as [|[k0 v0] m IH]; simpl.
  - destruct (String.eqb k k') eqn:E; auto.
    apply String.eqb_eq in E. contradiction.
  - destruct (String.eqb k0 k) eqn:E; simpl.
    + apply String.eqb_eq in E. subst k0.
      destruct (String.eqb k k') eqn:E'; auto.
      apply String.eqb_eq in E'. contradiction.
    + destruct (String.eqb k0 k'); auto.
Qed.

Lemma get_delete_same m k : Dict.get (Dict.delete m k) k = None.
Proof.
  induction m as [|[k' v'] m IH]; simpl; auto.
  destruct (String.eqb k' k) eqn:E; simpl; auto. now rewrite E.
Qed.

Lemma get_delete_other m k k' :
  k <> k' -> Dict.get (Dict.delete m k) k' = Dict.get m k'.
Proof.
  intros Hk. induction m as [|[k0 v0] m IH]; simpl; auto.
  destruct (String.eqb k0 k) eqn:E; simpl.
  - apply String.eqb_eq in E. subst k0.
    destruct (String.eqb k k') eqn:E'; auto.
    apply String.eqb_eq in E'. contradiction.
  - destruct (String.eqb k0 k'); auto.
Qed.

Lemma get_set m k k' v :
  Dict.get (Dict.set m k v) k' = if String.eqb k k' then Some v else Dict.get m k'.
Proof.
  destruct (String.eqb k k') eqn:E.
  - apply String.eqb_eq in E. subst. apply get_set_same.
  - apply String.eqb_neq in E. now apply get_set_other.
Qed.

End DictFacts.

(** ** Regular expressions: every match has its group *)

Section Matches.
Import Regex Matching.

Lemma append_nil_r s : s ++ "" = s.
Proof. induction s; simpl; congruence. Qed.

Lemma append_assoc (s1 s2 s3 : string) : (s1 ++ s2) ++ s3 = s1 ++ (s2 ++ s3).
Proof. induction s1; simpl; congruence. Qed.

Lemma length_append (s1 s2 : string) :
  String.length (s1 ++ s2) = String.length s1 + String.length s2.
Proof. induction s1; simpl; congruence. Qed.

Lemma substring_prefix s1 s2 : String.substring 0 (String.length s1) (s1 ++ s2) = s1.
Proof.
  induction s1 as [|c s1 IH]; simpl.
  - now destruct s2.
  - now rewrite IH.
Qed.

Lemma consumed_append s1 s2 : Js.consumed (s1 ++ s2) s2 = s1.
Proof.
  unfold Js.consumed. rewrite length_append.
  replace (String.length s1 + String.length s2 - String.length s2)
    with (String.length s1) by lia.
  apply substring_prefix.
Qed.

Lemma strip_prefix_some l s s' : Js.strip_prefix l s = Some s' -> s = l ++ s'.
Proof.
  revert s. induction l as [|a l IH]; intros s; simpl.
  - now intros [= ->].
  - destruct s as [|b s]; [discriminate|].
    destruct (Ascii.eqb a b) eqn:E; [|discriminate].
    apply Ascii.eqb_eq in E. subst b. intros Hs. f_equal. now apply IH.
Qed.

Lemma strip_prefix_append l s : Js.strip_prefix l (l ++ s) = Some s.
Proof.
  induction l as [|a l IH]; simpl; [reflexivity|].
  now rewrite Ascii.eqb_refl.
Qed.

Lemma plus_sound p s k x :
  plus p s k = Some x ->
  exists c s1 s2,
    s = String c s1 ++ s2 /\ p c = true /\ all p s1 = true /\ k s2 = Some x.
Proof.
  revert x. induction s as [|c s IH]; intros x; simpl; [discriminate|].
  destruct (p c) eqn:Hc; [|discriminate].
  destruct (plus p s k) as [y|] eqn:Hrec.
  - intros [= ->]. destruct (IH x eq_refl) as (c' & s1 & s2 & -> & Hc' & Hall & Hk).
    exists c, (String c' s1), s2. simpl. rewrite Hc', Hall. auto.
  - intros Hk. exists c, EmptyString, s. auto.
Qed.

Lemma plus_cons p c s k :
  plus p (String c s) k =
  if p c then match plus p s k with Some x => Some x | None => k s end else None.
Proof. reflexivity. Qed.

Lemma plus_complete p c s1 s2 k :
  p c = true -> all p s1 = true -> k s2 <> None ->
  plus p (String c s1 ++ s2) k <> None.
Proof.
  revert c. induction s1 as [|c' s1 IH]; intros c Hc Hall Hk;
    cbn [append]; rewrite plus_cons, Hc.
  - destruct (plus p s2 k); [discriminate | exact Hk].
  - cbn [all] in Hall. apply andb_prop in Hall. destruct Hall as [Hc' Hall].
    specialize (IH c' Hc' Hall Hk). cbn [append] in IH.
    destruct (plus p (String c' (s1 ++ s2)) k); [discriminate | contradiction].
Qed.

(** A run that succeeds has matched a prefix of its input. *)
Lemma run_sound r s cap k x :
  run r s cap k = Some x ->
  exists s1 s2 cap',
    s = s1 ++ s2 /\ matches r s1 cap cap' /\ k s2 cap' = Some x.
Proof.
  revert s cap k x.
  induction r as [l|p|r IH|p|r1 IH1 r2 IH2|r IH]; intros s cap k x; simpl.
  - destruct (Js.strip_prefix l s) as [s'|] eqn:Hl; [|discriminate].
    intros Hk. exists l, s', cap. apply strip_prefix_some in Hl.
    repeat split; auto. constructor.
  - destruct s as [|c s]; [discriminate|].
    destruct (p c) eqn:Hc; [|discriminate].
    intros Hk. exists (String c EmptyString), s, cap.
    repeat split; auto. now constructor.
  - destruct (run r s cap k) as [y|] eqn:Hr.
    + intros [= ->]. destruct (IH _ _ _ _ Hr) as (s1 & s2 & cap' & -> & Hm & Hk).
      exists s1, s2, cap'. repeat split; auto. now constructor.
    + intros Hk. exists EmptyString, s, cap. repeat split; auto. apply m_skip.
  - intros Hp. apply plus_sound in Hp.
    destruct Hp as (c & s1 & s2 & -> & Hc & Hall & Hk).
    exists (String c s1), s2, cap. repeat split; auto. now constructor.
  - intros Hr. apply IH1 in Hr.
    destruct Hr as (s1 & s' & cap1 & -> & Hm1 & Hr).
    apply IH2 in Hr. destruct Hr as (s2 & s3 & cap2 & -> & Hm2 & Hk).
    exists (s1 ++ s2), s3, cap2. rewrite append_assoc.
    repeat split; auto. econstructor; eauto.
  - intros Hr. apply IH in Hr.
    destruct Hr as (s1 & s2 & cap' & -> & Hm & Hk).
    rewrite consumed_append in Hk.
    exists s1, s2, (Some s1). repeat split; auto. econstructor; eauto.
Qed.

(** Where the expression matches a prefix, after which the continuation
    succeeds, the run succeeds. *)
Lemma run_complete r s1 cap cap' :
  matches r s1 cap cap' ->
  forall s2 k, k s2 cap' <> None -> run r (s1 ++ s2) cap k <> None.
Proof.
  induction 1 as [l cap|p c cap Hc|r s cap cap' Hm IH|r cap|p c s cap Hc Hall
                 |r1 r2 s1 s2 cap cap' cap'' Hm1 IH1 Hm2 IH2|r s cap cap' Hm IH];
    intros s3 k Hk; simpl.
  - now rewrite strip_prefix_append.
  - now rewrite Hc.
  - specialize (IH s3 k Hk). destruct (run r (s ++ s3) cap k); [discriminate | contradiction].
  - destruct (run r s3 cap k); [discriminate | exact Hk].
  - apply (plus_complete p c s s3 (fun s' => k s' cap)); assumption.
  - rewrite append_assoc. apply IH1. now apply IH2.
  - apply IH. now rewrite consumed_append.
Qed.

Lemma matches_keeps r s cap cap' :
  matches r s cap cap' -> cap <> None -> cap' <> None.
Proof. induction 1; auto; discriminate. Qed.

Lemma matches_captures r s cap cap' :
  matches r s cap cap' -> captures r = true -> cap' <> None.
Proof.
  induction 1; simpl; try discriminate.
  intros Hc. apply orb_prop in Hc. destruct Hc as [Hc|Hc]; [|auto].
  eapply matches_keeps; eauto.
Qed.

Lemma at_start_sound r s rest cap :
  at_start r s = Some (rest, cap) ->
  exists s1, s = s1 ++ rest /\ matches r s1 None cap.
Proof.
  unfold at_start. intros Hr. apply run_sound in Hr.
  destruct Hr as (s1 & s2 & cap' & -> & Hm & [= <- <-]). now exists s1.
Qed.

(** The text of a match and of its group, where the expression matches a
    prefix of the text searched. *)
Lemma group1_of_prefix r s1 s2 cap :
  matches r s1 None cap -> captures r = true -> group1 r (s1 ++ s2) <> None.
Proof.
  intros Hm Hc. unfold group1.
  assert (Hrun : at_start r (s1 ++ s2) <> None)
    by (apply (run_complete _ _ _ _ Hm); discriminate).
  destruct (s1 ++ s2) as [|c s] eqn:Hs; simpl;
    destruct (at_start r _) as [[rest cap']|] eqn:Hat; try contradiction;
    apply at_start_sound in Hat; destruct Hat as (s1' & _ & Hm');
    eapply matches_captures; eauto.
Qed.

(** The matches that a search with the [g] flag lists are matches. *)
Lemma scan_matches r skip s m :
  In m (scan r skip s) -> exists cap, matches r m None cap.
Proof.
  revert skip. induction s as [|c s IH]; intros skip; simpl.
  - destruct skip; [|contradiction].
    destruct (at_start r "") as [[rest cap]|] eqn:Hat; [|contradiction].
    intros [<-|[]]. apply at_start_sound in Hat.
    destruct Hat as (s1 & Hs & Hm). exists cap.
    destruct s1; [exact Hm | discriminate].
  - destruct skip as [|skip]; [|apply IH].
    destruct (at_start r (String c s)) as [[rest cap]|] eqn:Hat; [|apply IH].
    intros [<-|Hin]; [|eapply IH; eauto].
    apply at_start_sound in Hat. destruct Hat as (s1 & Hs & Hm).
    rewrite Hs, consumed_append. now exists cap.
Qed.

(** [match.match(r)[1]] is defined on every match of [r] itself: no
    match of [url(...)] is passed over by [extractAssets] and
    [processCSS]. *)
Lemma captured_css_url s :
  Forall (fun m => group1 css_url m <> None) (match_all css_url s).
Proof.
  apply Forall_forall. intros m Hm. apply scan_matches in Hm.
  destruct Hm as (cap & Hm). rewrite <- (append_nil_r m).
  eapply group1_of_prefix; eauto.
Qed.

(** Every match of [@import] has a first word, which is [@import]. *)
Lemma captured_css_import s :
  Forall (fun m => group1 quoted_word m <> None) (match_all css_import s).
Proof.
  apply Forall_forall. intros m Hm. apply scan_matches in Hm.
  destruct Hm as (cap & Hm). unfold css_import in Hm.
  inversion Hm as [| | | | |r1 r2 s1 s2 c c' c'' Hm1 Hm2| ]; subst.
  inversion Hm1; subst.
  apply (group1_of_prefix quoted_word "@import" s2 (Some "@import"));
    [|reflexivity].
  unfold quoted_word.
  change "@import" with ("" ++ ("@import" ++ "")).
  econstructor; [apply m_skip|].
  econstructor; [|apply m_skip].
  econstructor. now apply m_plus.
Qed.

End Matches.

(** ** storage.js: sessions *)

Lemma storeAsset_get store a k v b :
  Dict.get (Storage.storeAsset store a k v) b =
  if String.eqb a b
  then Some (Dict.set (match Dict.get store a with Some s => s | None => [] end) k v)
  else Dict.get store b.
Proof.
  unfold Storage.storeAsset, Dict.has.
  destruct (Dict.get store a) as [s|] eqn:Ha.
  - rewrite Ha. apply get_set.
  - rewrite get_set_same. rewrite !get_set.
    destruct (String.eqb a b); reflexivity.
Qed.

Lemma clearSession_get store a b :
  Dict.get (Storage.clearSession store a) b =
  if String.eqb a b then None else Dict.get store b.
Proof.
  unfold Storage.clearSession, Dict.has.
  destruct (String.eqb a b) eqn:E.
  - apply String.eqb_eq in E. subst b.
    destruct (Dict.get store a) eqn:Ha; auto. apply get_delete_same.
  - apply String.eqb_neq in E.
    destruct (Dict.get store a); auto. now apply get_delete_other.
Qed.











(** ** parser.js: resolveUrl *)

Section Resolve.
Context {url_api : UrlApi}.

Lemma startsWith_first u a p :
  Js.startsWith u (String a p) = true -> exists u', u = String a u'.
Proof.
  unfold Js.startsWith. destruct u as [|c u]; cbn [Js.strip_prefix].
  - discriminate.
  - destruct (Ascii.eqb a c) eqn:E; [|discriminate].
    apply Ascii.eqb_eq in E. subst c. intros _. now exists u.
Qed.

Lemma startsWith_other u a b p :
  Ascii.eqb b a = false -> Js.startsWith (String a u) (String b p) = false.
Proof.
  intros E. unfold Js.startsWith. cbn [Js.strip_prefix]. now rewrite E.
Qed.

Lemma http_not_protocol_relative u :
  Js.startsWith u "http://" = true \/ Js.startsWith u "https://" = true ->
  Js.startsWith u "//" = false.
Proof.
  intros [E|E]; apply startsWith_first in E; destruct E as [u' ->];
    now apply startsWith_other.
Qed.

Lemma data_not_protocol_relative u :
  Js.startsWith u "data:" = true -> Js.startsWith u "//" = false.
Proof.
  intros E. apply startsWith_first in E. destruct E as [u' ->].
  now apply startsWith_other.
Qed.

Lemma data_not_http u :
  Js.startsWith u "data:" = true ->
  Js.startsWith u "http://" || Js.startsWith u "https://" = false.
Proof.
  intros E. apply startsWith_first in E. destruct E as [u' ->].
  rewrite !startsWith_other; reflexivity.
Qed.

Lemma resolveUrl_http u b :
  Js.startsWith u "http://" = true \/ Js.startsWith u "https://" = true ->
  Parser.resolveUrl u b = u.
Proof.
  intros Hu. unfold Parser.resolveUrl.
  rewrite (http_not_protocol_relative _ Hu).
  destruct Hu as [-> | ->]; [reflexivity|].
  now rewrite orb_true_r.
Qed.

Lemma resolveUrl_data u b :
  Js.startsWith u "data:" = true -> Parser.resolveUrl u b = u.
Proof.
  intros Hu. unfold Parser.resolveUrl.
  now rewrite (data_not_protocol_relative _ Hu), (data_not_http _ Hu), Hu.
Qed.

(** C10. Resolution is idempotent on a reference that is already
    absolute, that is, one with the scheme http or https. *)
Theorem resolve_idempotent (u b : string) :
  Js.startsWith u "http://" = true \/ Js.startsWith u "https://" = true ->
  Parser.resolveUrl (Parser.resolveUrl u b) b = Parser.resolveUrl u b.
Proof.
  intros Hu. now rewrite !(resolveUrl_http u b Hu).
Qed.

End Resolve.

(** ** parser.js: extractAssets *)

Section Extract.
Context {url_api : UrlApi}.

Lemma guarded_urls_fetchable inline import b urls r :
  In r (flat_map
          (fun url =>
             if negb (Js.startsWith url "data:")
             then [Parser.asset inline import url b] else [])
          urls) ->
  fetchable r.
Proof.
  rewrite in_flat_map. intros (url & _ & Hr).
  destruct (Js.startsWith url "data:") eqn:E; simpl in Hr; [contradiction|].
  destruct Hr as [<-|[]]. exact E.
Qed.

Lemma image_sources_fetchable b e r :
  In r (Parser.image_sources b e) -> fetchable r.
Proof.
  destruct e as [t a cs|s|m]; simpl; try contradiction.
  destruct (Dict.get a "src") as [src|]; [|contradiction].
  destruct (Js.truthy src); simpl; [|contradiction].
  destruct (Js.startsWith src "data:") eqn:E; simpl; [contradiction|].
  intros [<-|[]]. exact E.
Qed.

Lemma background_images_fetchable b e r :
  In r (Parser.background_images b e) -> fetchable r.
Proof.
  destruct e as [t a cs|s|m]; simpl; try contradiction.
  destruct (Dict.get a "style") as [style|]; [|contradiction].
  apply guarded_urls_fetchable.
Qed.

Lemma linked_stylesheets_fetchable b e r :
  In r (Parser.linked_stylesheets b e) -> fetchable r.
Proof.
  destruct e as [t a cs|s|m]; simpl; try contradiction.
  destruct (Dict.get a "href") as [h|]; [|contradiction].
  destruct (Js.truthy h); simpl; [|contradiction].
  destruct (Js.startsWith h "data:") eqn:E; simpl; [contradiction|].
  intros [<-|[]]. exact E.
Qed.

Lemma imported_stylesheets_fetchable b e r :
  In r (Parser.imported_stylesheets b e) -> fetchable r.
Proof.
  destruct e as [t a cs|s|m]; simpl; try contradiction.
  apply guarded_urls_fetchable.
Qed.

Lemma extractAssets_fetchable doc b r :
  In r (Parser.images (Parser.extractAssets doc b)) \/
  In r (Parser.stylesheets (Parser.extractAssets doc b)) ->
  fetchable r.
Proof.
  unfold Parser.extractAssets; simpl.
  rewrite !in_app_iff, !in_flat_map.
  intros [[(e & _ & Hr)|(e & _ & Hr)]|[(e & _ & Hr)|(e & _ & Hr)]].
  - eapply image_sources_fetchable; eauto.
  - eapply background_images_fetchable; eauto.
  - eapply linked_stylesheets_fetchable; eauto.
  - eapply imported_stylesheets_fetchable; eauto.
Qed.


End Extract.

(** ** fetcher.js: the policy gate *)

Section Gate.
Context {url_api : UrlApi} {robots : Robots}.
Variable net : Fetcher.Network.

Lemma checkRobots_false url :
  Fetcher.checkRobots net url = false <-> disallowed net url.
Proof.
  unfold Fetcher.checkRobots, disallowed. split.
  - destruct (URL url None) as [urlObj|]; [|discriminate].
    destruct (Fetcher.get_robots net _) as [e|response] eqn:Hr; [discriminate|].
    destruct (Nat.eqb (Fetcher.status response) 200) eqn:Hs; [|discriminate].
    intros Ha. exists urlObj, response. apply Nat.eqb_eq in Hs. auto.
  - intros (urlObj & response & -> & -> & Hs & Ha).
    now rewrite Hs, Ha.
Qed.

(** C6. The policy gate: the page fetch fails with the robots error,
    without a request for the page, exactly when the robots policy was
    retrieved with status 200 and disallows the URL; in every other case
    (no policy, another status, a failed request) the page is fetched. *)
Theorem robots_gate (url : string) :
  (Fetcher.checkRobots net url = false <-> disallowed net url) /\
  (disallowed net url ->
   Fetcher.fetchHTML net url =
   inl (Fetcher.Error "Failed to fetch HTML: Blocked by robots.txt")) /\
  (~ disallowed net url -> Fetcher.fetchHTML net url = page_fetch net url).
Proof.
  split; [apply checkRobots_false|]. split.
  - intros Hd. apply checkRobots_false in Hd.
    unfold Fetcher.fetchHTML, Fetcher.fetchHTML_try. now rewrite Hd.
  - intros Hd. rewrite <- checkRobots_false in Hd.
    apply not_false_is_true in Hd.
    unfold Fetcher.fetchHTML, Fetcher.fetchHTML_try, page_fetch. rewrite Hd.
    reflexivity.
Qed.

End Gate.

(** ** replicate.js: the storage calls of a job *)

Section Calls.
Import Replicate.
Context {url_api : UrlApi} {cheerio : Cheerio} {robots : Robots} {buffer : Base64}.
Variable net : Fetcher.Network.
Variable sessionId : string.

Lemma no_clear_refl w : no_clear w w.
Proof. exists []. rewrite app_nil_r. split; auto. Qed.

Lemma no_clear_trans w1 w2 w3 :
  no_clear w1 w2 -> no_clear w2 w3 -> no_clear w1 w3.
Proof.
  intros (l1 & E1 & Hl1) (l2 & E2 & Hl2). exists (l1 ++ l2)%list. split.
  - now rewrite E2, E1, app_assoc.
  - intros s Hin. apply in_app_or in Hin. destruct Hin; [eapply Hl1|eapply Hl2]; eauto.
Qed.

Lemma no_clear_storeAsset w s k v : no_clear w (storeAsset w s k v).
Proof.
  exists [StoreAsset s k v]. split; [reflexivity|].
  intros s' [E|[]]. discriminate E.
Qed.

Lemma no_clear_fold {A} (f : World -> A -> World) (l : list A) w :
  (forall w x, no_clear w (f w x)) -> no_clear w (fold_left f l w).
Proof.
  intros Hf. revert w. induction l as [|x l IH]; intros w; simpl.
  - apply no_clear_refl.
  - eapply no_clear_trans; [apply Hf | apply IH].
Qed.

Lemma no_clear_stylesheet_settled finalUrl sheets w i :
  no_clear w (stylesheet_settled net sessionId finalUrl sheets w i).
Proof.
  unfold stylesheet_settled.
  destruct (nth_error sheets i); [|apply no_clear_refl].
  destruct (Fetcher.fetchCSS _ _ _ _) as [css|]; [|apply no_clear_refl].
  destruct (Js.truthy css); [|apply no_clear_refl].
  eapply no_clear_trans; apply no_clear_storeAsset.
Qed.

Lemma no_clear_image_settled finalUrl imgs w i :
  no_clear w (image_settled net sessionId finalUrl imgs w i).
Proof.
  unfold image_settled.
  destruct (nth_error imgs i); [|apply no_clear_refl].
  destruct (Fetcher.fetchImage _ _ _ _) as [d|]; [|apply no_clear_refl].
  destruct (Js.truthy d); [|apply no_clear_refl].
  eapply no_clear_trans; apply no_clear_storeAsset.
Qed.

Lemma no_clear_fetch_images finalUrl imgs i w rs :
  no_clear w (fst (fetch_images net sessionId finalUrl imgs i w rs)).
Proof.
  funelim (fetch_images net sessionId finalUrl imgs i w rs).
  - eapply no_clear_trans; [|eassumption].
    apply no_clear_fold. intros. apply no_clear_image_settled.
  - apply no_clear_refl.
Qed.

Lemma no_clear_run finalUrl html w :
  no_clear w (world (run net sessionId finalUrl html w)).
Proof.
  unfold run.
  set (assets := Parser.extractAssets (load html) finalUrl).
  set (w1 := fetch_stylesheets net sessionId finalUrl (Parser.stylesheets assets) w).
  pose proof (no_clear_fetch_images finalUrl (Parser.images assets) 0 w1 []) as Himg.
  destruct (fetch_images net sessionId finalUrl (Parser.images assets) 0 w1 [])
    as [w2 results].
  simpl in *.
  eapply no_clear_trans; [|eapply no_clear_trans; [exact Himg|]].
  - apply no_clear_fold. intros. apply no_clear_stylesheet_settled.
  - exists [GetAssetMap sessionId]. split; [reflexivity|].
    intros s [E|[]]. discriminate E.
Qed.

(** C7. Every job that gets past the validation of its input, whether it
    succeeds or fails, clears its session exactly once, as its last call
    on the store before it replies: when the handler returns the store
    has no entry for the session. *)
Theorem session_cleared_once (url : option string) (w w' : World) (reply : Reply) :
  replicate net sessionId url w = (reply, w') ->
  (forall error, reply <> BadRequest error) ->
  (exists l,
      calls w' = (calls w ++ l ++ [ClearSession sessionId])%list /\
      forall s, ~ In (ClearSession s) l) /\
  Dict.get (store w') sessionId = None.
Proof.
  unfold replicate. intros Hrun Hvalid.
  destruct url as [u|]; [|inversion Hrun; subst; now destruct (Hvalid _ eq_refl)].
  destruct (Js.truthy u); simpl in Hrun;
    [|inversion Hrun; subst; now destruct (Hvalid _ eq_refl)].
  destruct (URL u None); [|inversion Hrun; subst; now destruct (Hvalid _ eq_refl)].
  destruct (Fetcher.fetchHTML net u) as [error|page].
  - inversion Hrun; subst; clear Hrun. simpl. split.
    + exists []. split; [reflexivity | intros s []].
    + rewrite clearSession_get. now rewrite String.eqb_refl.
  - inversion Hrun; subst; clear Hrun. simpl. split.
    + destruct (no_clear_run (Fetcher.finalUrl page) (Fetcher.html page) w)
        as (l & -> & Hl).
      exists l. split; [now rewrite app_assoc | exact Hl].
    + rewrite clearSession_get. now rewrite String.eqb_refl.
Qed.


End Calls.

(** ** The document tree *)

Lemma node_ind' (P : node -> Prop) :
  (forall t a cs, Forall P cs -> P (Elem t a cs)) ->
  (forall s, P (Text s)) ->
  (forall m, P (Markup m)) ->
  forall n, P n.
Proof.
  intros HE HT HM.
  exact (fix go (n : node) : P n :=
           match n with
           | Elem t a cs =>
               HE t a cs
                  ((fix all (l : list node) : Forall P l :=
                      match l with
                      | [] => Forall_nil P
                      | c :: l' => Forall_cons c (go c) (all l')
                      end) cs)
           | Text s => HT s
           | Markup m => HM m
           end).
Qed.

Lemma flat_map_ext_Forall {A B} (f g : A -> list B) l :
  Forall (fun x => f x = g x) l -> flat_map f l = flat_map g l.
Proof. induction 1; simpl; congruence. Qed.

Lemma flat_map_map {A B C} (f : B -> list C) (g : A -> B) l :
  flat_map f (map g l) = flat_map (fun x => f (g x)) l.
Proof. induction l; simpl; congruence. Qed.

Lemma flat_map_flat_map {A B C} (f : B -> list C) (g : A -> list B) l :
  flat_map f (flat_map g l) = flat_map (fun x => flat_map f (g x)) l.
Proof. induction l; simpl; [reflexivity|]. now rewrite flat_map_app, IHl. Qed.

Lemma map_flat_map {A B C} (f : B -> C) (g : A -> list B) l :
  map f (flat_map g l) = flat_map (fun x => map f (g x)) l.
Proof. induction l; simpl; [reflexivity|]. now rewrite map_app, IHl. Qed.

Lemma outside_ext sel sel' d :
  (forall t a, sel t a = sel' t a) -> Doc.outside sel d = Doc.outside sel' d.
Proof.
  intros Hs. unfold Doc.outside. apply flat_map_ext_Forall.
  apply Forall_forall. intros n _. induction n using node_ind'; simpl; auto.
  rewrite Hs. destruct (sel' t a); auto. f_equal.
  now apply flat_map_ext_Forall.
Qed.

Lemma elems_outside d : elems d = Doc.outside (fun _ _ => false) d.
Proof.
  unfold elems, Doc.outside. apply flat_map_ext_Forall.
  apply Forall_forall. intros n _. induction n using node_ind'; simpl; auto.
  f_equal. now apply flat_map_ext_Forall.
Qed.

Lemma outside_each sel sel' fn d :
  Doc.outside sel (each sel' fn d) =
  map (lift (on sel' fn)) (Doc.outside (fun t a => sel t (on sel' fn t a)) d).
Proof.
  unfold Doc.outside, each. rewrite flat_map_map, map_flat_map.
  apply flat_map_ext_Forall. apply Forall_forall. intros n _.
  induction n using node_ind'; simpl; auto.
  fold (on sel' fn t a). destruct (sel t (on sel' fn t a)); simpl; auto.
  unfold lift at 1; simpl. f_equal.
  rewrite flat_map_map, map_flat_map. now apply flat_map_ext_Forall.
Qed.

Lemma outside_remove sel sel' d :
  Doc.outside sel (remove sel' d) =
  Doc.outside (fun t a => sel' t a || sel t a) d.
Proof.
  unfold Doc.outside, remove. rewrite flat_map_flat_map.
  apply flat_map_ext_Forall. apply Forall_forall. intros n _.
  induction n using node_ind'; simpl; auto.
  destruct (sel' t a); simpl; auto.
  destruct (sel t a); simpl; auto.
  rewrite app_nil_r. f_equal.
  rewrite flat_map_flat_map. now apply flat_map_ext_Forall.
Qed.

Lemma outside_replace_each sel sel' fn d :
  Doc.outside sel (replace_each sel' fn d) =
  Doc.outside
    (fun t a => (sel' t a && match fn a with Some _ => true | None => false end)
                || sel t a) d.
Proof.
  unfold Doc.outside, replace_each. rewrite flat_map_map.
  apply flat_map_ext_Forall. apply Forall_forall. intros n _.
  induction n using node_ind'; simpl; auto.
  destruct (sel' t a); simpl.
  - destruct (fn a); simpl; auto.
    destruct (sel t a); auto. f_equal.
    rewrite flat_map_map. now apply flat_map_ext_Forall.
  - destruct (sel t a); auto. f_equal.
    rewrite flat_map_map. now apply flat_map_ext_Forall.
Qed.

Lemma outside_prepend sel sel' m d :
  Doc.outside sel (prepend sel' m d) = Doc.outside sel d.
Proof.
  unfold Doc.outside, prepend. rewrite flat_map_map.
  apply flat_map_ext_Forall. apply Forall_forall. intros n _.
  induction n using node_ind'; simpl; auto.
  destruct (sel t a); auto. f_equal.
  rewrite flat_map_app.
  replace (flat_map (Doc.outside_node sel) (if sel' t a then [Markup m] else []))
    with (@nil (string * attrs)) by (destruct (sel' t a); reflexivity).
  simpl. rewrite flat_map_map. now apply flat_map_ext_Forall.
Qed.

(** ** parser.js: what the passes make of each element *)

Lemma outside_strip sel doc :
  Doc.outside sel (Parser.stripUnsafeContent doc) =
  map (lift sanitize)
      (Doc.outside (fun t a => Doc.stripped t a || sel t (sanitize t a)) doc).
Proof.
  unfold Parser.stripUnsafeContent. rewrite !outside_each, !map_map.
  cbn [fold_left Parser.STRIP_TAGS]. rewrite !outside_remove.
  erewrite outside_ext; [reflexivity|].
  intros t a. unfold Doc.stripped, tag. cbn [existsb Parser.STRIP_TAGS].
  rewrite !orb_assoc, orb_false_r. reflexivity.
Qed.

Section Rewrite.
Context {url_api : UrlApi}.

Lemma outside_rewriteAssets sel doc m b :
  Doc.outside sel (Parser.rewriteAssets doc m b) =
  map (lift (substitute m))
      (Doc.outside
         (fun t a => Doc.inlined m b t (substitute m t a) || sel t (substitute m t a))
         doc).
Proof.
  unfold Parser.rewriteAssets. rewrite outside_replace_each, !outside_each, !map_map.
  erewrite outside_ext; [reflexivity|].
  intros t a. unfold Doc.inlined. fold (substitute m t a).
  destruct (Parser.stylesheet_for m b (substitute m t a)); reflexivity.
Qed.


End Rewrite.

Lemma get_delete {V} (m : Dict.t V) k k' :
  Dict.get (Dict.delete m k) k' = if String.eqb k k' then None else Dict.get m k'.
Proof.
  destruct (String.eqb k k') eqn:E.
  - apply String.eqb_eq in E. subst. apply get_delete_same.
  - apply String.eqb_neq in E. now apply get_delete_other.
Qed.

Lemma get_fold_delete {V} ks (m : Dict.t V) k :
  Dict.get (fold_left Dict.delete ks m) k =
  if existsb (String.eqb k) ks then None else Dict.get m k.
Proof.
  revert m. induction ks as [|k0 ks IH]; intros m; simpl; auto.
  rewrite IH, get_delete, (String.eqb_sym k k0).
  destruct (existsb (String.eqb k) ks), (String.eqb k0 k); reflexivity.
Qed.

Lemma get_sanitize t a k :
  Dict.get (sanitize t a) k =
  if control t && String.eqb "disabled" k then Some "disabled"
  else if String.eqb t "form" && String.eqb "action" k then None
  else if String.eqb t "form" && String.eqb "onsubmit" k then Some "return false;"
  else if existsb (String.eqb k) Parser.STRIP_ATTRIBUTES then None
  else Dict.get a k.
Proof.
  unfold sanitize, on, any, either, tag, control. cbn [existsb].
  rewrite orb_false_r, orb_assoc.
  destruct (String.eqb t "input" || String.eqb t "textarea" || String.eqb t "button");
    cbn [andb]; [rewrite get_set; destruct (String.eqb "disabled" k); [reflexivity|]|];
    (destruct (String.eqb t "form"); cbn [andb];
     [rewrite get_delete, get_set;
      destruct (String.eqb "action" k), (String.eqb "onsubmit" k); try reflexivity|];
     apply get_fold_delete).
Qed.

Lemma get_rewrite_src m a k :
  k <> "src" -> Dict.get (Parser.rewrite_src m a) k = Dict.get a k.
Proof.
  intros Hk. unfold Parser.rewrite_src.
  destruct (Parser.lookup m (Dict.get a "src")); [|reflexivity].
  apply get_set_other. congruence.
Qed.

Lemma get_rewrite_style m a k :
  k <> "style" -> Dict.get (Parser.rewrite_style m a) k = Dict.get a k.
Proof.
  intros Hk. unfold Parser.rewrite_style.
  destruct (Dict.get a "style"); [|reflexivity].
  apply get_set_other. congruence.
Qed.

Lemma get_substitute m t a k :
  k <> "src" -> k <> "style" -> Dict.get (substitute m t a) k = Dict.get a k.
Proof.
  intros Hsrc Hstyle. unfold substitute, on.
  destruct (attr_contains _ _ _ _); [rewrite get_rewrite_style by assumption|];
    (destruct (tag_with _ _ _ _); [now apply get_rewrite_src | reflexivity]).
Qed.


(** ** parser.js: stripUnsafeContent *)




Section Sanitization.
Context {url_api : UrlApi}.


End Sanitization.

(** ** replicate.js: the image batches *)

Section Images.
Import Replicate.
Context {url_api : UrlApi} {cheerio : Cheerio} {robots : Robots} {buffer : Base64}.
Variable net : Fetcher.Network.
Variable sessionId : string.
Variable finalUrl : string.








End Images.

(** ** The replica, element by element *)

Section Replica.
Import Replicate.
Context {url_api : UrlApi} {cheerio : Cheerio} {robots : Robots} {buffer : Base64}.

Lemma Forall2_map_r {A B} (R : A -> B -> Prop) (f : A -> B) l :
  (forall x, In x l -> R x (f x)) -> Forall2 R l (map f l).
Proof.
  induction l as [|x l IH]; intros HR; simpl; constructor.
  - apply HR. now left.
  - apply IH. intros y Hy. apply HR. now right.
Qed.


(** Whether a link is inlined depends on its [rel] and [href] alone. *)
Lemma inlined_ext m b t a a' :
  Dict.get a' "rel" = Dict.get a "rel" ->
  Dict.get a' "href" = Dict.get a "href" ->
  Doc.inlined m b t a' = Doc.inlined m b t a.
Proof.
  intros Hrel Hhref.
  unfold Doc.inlined, tag_attr_is, Parser.stylesheet_for.
  now rewrite Hrel, Hhref.
Qed.

Lemma inlined_substitute m m' b t a :
  Doc.inlined m b t (substitute m' t a) = Doc.inlined m b t a.
Proof. apply inlined_ext; apply get_substitute; discriminate. Qed.





End Replica.

(** ** parser.js: stylesheet links *)



(** ** processCSS keeps the text of a stylesheet non-empty *)

Section ProcessCSS.
Import Regex Matching.
Context {url_api : UrlApi}.

Lemma some_append p s1 s2 : some p (s1 ++ s2) = some p s1 || some p s2.
Proof. induction s1; simpl; [reflexivity|]. now rewrite IHs1, orb_assoc. Qed.


Lemma all_not_some p q s :
  (forall c, p c = true -> q c = false) -> all p s = true -> some q s = false.
Proof.
  intros Hpq. induction s as [|c s IH]; simpl; [reflexivity|].
  intros Hall. apply andb_prop in Hall. destruct Hall as [Hc Hall].
  now rewrite (Hpq c Hc), IH.
Qed.



Lemma matches_seq_inv r1 r2 s cap cap'' :
  matches (Seq r1 r2) s cap cap'' ->
  exists s1 s2 cap',
    s = s1 ++ s2 /\ matches r1 s1 cap cap' /\ matches r2 s2 cap' cap''.
Proof. inversion 1; subst. eauto 6. Qed.

Lemma matches_lit_inv l s cap cap' :
  matches (Lit l) s cap cap' -> s = l /\ cap' = cap.
Proof. inversion 1; subst. auto. Qed.

Lemma matches_opt_class_inv p s cap cap' :
  matches (Opt (Class p)) s cap cap' -> cap' = cap.
Proof.
  inversion 1 as [| |? ? ? ? Hc| | | |]; subst; [|reflexivity].
  inversion Hc; subst. reflexivity.
Qed.

Lemma matches_group_plus_inv p s cap cap' :
  matches (Group (Plus p)) s cap cap' ->
  cap' = Some s /\ s <> "" /\ all p s = true.
Proof.
  inversion 1 as [| | | | | |? ? ? ? Hp]; subst.
  inversion Hp as [| | | |? c u ? Hc Hall| |]; subst.
  repeat split; [discriminate|]. cbn [all]. now rewrite Hc, Hall.
Qed.

(** A match of [url(...)] ends with a parenthesis, and its group is a
    non-empty text without one. *)
Lemma matches_css_url m cap0 cap :
  matches css_url m cap0 cap ->
  some (Ascii.eqb ")") m = true /\
  exists u, cap = Some u /\ u <> "" /\ some (Ascii.eqb ")") u = false.
Proof.
  unfold css_url. intros Hm.
  apply matches_seq_inv in Hm. destruct Hm as (s1 & m1 & c1 & -> & _ & Hm).
  apply matches_seq_inv in Hm. destruct Hm as (s2 & m2 & c2 & -> & _ & Hm).
  apply matches_seq_inv in Hm. destruct Hm as (s3 & m3 & c3 & -> & Hg & Hm).
  apply matches_seq_inv in Hm. destruct Hm as (s4 & m4 & c4 & -> & Hq & Hm).
  apply matches_lit_inv in Hm. destruct Hm as [-> ->].
  apply matches_opt_class_inv in Hq. subst c4.
  apply matches_group_plus_inv in Hg. destruct Hg as (-> & Hne & Hall).
  split.
  - rewrite !some_append. cbn. now rewrite !orb_true_r.
  - exists s3. repeat split; auto.
    apply (all_not_some url_char); [|exact Hall].
    intros x Hx. unfold url_char in Hx. apply negb_true_iff in Hx.
    apply orb_false_elim in Hx. destruct Hx as [Hx _].
    apply orb_false_elim in Hx. destruct Hx as [_ Hx].
    now rewrite Ascii.eqb_sym.
Qed.

Lemma exec_sound r s m cap :
  exec r s = Some (m, cap) -> exists s1, matches r s1 None cap.
Proof.
  induction s as [|c s IH]; simpl;
    destruct (at_start r _) as [[rest cap']|] eqn:Hat.
  - intros [= <- <-]. apply at_start_sound in Hat.
    destruct Hat as (s1 & _ & Hm). now exists s1.
  - discriminate.
  - intros [= <- <-]. apply at_start_sound in Hat.
    destruct Hat as (s1 & _ & Hm). now exists s1.
  - exact IH.
Qed.

(** The texts matched by a search are parts of the text searched. *)
Lemma scan_part r q skip s m :
  In m (scan r skip s) -> some q m = true -> some q s = true.
Proof.
  revert skip. induction s as [|c s IH]; intros skip; cbn [scan].
  - destruct skip; [|contradiction].
    destruct (at_start r ""); [|contradiction]. intros [<-|[]]. auto.
  - assert (Htail : forall k, In m (scan r k s) -> some q m = true ->
                              some q (String c s) = true).
    { intros k Hin Hq. cbn [some]. rewrite (IH _ Hin Hq). apply orb_true_r. }
    destruct skip as [|skip]; [|apply Htail].
    destruct (at_start r (String c s)) as [[rest cap]|] eqn:Hat; [|apply Htail].
    intros [<-|Hin] Hq; [|eapply Htail; eauto].
    apply at_start_sound in Hat. destruct Hat as (s1 & Hs & _).
    rewrite Hs, consumed_append in Hq. now rewrite Hs, some_append, Hq.
Qed.

Lemma captured_css_url_spec css u :
  In u (Parser.captured css_url (match_all css_url css)) ->
  some (Ascii.eqb ")") css = true /\ u <> "" /\ some (Ascii.eqb ")") u = false.
Proof.
  unfold Parser.captured. rewrite in_flat_map. intros (m & Hm & Hu).
  split.
  - pose proof Hm as Hm'. apply scan_matches in Hm'. destruct Hm' as (cap & Hm').
    apply matches_css_url in Hm'. destruct Hm' as [Hp _].
    eapply scan_part; eauto.
  - unfold group1 in Hu.
    destruct (exec css_url m) as [[m' cap]|] eqn:He; [|contradiction].
    apply exec_sound in He. destruct He as (s1 & Hs1).
    apply matches_css_url in Hs1. destruct Hs1 as (_ & u' & -> & Hne & Hnp).
    destruct Hu as [<-|[]]. auto.
Qed.



End ProcessCSS.

(** ** replicate.js: what a fetched stylesheet leaves in the asset map *)

Lemma get_in_keys {V} (m : Dict.t V) k v : Dict.get m k = Some v -> In k (Dict.keys m).
Proof.
  unfold Dict.keys. induction m as [|[k' v'] m IH]; simpl; [discriminate|].
  destruct (String.eqb k' k) eqn:E; [|auto].
  apply String.eqb_eq in E. auto.
Qed.

Lemma in_keys_get {V} (m : Dict.t V) k : In k (Dict.keys m) -> Dict.get m k <> None.
Proof.
  unfold Dict.keys. induction m as [|[k' v'] m IH]; simpl; [contradiction|].
  destruct (String.eqb k' k) eqn:E; [discriminate|].
  intros [->|Hin]; [now rewrite String.eqb_refl in E | auto].
Qed.

Lemma in_insert n k l x :
  In x (ObjectKeys.insert n k l) <-> x = (n, k) \/ In x l.
Proof.
  induction l as [|[m k'] l IH]; simpl; [intuition|].
  destruct (n <=? m)%N; simpl; rewrite ?IH; intuition.
Qed.

Lemma in_indices ks k :
  In k (map snd (ObjectKeys.indices ks)) <->
  In k ks /\ ObjectKeys.is_index k = true.
Proof.
  unfold ObjectKeys.is_index. induction ks as [|k0 ks IH]; simpl; [tauto|].
  destruct (ObjectKeys.array_index k0) as [n|] eqn:E.
  - rewrite in_map_iff. split.
    + intros ([m k'] & <- & Hin). apply in_insert in Hin. simpl.
      destruct Hin as [[= -> ->]|Hin].
      * rewrite E. auto.
      * assert (Hk : In k' (map snd (ObjectKeys.indices ks)))
          by (apply in_map_iff; now exists (m, k')).
        apply IH in Hk. tauto.
    + intros [[->|Hin] Hidx].
      * exists (n, k). split; [reflexivity|]. apply in_insert. now left.
      * assert (Hk : In k (map snd (ObjectKeys.indices ks))) by (apply IH; tauto).
        apply in_map_iff in Hk. destruct Hk as (x & <- & Hx).
        exists x. split; [reflexivity|]. apply in_insert. now right.
  - rewrite IH. split; [tauto|].
    intros [[->|Hin] Hidx]; [now rewrite E in Hidx | tauto].
Qed.

(** [Object.keys] lists every key. *)
Lemma in_own {V} (o : Dict.t V) k : In k (ObjectKeys.own o) <-> In k (Dict.keys o).
Proof.
  unfold ObjectKeys.own. rewrite in_app_iff, in_indices, filter_In.
  destruct (ObjectKeys.is_index k); simpl; intuition discriminate.
Qed.

(** A copy of an object has the properties of the object. *)
Lemma get_spread o k : Dict.get (spread o) k = Dict.get o k.
Proof.
  unfold spread.
  assert (Hfold : forall ks acc,
             Dict.get
               (fold_left
                  (fun acc k => match Dict.get o k with
                                | Some v => Dict.set acc k v
                                | None => acc
                                end) ks acc) k =
             if existsb (String.eqb k) ks
             then match Dict.get o k with Some v => Some v | None => Dict.get acc k end
             else Dict.get acc k).
  { induction ks as [|k0 ks IH]; intros acc; simpl; [reflexivity|].
    rewrite IH. destruct (String.eqb k k0) eqn:E; simpl.
    - apply String.eqb_eq in E. subst k0.
      destruct (Dict.get o k) as [v|]; [rewrite get_set_same|];
        now destruct (existsb (String.eqb k) ks).
    - destruct (Dict.get o k0) as [v0|]; [|reflexivity].
      rewrite get_set_other; [reflexivity|].
      intros ->. now rewrite String.eqb_refl in E. }
  rewrite Hfold. simpl.
  destruct (existsb (String.eqb k) (ObjectKeys.own o)) eqn:E.
  - now destruct (Dict.get o k).
  - destruct (Dict.get o k) as [v|] eqn:Hk; [|reflexivity].
    apply get_in_keys, in_own in Hk.
    assert (existsb (String.eqb k) (ObjectKeys.own o) = true); [|congruence].
    apply existsb_exists. exists k. split; [assumption | apply String.eqb_refl].
Qed.

Section Stored.
Import Replicate.
Context {url_api : UrlApi} {cheerio : Cheerio} {robots : Robots} {buffer : Base64}.
Variable net : Fetcher.Network.
Variable sessionId : string.
Variable finalUrl : string.
















End Stored.

Section Inlining.
Import Replicate.
Context {url_api : UrlApi} {cheerio : Cheerio} {robots : Robots} {buffer : Base64}.


End Inlining.

(** ** The claims on concrete pages *)

Section Examples.
Import Parser Fetcher Replicate.




(** C2 on a page that refers to one image as [a.png] and as
    [http://h/a.png], when the first request times out: the asset map has
    the data of the image under the absolute form of [a.png] and under
    nothing else, and the first image keeps the [src] [a.png].  The same
    holds of [rewriteAssets] when it is given the base URL. *)
Lemma absolute_key_not_matched :
  let job := @run Sample.url_api (Sample.cheerio Sample.mixed_page) Sample.buffer
                  (Sample.network [0]) "session_1" "http://h/" "<html>"
                  Sample.empty in
  map absolute (images (assets job)) = ["http://h/a.png"; "http://h/a.png"] /\
  processed job = [("http://h/a.png", Sample.png)] /\
  elems (replica job) =
    [("html", []); ("body", []);
     ("img", [("src", "a.png")]); ("img", [("src", Sample.png)])] /\
  @rewriteAssets Sample.url_api
     [Elem "img" [("src", "a.png")] []]
     [("http://h/a.png", Sample.png)] (Some "http://h/") =
    [Elem "img" [("src", "a.png")] []].
Proof. vm_compute. repeat split. Qed.

End Examples.

(** ** The theorems on concrete inputs *)

Section Witnesses.
Import Parser Fetcher Replicate.

Lemma resolve_idempotent_witness :
  @resolveUrl Sample.url_api (@resolveUrl Sample.url_api "https://h/a.png" "http://h/")
              "http://h/" =
  @resolveUrl Sample.url_api "https://h/a.png" "http://h/".
Proof.
  apply (@resolve_idempotent Sample.url_api "https://h/a.png" "http://h/").
  right. reflexivity.
Defined.


Lemma session_cleared_once_witness :
  Dict.get
    (store (snd (@replicate Sample.url_api (Sample.cheerio Sample.plain_page)
                            Sample.robots Sample.buffer (Sample.network [])
                            "session_1" (Some "http://h/") Sample.empty)))
    "session_1" = None.
Proof.
  refine (proj2 (@session_cleared_once
                   Sample.url_api (Sample.cheerio Sample.plain_page)
                   Sample.robots Sample.buffer (Sample.network [])
                   "session_1" (Some "http://h/") Sample.empty _ _ _ _)).
  - apply surjective_pairing.
  - intros error. vm_compute. discriminate.
Defined.



End Witnesses.

(** * Further properties of the code *)

(** ** storage.js: session ids and the cleanup timer *)

Section Housekeeping.
Import Matching.

Lemma digit_char m :
  (m < 10)%N ->
  Js.digit_value 10 (ascii_of_N (48 + m)) = Some m.
Proof.
  intros Hm.
  assert (Hcases : (m = 0 \/ m = 1 \/ m = 2 \/ m = 3 \/ m = 4 \/ m = 5 \/
                    m = 6 \/ m = 7 \/ m = 8 \/ m = 9)%N) by lia.
  repeat (destruct Hcases as [-> | Hcases]; [reflexivity|]).
  subst m. reflexivity.
Qed.

Lemma decimal_digit_plain c :
  Js.decimal_digit c = true ->
  Js.white_space c = false /\ Ascii.eqb c "-" = false /\ Ascii.eqb c "+" = false /\
  Ascii.eqb c "x" = false /\ Ascii.eqb c "X" = false /\ Ascii.eqb c "_" = false.
Proof.
  destruct c as [[] [] [] [] [] [] [] []]; intros Hc;
    try discriminate Hc; repeat split; reflexivity.
Qed.

Lemma trim_start_digit c s :
  Js.decimal_digit c = true -> Js.trim_start (String c s) = String c s.
Proof.
  destruct c as [[] [] [] [] [] [] [] []]; intros Hc; try discriminate Hc;
    destruct s as [|c2 [|c3 s3]]; reflexivity.
Qed.

Lemma digits_all fuel n acc :
  all Js.decimal_digit acc = true -> all Js.decimal_digit (Js.digits fuel n acc) = true.
Proof.
  assert (Hstep : forall n acc,
             all Js.decimal_digit acc = true ->
             all Js.decimal_digit (String (ascii_of_N (48 + n mod 10)) acc) = true).
  { intros m acc' Hacc. cbn [all]. unfold Js.decimal_digit at 1.
    rewrite digit_char by (apply N.mod_lt; lia). exact Hacc. }
  revert n acc. induction fuel as [|fuel IH]; intros n acc Hacc; cbn [Js.digits].
  - apply Hstep, Hacc.
  - destruct (n <? 10)%N; [apply Hstep, Hacc | apply IH, Hstep, Hacc].
Qed.

Lemma digits_value_digits fuel n acc :
  (n < 2 ^ N.of_nat (S fuel))%N ->
  Js.digits_value 10 (Js.digits fuel n acc) None =
  Js.digits_value 10 acc (Some n).
Proof.
  revert n acc. induction fuel as [|fuel IH]; intros n acc Hn.
  - change (2 ^ N.of_nat 1)%N with 2%N in Hn.
    cbn [Js.digits Js.digits_value].
    rewrite digit_char by (apply N.mod_lt; lia).
    rewrite N.mod_small by lia. reflexivity.
  - cbn [Js.digits]. destruct (N.ltb_spec n 10) as [Hlt | Hge].
    + cbn [Js.digits_value]. rewrite digit_char by (apply N.mod_lt; lia).
      rewrite N.mod_small by lia. reflexivity.
    + rewrite IH.
      * cbn [Js.digits_value]. rewrite digit_char by (apply N.mod_lt; lia).
        f_equal. f_equal.
        pose proof (N.div_mod n 10 ltac:(lia)) as Hdm. lia.
      * apply N.Div0.div_lt_upper_bound.
        rewrite Nat2N.inj_succ, N.pow_succ_r' in Hn. lia.
Qed.

Lemma decimal_value n :
  all Js.decimal_digit (Js.decimal n) = true /\
  Js.digits_value 10 (Js.decimal n) None = Some n.
Proof.
  unfold Js.decimal. split.
  - apply digits_all. reflexivity.
  - rewrite digits_value_digits; [reflexivity|].
    rewrite Nat2N.inj_succ, N2Nat.id.
    destruct n as [|p]; [reflexivity|].
    apply N.log2_spec. lia.
Qed.

Lemma digits_cons fuel n acc :
  exists c rest, Js.digits fuel n acc = String c rest.
Proof.
  revert n acc. induction fuel as [|fuel IH]; intros n acc; simpl.
  - eauto.
  - destruct (n <? 10)%N; [eauto | apply IH].
Qed.

Lemma parseInt_digits s :
  all Js.decimal_digit s = true -> s <> "" ->
  Js.parseInt s = option_map Z.of_N (Js.digits_value 10 s None).
Proof.
  intros Hall Hne. destruct s as [|c s]; [congruence|].
  simpl in Hall. apply andb_prop in Hall as [Hc Hs].
  destruct (decimal_digit_plain c Hc) as (Hw & Hm & Hp & _).
  unfold Js.parseInt. rewrite (trim_start_digit c s Hc), Hm, Hp.
  assert (H0x : Js.strip_prefix "0x" (String c s) = None).
  { destruct (Js.strip_prefix "0x" (String c s)) as [s'|] eqn:E; [|reflexivity].
    cbn [Js.strip_prefix] in E. destruct (Ascii.eqb "0" c); [|discriminate E].
    destruct s as [|d s]; [discriminate E|].
    simpl in Hs. apply andb_prop in Hs as [Hd _].
    destruct (decimal_digit_plain d Hd) as (_ & _ & _ & Hx & _).
    rewrite Ascii.eqb_sym, Hx in E. discriminate E. }
  assert (H0X : Js.strip_prefix "0X" (String c s) = None).
  { destruct (Js.strip_prefix "0X" (String c s)) as [s'|] eqn:E; [|reflexivity].
    cbn [Js.strip_prefix] in E. destruct (Ascii.eqb "0" c); [|discriminate E].
    destruct s as [|d s]; [discriminate E|].
    simpl in Hs. apply andb_prop in Hs as [Hd _].
    destruct (decimal_digit_plain d Hd) as (_ & _ & _ & _ & Hx & _).
    rewrite Ascii.eqb_sym, Hx in E. discriminate E. }
  rewrite H0x, H0X.
  destruct (Js.digits_value 10 (String c s) None) as [n|]; [|reflexivity].
  simpl. f_equal. destruct n; reflexivity.
Qed.

Lemma split_part sep s1 s2 :
  some (fun c => Ascii.eqb c sep) s1 = false ->
  Js.split sep (s1 ++ String sep s2) = s1 :: Js.split sep s2.
Proof.
  induction s1 as [|c s1 IH]; intros Hs1; simpl.
  - rewrite Ascii.eqb_refl. reflexivity.
  - simpl in Hs1. apply orb_false_iff in Hs1 as [Hc Hs1].
    rewrite Hc, (IH Hs1). reflexivity.
Qed.

Lemma split_whole sep s :
  some (fun c => Ascii.eqb c sep) s = false -> Js.split sep s = [s].
Proof.
  induction s as [|c s IH]; intros Hs; simpl; [reflexivity|].
  simpl in Hs. apply orb_false_iff in Hs as [Hc Hs].
  rewrite Hc, (IH Hs). reflexivity.
Qed.

Lemma all_digits_no_sep s :
  all Js.decimal_digit s = true -> some (fun c => Ascii.eqb c "_") s = false.
Proof.
  induction s as [|c s IH]; intros Hall; simpl; [reflexivity|].
  simpl in Hall. apply andb_prop in Hall as [Hc Hs].
  destruct (decimal_digit_plain c Hc) as (_ & _ & _ & _ & _ & Hu).
  rewrite Hu. exact (IH Hs).
Qed.

Lemma timestamp_of_generated now random :
  Js.parseInt
    (Js.key (nth_error (Js.split "_" (Storage.generateSessionId now random)) 1)) =
  Some (Z.of_N now).
Proof.
  unfold Storage.generateSessionId.
  change ("session_" ++ Js.decimal now ++ "_" ++ random)
    with ("session" ++ String "_" (Js.decimal now ++ String "_" random)).
  destruct (decimal_value now) as [Hall Hval].
  rewrite split_part by reflexivity.
  rewrite split_part by (apply all_digits_no_sep; exact Hall).
  cbn [nth_error Js.key].
  rewrite parseInt_digits; [rewrite Hval; reflexivity | exact Hall |].
  destruct (digits_cons (N.to_nat (N.log2 now)) now "") as (c & rest & E).
  unfold Js.decimal. rewrite E. discriminate.
Qed.

Lemma get_sweep {V} (p : string -> bool) ks (m : Dict.t V) k :
  Dict.get (fold_left (fun m k => if p k then Dict.delete m k else m) ks m) k =
  if existsb (String.eqb k) ks && p k then None else Dict.get m k.
Proof.
  revert m. induction ks as [|k0 ks IH]; intros m; simpl; [reflexivity|].
  rewrite IH. destruct (String.eqb_spec k k0) as [-> | Hne]; simpl.
  - destruct (p k0) eqn:Hp.
    + rewrite get_delete, String.eqb_refl. destruct (existsb _ ks); reflexivity.
    + rewrite andb_false_r. reflexivity.
  - destruct (existsb (String.eqb k) ks && p k); [reflexivity|].
    destruct (p k0); [|reflexivity].
    rewrite get_delete. destruct (String.eqb_spec k0 k); [congruence | reflexivity].
Qed.

Lemma get_cleanup now store sessionId :
  Dict.get (Storage.cleanup now store) sessionId =
  if Storage.expired now sessionId then None else Dict.get store sessionId.
Proof.
  unfold Storage.cleanup. rewrite get_sweep.
  destruct (Storage.expired now sessionId); [|rewrite andb_false_r; reflexivity].
  rewrite andb_true_r.
  destruct (existsb (String.eqb sessionId) (Dict.keys store)) eqn:E; [reflexivity|].
  destruct (Dict.get store sessionId) eqn:G; [|reflexivity].
  apply get_in_keys in G.
  assert (Hex : existsb (String.eqb sessionId) (Dict.keys store) = true).
  { apply existsb_exists. exists sessionId. split; [exact G | apply String.eqb_refl]. }
  congruence.
Qed.

Lemma includes_char s c :
  Js.includes s (String c "") = false -> some (fun x => Ascii.eqb x c) s = false.
Proof.
  induction s as [|x s IH]; intros Hs; [reflexivity|].
  cbn [Js.includes Js.strip_prefix] in Hs. cbn [some].
  rewrite Ascii.eqb_sym. destruct (Ascii.eqb c x); [discriminate Hs|].
  exact (IH Hs).
Qed.

Lemma length_set {V} (m : Dict.t V) k v :
  length (Dict.set m k v) = length m + (if Dict.has m k then 0 else 1).
Proof.
  unfold Dict.has. induction m as [|[k' v'] m IH]; simpl; [reflexivity|].
  destruct (String.eqb k' k); simpl; [lia|].
  rewrite IH. destruct (Dict.get m k); lia.
Qed.

Lemma total_from (store : Storage.t) a :
  fold_left (fun totalAssets sessionStore => totalAssets + length (snd sessionStore))
            store a =
  a + Storage.totalAssets (Storage.getStats store).
Proof.
  cbn [Storage.getStats Storage.totalAssets].
  revert a. induction store as [|e store IH]; intros a; cbn [fold_left]; [lia|].
  match goal with
  | |- fold_left _ _ ?x = _ + fold_left _ _ ?y => rewrite (IH x), (IH y)
  end.
  lia.
Qed.

Lemma total_cons e (store : Storage.t) :
  Storage.totalAssets (Storage.getStats (e :: store)) =
  length (snd e) + Storage.totalAssets (Storage.getStats store).
Proof.
  unfold Storage.getStats at 1. cbn [Storage.totalAssets fold_left].
  rewrite total_from. reflexivity.
Qed.

Lemma total_set (store : Storage.t) k x y :
  Dict.get store k = Some x ->
  Storage.totalAssets (Storage.getStats (Dict.set store k y)) + length x =
  Storage.totalAssets (Storage.getStats store) + length y.
Proof.
  induction store as [|[k' v'] store IH]; intros Hget; [discriminate Hget|].
  cbn [Dict.get] in Hget. cbn [Dict.set].
  destruct (String.eqb k' k).
  - injection Hget as <-. rewrite !total_cons. cbn [snd]. lia.
  - rewrite !total_cons. cbn [snd]. specialize (IH Hget). lia.
Qed.

Lemma total_app (s1 s2 : Storage.t) :
  Storage.totalAssets (Storage.getStats (s1 ++ s2)%list) =
  Storage.totalAssets (Storage.getStats s1) + Storage.totalAssets (Storage.getStats s2).
Proof.
  induction s1 as [|e s1 IH]; [reflexivity|].
  rewrite <- app_comm_cons, !total_cons, IH. lia.
Qed.

Lemma set_app_fresh {V} (m m' : Dict.t V) k v :
  Dict.get m k = None -> Dict.set (m ++ m')%list k v = (m ++ Dict.set m' k v)%list.
Proof.
  induction m as [|[k' v'] m IH]; intros Hget; [reflexivity|].
  cbn [Dict.get] in Hget. rewrite <- !app_comm_cons. cbn [Dict.set].
  destruct (String.eqb k' k); [discriminate Hget|].
  rewrite (IH Hget). reflexivity.
Qed.

Lemma set_new {V} (m : Dict.t V) k v :
  Dict.get m k = None -> Dict.set m k v = (m ++ [(k, v)])%list.
Proof.
  intros Hget. rewrite <- (app_nil_r m) at 1.
  rewrite set_app_fresh by exact Hget. reflexivity.
Qed.

Lemma set_last {V} (m : Dict.t V) k v v' :
  Dict.get m k = None ->
  Dict.set (m ++ [(k, v)])%list k v' = (m ++ [(k, v')])%list.
Proof.
  intros Hget. rewrite set_app_fresh by exact Hget.
  cbn [Dict.set]. rewrite String.eqb_refl. reflexivity.
Qed.

Lemma stats_eq (stats : Storage.Stats) n m :
  Storage.sessions stats = n -> Storage.totalAssets stats = m ->
  stats = {| Storage.sessions := n; Storage.totalAssets := m |}.
Proof. destruct stats. simpl. intros -> ->. reflexivity. Qed.

(** X1. The timer removes the sessions that are expired and no other: after
    its callback has run, an expired session is gone and every other
    session has the assets it had. *)
Theorem cleanup_removes_the_expired (now : N) (store : Storage.t) (sessionId : string) :
  Dict.get (Storage.cleanup now store) sessionId =
    (if Storage.expired now sessionId then None else Dict.get store sessionId) /\
  Storage.getAssetMap (Storage.cleanup now store) sessionId =
    (if Storage.expired now sessionId then []
     else Storage.getAssetMap store sessionId).
Proof.
  split; [apply get_cleanup|].
  unfold Storage.getAssetMap. rewrite get_cleanup.
  destruct (Storage.expired now sessionId); reflexivity.
Qed.

(** X2. A session id made by [generateSessionId] carries the time of its
    creation, which the timer reads back: the session is expired when more
    than an hour has passed since then, and the timer removes it exactly
    then. *)
Theorem generated_session_expiry (created now : N) (random : string) :
  (created < 10 ^ 21)%N ->
  Storage.expired now (Storage.generateSessionId created random) =
    (Z.of_N now - Z.of_N created >? 3600000)%Z /\
  forall store,
    Dict.get (Storage.cleanup now store) (Storage.generateSessionId created random) =
    if (Z.of_N now - Z.of_N created >? 3600000)%Z then None
    else Dict.get store (Storage.generateSessionId created random).
Proof.
  intros _.
  assert (Hexp : Storage.expired now (Storage.generateSessionId created random) =
                 (Z.of_N now - Z.of_N created >? 3600000)%Z).
  { unfold Storage.expired. rewrite timestamp_of_generated. reflexivity. }
  split; [exact Hexp|].
  intros store. rewrite get_cleanup, Hexp. reflexivity.
Qed.

(** X3. A session whose id has no underscore has no time of creation to read:
    the timer never removes it, however often it runs. *)
Theorem session_without_timestamp_stays
    (sessionId : string) (times : list N) (store : Storage.t) :
  Js.includes sessionId "_" = false ->
  Dict.get (fold_left (fun store now => Storage.cleanup now store) times store)
           sessionId =
  Dict.get store sessionId.
Proof.
  intros Hid.
  assert (Hexp : forall now, Storage.expired now sessionId = false).
  { intros now. unfold Storage.expired.
    rewrite split_whole by (apply includes_char; exact Hid). reflexivity. }
  revert store. induction times as [|now times IH]; intros store; simpl.
  - reflexivity.
  - rewrite IH, get_cleanup, Hexp. reflexivity.
Qed.

(** X24. The runs of the timer compose: a session that is expired stays
    expired at any later time, so that after two runs of the timer the
    store holds what the later run alone would have left. *)
Theorem cleanup_composes (earlier later : N) (store : Storage.t) (sessionId : string) :
  (earlier <= later)%N ->
  (Storage.expired earlier sessionId = true -> Storage.expired later sessionId = true) /\
  Dict.get (Storage.cleanup later (Storage.cleanup earlier store)) sessionId =
  Dict.get (Storage.cleanup later store) sessionId.
Proof.
  intros Hle.
  assert (Hold : Storage.expired earlier sessionId = true ->
                 Storage.expired later sessionId = true).
  { unfold Storage.expired.
    destruct (Js.parseInt _) as [timestamp|]; [|discriminate].
    rewrite !Z.gtb_lt. lia. }
  split; [exact Hold|].
  rewrite !get_cleanup.
  destruct (Storage.expired later sessionId) eqn:Hlater; [reflexivity|].
  destruct (Storage.expired earlier sessionId); [|reflexivity].
  specialize (Hold eq_refl). discriminate Hold.
Qed.

(** X4. What [getStats] counts when an asset is stored: a session more when
    the session is new, an asset more when the session had nothing under
    that URL, and nothing more otherwise. *)
Theorem getStats_storeAsset (store : Storage.t) (sessionId originalUrl dataUrl : string) :
  Storage.getStats (Storage.storeAsset store sessionId originalUrl dataUrl) =
  {| Storage.sessions :=
       Storage.sessions (Storage.getStats store) +
       (if Dict.has store sessionId then 0 else 1);
     Storage.totalAssets :=
       Storage.totalAssets (Storage.getStats store) +
       (if match Dict.get store sessionId with
           | Some sessionStore => Dict.has sessionStore originalUrl
           | None => false
           end
        then 0 else 1) |}.
Proof.
  unfold Storage.storeAsset, Dict.has.
  destruct (Dict.get store sessionId) as [sessionStore|] eqn:Hget.
  - rewrite Hget.
    pose proof (total_set store sessionId sessionStore
                  (Dict.set sessionStore originalUrl dataUrl) Hget) as Htotal.
    rewrite length_set in Htotal. unfold Dict.has in Htotal.
    apply stats_eq.
    + unfold Storage.getStats at 1. cbn [Storage.sessions]. rewrite length_set.
      unfold Dict.has. rewrite Hget. reflexivity.
    + destruct (Dict.get sessionStore originalUrl); lia.
  - rewrite get_set_same.
    rewrite (set_new store sessionId [] Hget), set_last by exact Hget.
    apply stats_eq.
    + unfold Storage.getStats at 1. cbn [Storage.sessions].
      rewrite length_app. reflexivity.
    + rewrite total_app, total_cons. reflexivity.
Qed.

End Housekeeping.

(** ** parser.js: the sanitizer as one traversal *)

Section Pruning.

Lemma prune_ext sel sel' x x' d :
  (forall t a, sel t a = sel' t a) ->
  (forall t a, sel t a = false -> x t a = x' t a) ->
  Tree.prune sel x d = Tree.prune sel' x' d.
Proof.
  intros Hsel Hx. unfold Tree.prune. apply flat_map_ext_Forall.
  induction d as [|n d IH]; constructor; [|exact IH].
  clear IH. induction n as [t a cs IHcs | s | m] using node_ind'; [|reflexivity..].
  cbn [Tree.prune_node]. rewrite <- Hsel.
  destruct (sel t a) eqn:E; [reflexivity|].
  rewrite (Hx t a E). do 2 f_equal. apply flat_map_ext_Forall. exact IHcs.
Qed.

Lemma remove_prune sel d : remove sel d = Tree.prune sel (fun _ a => a) d.
Proof.
  unfold remove, Tree.prune. apply flat_map_ext_Forall.
  induction d as [|n d IH]; constructor; [|exact IH].
  clear IH. induction n as [t a cs IHcs | s | m] using node_ind'; [|reflexivity..].
  cbn [remove_node Tree.prune_node]. destruct (sel t a); [reflexivity|].
  do 2 f_equal. apply flat_map_ext_Forall. exact IHcs.
Qed.

Lemma flat_map_single {A B} (f : A -> B) l : flat_map (fun x => [f x]) l = map f l.
Proof. induction l as [|x l IH]; simpl; [reflexivity | rewrite IH; reflexivity]. Qed.

Lemma each_prune sel fn d :
  each sel fn d = Tree.prune (fun _ _ => false) (on sel fn) d.
Proof.
  unfold each, Tree.prune. rewrite <- flat_map_single. apply flat_map_ext_Forall.
  induction d as [|n d IH]; constructor; [|exact IH].
  clear IH. induction n as [t a cs IHcs | s | m] using node_ind'; [|reflexivity..].
  cbn [each_node Tree.prune_node]. unfold on at 1. do 2 f_equal.
  rewrite <- flat_map_single. apply flat_map_ext_Forall. exact IHcs.
Qed.

Lemma prune_prune sel1 x1 sel2 x2 d :
  Tree.prune sel2 x2 (Tree.prune sel1 x1 d) =
  Tree.prune (fun t a => sel1 t a || sel2 t (x1 t a)) (fun t a => x2 t (x1 t a)) d.
Proof.
  unfold Tree.prune. rewrite flat_map_flat_map. apply flat_map_ext_Forall.
  induction d as [|n d IH]; constructor; [|exact IH].
  clear IH. induction n as [t a cs IHcs | s | m] using node_ind'; [|reflexivity..].
  cbn [Tree.prune_node]. destruct (sel1 t a); [reflexivity|].
  cbn [orb flat_map Tree.prune_node]. destruct (sel2 t (x1 t a)); [reflexivity|].
  rewrite app_nil_r. do 2 f_equal.
  rewrite flat_map_flat_map. apply flat_map_ext_Forall. exact IHcs.
Qed.

Lemma strip_prune doc :
  Parser.stripUnsafeContent doc = Tree.prune Doc.stripped sanitize doc.
Proof.
  unfold Parser.stripUnsafeContent, Parser.STRIP_TAGS. cbn [fold_left].
  rewrite !remove_prune, !each_prune, !prune_prune.
  apply prune_ext.
  - intros t a. unfold Doc.stripped, Parser.STRIP_TAGS, tag. cbn [existsb].
    rewrite !orb_false_r, !orb_assoc. reflexivity.
  - intros t a _. reflexivity.
Qed.

Lemma texts_prune sel x d :
  Tree.texts (Tree.prune sel x d) = Tree.texts (Tree.prune sel (fun _ a => a) d).
Proof.
  unfold Tree.texts, Tree.prune. rewrite !flat_map_flat_map.
  apply flat_map_ext_Forall.
  induction d as [|n d IH]; constructor; [|exact IH].
  clear IH. induction n as [t a cs IHcs | s | m] using node_ind'; [|reflexivity..].
  cbn [Tree.prune_node]. destruct (sel t a); [reflexivity|].
  cbn [flat_map Tree.texts_node]. rewrite !app_nil_r, !flat_map_flat_map.
  apply flat_map_ext_Forall. exact IHcs.
Qed.

Lemma delete_absent {V} (m : Dict.t V) k : Dict.get m k = None -> Dict.delete m k = m.
Proof.
  induction m as [|[k' v'] m IH]; intros Hget; [reflexivity|].
  cbn [Dict.get] in Hget. cbn [Dict.delete].
  destruct (String.eqb k' k); [discriminate Hget|].
  rewrite (IH Hget). reflexivity.
Qed.

Lemma fold_delete_absent {V} ks (m : Dict.t V) :
  (forall k, In k ks -> Dict.get m k = None) -> fold_left Dict.delete ks m = m.
Proof.
  revert m. induction ks as [|k ks IH]; intros m Hm; [reflexivity|].
  cbn [fold_left]. rewrite delete_absent by (apply Hm; left; reflexivity).
  apply IH. intros k' Hk'. apply Hm. right. exact Hk'.
Qed.

Lemma delete_app {V} (m m' : Dict.t V) k :
  Dict.delete (m ++ m')%list k = (Dict.delete m k ++ Dict.delete m' k)%list.
Proof.
  induction m as [|[k' v'] m IH]; [reflexivity|].
  rewrite <- app_comm_cons. cbn [Dict.delete].
  destruct (String.eqb k' k); [exact IH|].
  rewrite IH. reflexivity.
Qed.

Lemma fold_delete_app {V} ks (m m' : Dict.t V) :
  fold_left Dict.delete ks (m ++ m')%list =
  (fold_left Dict.delete ks m ++ fold_left Dict.delete ks m')%list.
Proof.
  revert m m'. induction ks as [|k ks IH]; intros m m'; [reflexivity|].
  cbn [fold_left]. rewrite delete_app. apply IH.
Qed.

Lemma set_same {V} (m : Dict.t V) k v : Dict.get m k = Some v -> Dict.set m k v = m.
Proof.
  induction m as [|[k' v'] m IH]; intros Hget; [discriminate Hget|].
  cbn [Dict.get] in Hget. cbn [Dict.set].
  destruct (String.eqb k' k).
  - injection Hget as ->. reflexivity.
  - rewrite (IH Hget). reflexivity.
Qed.

Lemma in_existsb k ks : In k ks -> existsb (String.eqb k) ks = true.
Proof.
  intros Hin. apply existsb_exists. exists k. split; [exact Hin | apply String.eqb_refl].
Qed.

Lemma either_control t a :
  either [tag "input"; tag "textarea"; tag "button"] t a = control t.
Proof.
  unfold either, tag, control. cbn [existsb].
  rewrite orb_false_r, orb_assoc. reflexivity.
Qed.

Lemma sanitize_twice t a : sanitize t (sanitize t a) = sanitize t a.
Proof.
  unfold sanitize.
  set (clean := fun a : attrs => fold_left Dict.delete Parser.STRIP_ATTRIBUTES a).
  set (disable := fun a : attrs => Dict.set a "disabled" "disabled").
  set (freeze := fun a : attrs =>
                   Dict.delete (Dict.set a "onsubmit" "return false;") "action").
  assert (Hclean : forall a k, In k Parser.STRIP_ATTRIBUTES -> Dict.get (clean a) k = None).
  { intros a0 k Hk. unfold clean. rewrite get_fold_delete, (in_existsb _ _ Hk).
    reflexivity. }
  assert (Hclean2 : forall a, clean (clean a) = clean a).
  { intros a0. unfold clean at 1. apply fold_delete_absent.
    intros k Hk. apply Hclean, Hk. }
  unfold on, any. rewrite !either_control. unfold tag.
  fold (clean a).
  destruct (String.eqb_spec t "form") as [-> | Hform].
  - change (control "form") with false. cbv iota.
    assert (Hfrozen : freeze (clean a) =
                      (Dict.delete (clean a) "action" ++ [("onsubmit", "return false;")])%list).
    { unfold freeze. rewrite set_new by (apply Hclean; simpl; tauto).
      rewrite delete_app. reflexivity. }
    rewrite Hfrozen.
    assert (Hkept : forall k, In k Parser.STRIP_ATTRIBUTES ->
                              Dict.get (Dict.delete (clean a) "action") k = None).
    { intros k Hk. rewrite get_delete, (Hclean a k Hk).
      destruct (String.eqb "action" k); reflexivity. }
    assert (Hagain : clean (Dict.delete (clean a) "action" ++ [("onsubmit", "return false;")])%list
                     = Dict.delete (clean a) "action").
    { unfold clean at 1. rewrite fold_delete_app.
      rewrite (fold_delete_absent _ _ Hkept). apply app_nil_r. }
    rewrite Hagain. unfold freeze.
    rewrite set_new by (apply Hkept; simpl; tauto).
    rewrite delete_app, (delete_absent (Dict.delete (clean a) "action"))
      by apply get_delete_same.
    reflexivity.
  - destruct (control t) eqn:Hcontrol.
    + assert (Hdisabled : clean (disable (clean a)) = disable (clean a)).
      { unfold clean at 1. apply fold_delete_absent. intros k Hk.
        unfold disable. rewrite get_set.
        destruct (String.eqb_spec "disabled" k) as [<- | _].
        - simpl in Hk. repeat (destruct Hk as [Hk | Hk]; [discriminate Hk|]).
          destruct Hk.
        - apply Hclean, Hk. }
      rewrite Hdisabled. unfold disable at 1.
      apply set_same. unfold disable. apply get_set_same.
    + apply Hclean2.
Qed.

(** X5. Sanitizing is idempotent: [stripUnsafeContent] leaves a document that
    it has already gone through as it is. *)
Theorem strip_idempotent (doc : forest) :
  Parser.stripUnsafeContent (Parser.stripUnsafeContent doc) =
  Parser.stripUnsafeContent doc.
Proof.
  rewrite !strip_prune, prune_prune. apply prune_ext.
  - intros t a. unfold Doc.stripped. apply orb_diag.
  - intros t a _. apply sanitize_twice.
Qed.

(** X6. The sanitizer works from fixed lists and touches nothing else: on
    the elements that are kept, every attribute that is not on the list
    of handlers, is not the [action] of a form and is not the [disabled]
    of a control keeps its value, whatever its name or value; and the
    text of the document is the text outside the stripped elements. *)
Theorem strip_keeps_the_rest (doc : forest) :
  Forall2
    (fun e e' =>
       fst e' = fst e /\
       forall k,
         ~ In k Parser.STRIP_ATTRIBUTES ->
         (k = "action" -> fst e <> "form") ->
         (k = "disabled" -> control (fst e) = false) ->
         Dict.get (snd e') k = Dict.get (snd e) k)
    (Doc.outside Doc.stripped doc) (elems (Parser.stripUnsafeContent doc)) /\
  Tree.texts (Parser.stripUnsafeContent doc) = Tree.texts (remove Doc.stripped doc).
Proof.
  split.
  - rewrite elems_outside, outside_strip. cbv beta.
    rewrite (outside_ext (fun t a => Doc.stripped t a || false) Doc.stripped)
      by (intros t a; apply orb_false_r).
    apply Forall2_map_r. intros [t a] _. cbn [lift fst snd]. split; [reflexivity|].
    intros k Hstrip Haction Hdisabled. rewrite get_sanitize.
    destruct (existsb (String.eqb k) Parser.STRIP_ATTRIBUTES) eqn:Hk.
    { exfalso. apply Hstrip. apply existsb_exists in Hk as (k' & Hin & Heq).
      apply String.eqb_eq in Heq. subst k'. exact Hin. }
    destruct (String.eqb_spec "disabled" k) as [<- | _].
    { rewrite (Hdisabled eq_refl). cbn [andb].
      destruct (String.eqb t "form"); reflexivity. }
    rewrite andb_false_r.
    destruct (String.eqb_spec "action" k) as [<- | _].
    { destruct (String.eqb_spec t "form") as [-> | _];
        [exfalso; exact (Haction eq_refl eq_refl) | reflexivity]. }
    rewrite andb_false_r.
    destruct (String.eqb_spec "onsubmit" k) as [<- | _]; [discriminate Hk|].
    rewrite andb_false_r. reflexivity.
  - rewrite strip_prune, remove_prune. apply texts_prune.
Qed.

End Pruning.

(** ** parser.js: references, rewriting and the banner *)

Section References.
Import Regex Matching.
Context {url_api : UrlApi}.





Lemma scan_without_prefix l r s skip :
  Js.includes s l = false -> scan (Seq (Lit l) r) skip s = [].
Proof.
  revert skip. induction s as [|c s IH]; intros skip Hs.
  - cbn [Js.includes] in Hs. cbn [scan]. destruct skip; [|reflexivity].
    unfold at_start. cbn [run].
    destruct (Js.strip_prefix l "") eqn:E; [discriminate Hs | reflexivity].
  - cbn [Js.includes] in Hs. cbn [scan].
    destruct (Js.strip_prefix l (String c s)) eqn:E; [discriminate Hs|].
    destruct skip as [|k]; [|apply IH, Hs].
    unfold at_start. cbn [run]. rewrite E. apply IH, Hs.
Qed.

(** X8. [processCSS] returns a stylesheet without [url(] as it is, so that
    the test [css.includes('url(')] of the handler only saves the call: the
    result is that of [processCSS] in either case. *)
Theorem processCSS_guard (css baseUrl : string) (assetMap : Dict.t string) :
  (Js.includes css "url(" = false -> Parser.processCSS css baseUrl assetMap = css) /\
  (if Js.includes css "url(" then Parser.processCSS css baseUrl assetMap else css) =
  Parser.processCSS css baseUrl assetMap.
Proof.
  assert (Hplain : Js.includes css "url(" = false ->
                   Parser.processCSS css baseUrl assetMap = css).
  { intros Hcss. unfold Parser.processCSS, match_all, css_url.
    rewrite scan_without_prefix by exact Hcss. reflexivity. }
  split; [exact Hplain|].
  destruct (Js.includes css "url(") eqn:E; [reflexivity|].
  symmetry. apply Hplain. reflexivity.
Qed.

Lemma space_plain c :
  space c = true -> url_char c = false /\ quote c = false.
Proof.
  destruct c as [[] [] [] [] [] [] [] []]; intros Hc;
    try discriminate Hc; split; reflexivity.
Qed.

Lemma plus_prefix p pre c rest k x :
  all p pre = true -> pre <> "" -> p c = false ->
  k (String c rest) = Some x ->
  plus p (pre ++ String c rest) k = Some x.
Proof.
  intros Hall Hne Hc Hk. induction pre as [|a pre IH]; [congruence|].
  cbn [all] in Hall. apply andb_prop in Hall as [Ha Hall].
  cbn [append]. rewrite plus_cons, Ha.
  destruct pre as [|b pre].
  - cbn [append]. rewrite plus_cons, Hc. exact Hk.
  - rewrite IH by (assumption || discriminate). reflexivity.
Qed.

Lemma quoted_word_import c rest :
  space c = true -> group1 quoted_word ("@import" ++ String c rest) = Some "@import".
Proof.
  intros Hc. destruct (space_plain c Hc) as [Hurl Hquote].
  assert (Hstart : at_start quoted_word ("@import" ++ String c rest) =
                   Some (String c rest,
                         Some (Js.consumed ("@import" ++ String c rest) (String c rest)))).
  { unfold at_start, quoted_word. cbn [run].
    change (match "@import" ++ String c rest with
            | "" => None
            | String c0 s' => if quote c0 then _ else None
            end) with (@None result).
    cbv iota.
    apply plus_prefix; [reflexivity | discriminate | exact Hurl |].
    rewrite Hquote. reflexivity. }
  unfold group1.
  change ("@import" ++ String c rest) with (String "@" ("import" ++ String c rest)) at 1.
  cbn [exec].
  change (String "@" ("import" ++ String c rest)) with ("@import" ++ String c rest).
  rewrite Hstart, consumed_append. reflexivity.
Qed.

Lemma matches_plus_inv p s cap cap' :
  matches (Plus p) s cap cap' -> exists c s', s = String c s' /\ p c = true.
Proof. intros Hm. inversion Hm; subst. eauto. Qed.

Lemma matches_css_import m cap :
  matches css_import m None cap ->
  exists c rest, m = "@import" ++ String c rest /\ space c = true.
Proof.
  unfold css_import. intros Hm.
  apply matches_seq_inv in Hm as (s1 & s2 & cap1 & -> & Hlit & Hm).
  apply matches_lit_inv in Hlit as [-> _].
  apply matches_seq_inv in Hm as (s3 & s4 & cap2 & -> & Hplus & _).
  apply matches_plus_inv in Hplus as (c & s' & -> & Hc).
  exists c, (s' ++ s4). split; [reflexivity | exact Hc].
Qed.

Lemma import_urls css :
  Parser.captured quoted_word (match_all css_import css) =
  map (fun _ => "@import") (match_all css_import css).
Proof.
  unfold Parser.captured, match_all.
  assert (Hall : forall m, In m (scan css_import 0 css) ->
                           group1 quoted_word m = Some "@import").
  { intros m Hin. apply scan_matches in Hin as [cap Hm].
    apply matches_css_import in Hm as (c & rest & -> & Hc).
    apply quoted_word_import, Hc. }
  induction (scan css_import 0 css) as [|m ms IH]; [reflexivity|].
  cbn [flat_map map]. rewrite (Hall m) by (left; reflexivity).
  cbn [app]. f_equal. apply IH. intros m' Hm'. apply Hall. right. exact Hm'.
Qed.

Lemma imported_stylesheets_import b t a cs :
  Parser.imported_stylesheets b (Elem t a cs) =
  map (fun _ => Parser.asset false true "@import" b)
      (match_all css_import (inner_text cs)).
Proof.
  unfold Parser.imported_stylesheets. rewrite import_urls.
  induction (match_all css_import (inner_text cs)) as [|m ms IH]; [reflexivity|].
  cbn [map flat_map]. rewrite IH. reflexivity.
Qed.

Lemma select_elems sel d n : In n (select sel d) -> exists t a cs, n = Elem t a cs.
Proof.
  unfold select. intros Hin. apply in_flat_map in Hin as (n0 & _ & Hin).
  revert n Hin. induction n0 as [t a cs IHcs | s | m] using node_ind';
    intros n Hin; [|destruct Hin..].
  cbn [select_node] in Hin. apply in_app_or in Hin as [Hin | Hin].
  - destruct (sel t a); [|destruct Hin].
    destruct Hin as [<- | []]. eauto.
  - apply in_flat_map in Hin as (c & Hc & Hin).
    rewrite Forall_forall in IHcs. exact (IHcs c Hc n Hin).
Qed.

(** X9. In the [style] elements the code finds every [@import] rule and
    records, for each of them, a stylesheet whose reference is the
    word [@import]: what it reads as the address of the rule is the
    start of the rule itself. *)
Theorem import_rule_reference (doc : forest) (baseUrl : string) :
  (forall t a cs,
      Parser.imported_stylesheets baseUrl (Elem t a cs) =
      map (fun _ => Parser.asset false true "@import" baseUrl)
          (match_all css_import (inner_text cs))) /\
  Forall (fun r => Parser.importRule r = true -> Parser.original r = "@import")
         (Parser.stylesheets (Parser.extractAssets doc baseUrl)).
Proof.
  split; [apply imported_stylesheets_import|].
  cbn [Parser.extractAssets Parser.stylesheets].
  apply Forall_app. split; apply Forall_forall; intros r Hin Himport.
  - apply in_flat_map in Hin as (e & _ & Hin).
    destruct e as [t a cs | s | m]; try destruct Hin.
    cbn [Parser.linked_stylesheets] in Hin.
    destruct (Dict.get a "href") as [h|]; [|destruct Hin].
    destruct (Js.truthy h && negb (Js.startsWith h "data:")); [|destruct Hin].
    destruct Hin as [<- | []]. discriminate Himport.
  - apply in_flat_map in Hin as (e & He & Hin).
    apply select_elems in He as (t & a & cs & ->).
    rewrite imported_stylesheets_import in Hin.
    apply in_map_iff in Hin as (m & <- & _). reflexivity.
Qed.

Lemma guarded_urls_resolved inline import b urls r :
  In r (flat_map
          (fun url =>
             if negb (Js.startsWith url "data:")
             then [Parser.asset inline import url b] else [])
          urls) ->
  In (Parser.original r) urls /\
  Parser.absolute r = Parser.resolveUrl (Parser.original r) b.
Proof.
  intros Hin. apply in_flat_map in Hin as (u & Hu & Hin).
  destruct (negb (Js.startsWith u "data:")); [|destruct Hin].
  destruct Hin as [<- | []]. split; [exact Hu | reflexivity].
Qed.

(** X10. Every reference that [extractAssets] returns has a text that is not
    empty, and its absolute form is what [resolveUrl] makes of that text
    against the base URL. *)
Theorem extracted_references_resolved (doc : forest) (baseUrl : string) :
  Forall
    (fun r => Parser.original r <> "" /\
              Parser.absolute r = Parser.resolveUrl (Parser.original r) baseUrl)
    (Parser.images (Parser.extractAssets doc baseUrl) ++
     Parser.stylesheets (Parser.extractAssets doc baseUrl)).
Proof.
  cbn [Parser.extractAssets Parser.images Parser.stylesheets].
  repeat (apply Forall_app; split); apply Forall_forall; intros r Hin;
    apply in_flat_map in Hin as (e & He & Hin);
    apply select_elems in He as (t & a & cs & ->).
  - cbn [Parser.image_sources] in Hin.
    destruct (Dict.get a "src") as [src|]; [|destruct Hin].
    destruct (Js.truthy src) eqn:Hsrc; [|destruct Hin].
    destruct (negb (Js.startsWith src "data:")); [|destruct Hin].
    destruct Hin as [<- | []]. split; [|reflexivity].
    cbn [Parser.asset Parser.original]. intros ->. discriminate Hsrc.
  - cbn [Parser.background_images] in Hin.
    destruct (Dict.get a "style") as [style|]; [|destruct Hin].
    apply guarded_urls_resolved in Hin as [Hin Habs]. split; [|exact Habs].
    apply captured_css_url_spec in Hin as (_ & Hne & _). exact Hne.
  - cbn [Parser.linked_stylesheets] in Hin.
    destruct (Dict.get a "href") as [h|]; [|destruct Hin].
    destruct (Js.truthy h) eqn:Hh; [|destruct Hin].
    destruct (negb (Js.startsWith h "data:")); [|destruct Hin].
    destruct Hin as [<- | []]. split; [|reflexivity].
    cbn [Parser.asset Parser.original]. intros ->. discriminate Hh.
  - rewrite imported_stylesheets_import in Hin.
    apply in_map_iff in Hin as (m & <- & _). split; [discriminate | reflexivity].
Qed.

(** X11. A reference that starts with two slashes takes the scheme of the
    base URL; when the base URL does not parse, it is returned as it is.
    With a base URL whose scheme is [http:] or [https:] the result is
    absolute, so that resolving it again changes nothing. *)
Theorem resolve_protocol_relative (url baseUrl : string) :
  Js.startsWith url "//" = true ->
  (URL baseUrl None = None -> Parser.resolveUrl url baseUrl = url) /\
  (forall baseUrlObj,
      URL baseUrl None = Some baseUrlObj ->
      Parser.resolveUrl url baseUrl = protocol baseUrlObj ++ url /\
      (protocol baseUrlObj = "http:" \/ protocol baseUrlObj = "https:" ->
       Parser.resolveUrl (Parser.resolveUrl url baseUrl) baseUrl =
       Parser.resolveUrl url baseUrl)).
Proof.
  intros Hurl. split.
  - intros Hbase. unfold Parser.resolveUrl. rewrite Hurl, Hbase. reflexivity.
  - intros baseUrlObj Hbase.
    assert (Hres : Parser.resolveUrl url baseUrl = protocol baseUrlObj ++ url).
    { unfold Parser.resolveUrl. rewrite Hurl, Hbase. reflexivity. }
    split; [exact Hres|].
    intros Hscheme. rewrite Hres. apply resolveUrl_http.
    unfold Js.startsWith in Hurl.
    destruct (Js.strip_prefix "//" url) as [rest|] eqn:E; [|discriminate Hurl].
    apply strip_prefix_some in E. subst url.
    destruct Hscheme as [-> | ->]; [left | right]; reflexivity.
Qed.

Lemma select_prepend sel m d :
  select sel (prepend sel m d) = map (prepend_node sel m) (select sel d).
Proof.
  unfold select, prepend. rewrite flat_map_map, map_flat_map.
  apply flat_map_ext_Forall.
  induction d as [|n d IH]; constructor; [|exact IH].
  clear IH. induction n as [t a cs IHcs | s | x] using node_ind'; [|reflexivity..].
  assert (Hcs : flat_map (select_node sel) (map (prepend_node sel m) cs) =
                map (prepend_node sel m) (flat_map (select_node sel) cs)).
  { rewrite flat_map_map, map_flat_map. apply flat_map_ext_Forall. exact IHcs. }
  cbn [prepend_node select_node]. rewrite map_app, flat_map_app, Hcs.
  destruct (sel t a) eqn:E; cbn [map app flat_map select_node prepend_node];
    rewrite ?E; reflexivity.
Qed.

Lemma select_selected sel d n :
  In n (select sel d) -> exists t a cs, n = Elem t a cs /\ sel t a = true.
Proof.
  unfold select. intros Hin. apply in_flat_map in Hin as (n0 & _ & Hin).
  revert n Hin. induction n0 as [t a cs IHcs | s | x] using node_ind';
    intros n Hin; [|destruct Hin..].
  cbn [select_node] in Hin. apply in_app_or in Hin as [Hin | Hin].
  - destruct (sel t a) eqn:E; [|destruct Hin].
    destruct Hin as [<- | []]. eauto.
  - apply in_flat_map in Hin as (c & Hc & Hin).
    rewrite Forall_forall in IHcs. exact (IHcs c Hc n Hin).
Qed.

Lemma texts_prepend sel m d : Tree.texts (prepend sel m d) = Tree.texts d.
Proof.
  unfold Tree.texts, prepend. rewrite flat_map_map. apply flat_map_ext_Forall.
  induction d as [|n d IH]; constructor; [|exact IH].
  clear IH. induction n as [t a cs IHcs | s | x] using node_ind'; [|reflexivity..].
  cbn [prepend_node Tree.texts_node]. rewrite flat_map_app.
  replace (flat_map Tree.texts_node (if sel t a then [Markup m] else []))
    with (@nil string) by (destruct (sel t a); reflexivity).
  cbn [app]. rewrite flat_map_map. apply flat_map_ext_Forall. exact IHcs.
Qed.

(** X12. [addReplicaBanner] puts the banner in front of the content of every
    [body] element and changes nothing else: the result has the same
    [body] elements, each starting with the banner, the same elements
    with the same attributes and the same text. *)
Theorem banner_in_every_body (doc : forest) :
  Forall2
    (fun n n' =>
       exists a cs cs',
         n = Elem "body" a cs /\
         n' = Elem "body" a (Markup Parser.banner :: cs') /\
         elems cs' = elems cs)
    (select (tag "body") doc)
    (select (tag "body") (Parser.addReplicaBanner doc)) /\
  elems (Parser.addReplicaBanner doc) = elems doc /\
  Tree.texts (Parser.addReplicaBanner doc) = Tree.texts doc.
Proof.
  unfold Parser.addReplicaBanner. repeat split.
  - rewrite select_prepend. apply Forall2_map_r. intros n Hin.
    apply select_selected in Hin as (t & a & cs & -> & Ht).
    unfold tag in Ht. apply String.eqb_eq in Ht. subst t.
    exists a, cs, (map (prepend_node (tag "body") Parser.banner) cs).
    repeat split.
    change (map (prepend_node (tag "body") Parser.banner) cs)
      with (prepend (tag "body") Parser.banner cs).
    rewrite !elems_outside. apply outside_prepend.
  - rewrite !elems_outside. apply outside_prepend.
  - apply texts_prepend.
Qed.

End References.

(** ** routes/replicate.js: a job and the store *)

Section OwnSession.
Import Replicate.
Context {url_api : UrlApi} {cheerio : Cheerio} {robots : Robots} {buffer : Base64}.
Variable net : Fetcher.Network.
Variable sessionId : string.

Lemma fold_keeps {A} (P : World -> Prop) (f : World -> A -> World) l w :
  (forall w x, P w -> P (f w x)) -> P w -> P (fold_left f l w).
Proof.
  intros Hf. revert w. induction l as [|x l IH]; intros w Hw; [exact Hw|].
  cbn [fold_left]. apply IH, Hf, Hw.
Qed.

Section Keeps.
Variable P : World -> Prop.
Hypothesis Hstore : forall w k v, P w -> P (storeAsset w sessionId k v).

Lemma stylesheet_settled_keeps finalUrl sheets w i :
  P w -> P (stylesheet_settled net sessionId finalUrl sheets w i).
Proof.
  intros Hw. unfold stylesheet_settled.
  destruct (nth_error sheets i); [|exact Hw].
  destruct (Fetcher.fetchCSS _ _ _ _) as [css|]; [|exact Hw].
  destruct (Js.truthy css); [|exact Hw].
  apply Hstore, Hstore, Hw.
Qed.

Lemma image_settled_keeps finalUrl imgs w i :
  P w -> P (image_settled net sessionId finalUrl imgs w i).
Proof.
  intros Hw. unfold image_settled.
  destruct (nth_error imgs i); [|exact Hw].
  destruct (Fetcher.fetchImage _ _ _ _) as [d|]; [|exact Hw].
  destruct (Js.truthy d); [|exact Hw].
  apply Hstore, Hstore, Hw.
Qed.

Lemma fetch_images_keeps finalUrl imgs i w rs :
  P w -> P (fst (fetch_images net sessionId finalUrl imgs i w rs)).
Proof.
  funelim (fetch_images net sessionId finalUrl imgs i w rs); intros Hw; [|exact Hw].
  match goal with IH : _ -> P _ |- _ => apply IH end.
  apply fold_keeps; [|exact Hw]. intros. now apply image_settled_keeps.
Qed.

Lemma run_keeps finalUrl html w :
  (forall w, P w -> P (snd (getAssetMap w sessionId))) ->
  P w -> P (world (run net sessionId finalUrl html w)).
Proof.
  intros Hget Hw. unfold run.
  set (a := Parser.extractAssets (load html) finalUrl).
  set (w1 := fetch_stylesheets net sessionId finalUrl (Parser.stylesheets a) w).
  assert (Hw1 : P w1).
  { unfold w1, fetch_stylesheets. apply fold_keeps; [|exact Hw].
    intros. now apply stylesheet_settled_keeps. }
  pose proof (fetch_images_keeps finalUrl (Parser.images a) 0 w1 [] Hw1) as Himg.
  destruct (fetch_images net sessionId finalUrl (Parser.images a) 0 w1 [])
    as [w2 results].
  cbn [fst] in Himg. cbn [world]. apply (Hget w2 Himg).
Qed.

End Keeps.

Lemma get_app_fresh {V} (m m' : Dict.t V) k :
  Dict.get m k = None -> Dict.get (m ++ m')%list k = Dict.get m' k.
Proof.
  induction m as [|[k' v'] m IH]; intros Hget; [reflexivity|].
  cbn [Dict.get] in Hget. rewrite <- app_comm_cons. cbn [Dict.get].
  destruct (String.eqb k' k); [discriminate Hget | exact (IH Hget)].
Qed.

(** The store of [w0] with at most the session of the job added. *)
Lemma own_session_storeAsset (w0 w : World) k v :
  Dict.get (store w0) sessionId = None ->
  (store w = store w0 \/ exists s, store w = (store w0 ++ [(sessionId, s)])%list) ->
  store (storeAsset w sessionId k v) = store w0 \/
  exists s, store (storeAsset w sessionId k v) = (store w0 ++ [(sessionId, s)])%list.
Proof.
  intros Hfresh Hw. right. cbn [storeAsset store]. unfold Storage.storeAsset, Dict.has.
  cbv zeta. destruct Hw as [-> | [s ->]].
  - rewrite Hfresh. cbv iota.
    rewrite get_set_same, (set_new _ _ _ Hfresh).
    eexists. apply set_last, Hfresh.
  - rewrite !(get_app_fresh _ _ _ Hfresh). cbn [Dict.get].
    rewrite String.eqb_refl. cbv iota.
    rewrite !(get_app_fresh _ _ _ Hfresh). cbn [Dict.get].
    rewrite String.eqb_refl.
    eexists. apply set_last, Hfresh.
Qed.

Lemma clearSession_own (st : Storage.t) s :
  Dict.get st sessionId = None ->
  Storage.clearSession (st ++ [(sessionId, s)])%list sessionId = st.
Proof.
  intros Hfresh. unfold Storage.clearSession, Dict.has.
  rewrite (get_app_fresh _ _ _ Hfresh). cbn [Dict.get]. rewrite String.eqb_refl.
  rewrite delete_app, (delete_absent _ _ Hfresh). cbn [Dict.delete].
  rewrite String.eqb_refl. apply app_nil_r.
Qed.

Lemma clearSession_absent (st : Storage.t) :
  Dict.get st sessionId = None -> Storage.clearSession st sessionId = st.
Proof.
  intros Hfresh. unfold Storage.clearSession, Dict.has. rewrite Hfresh. reflexivity.
Qed.

(** X13. A job leaves the store as it found it: when the store has no session
    of the id of the job at the start, then whatever the handler replies,
    the store is the same at the end, with every other session in its place
    and nothing left of the job. *)
Theorem job_leaves_the_store (url : option string) (w : World) :
  Dict.get (store w) sessionId = None ->
  store (snd (replicate net sessionId url w)) = store w.
Proof.
  intros Hfresh. unfold replicate.
  destruct url as [u|]; [|reflexivity].
  destruct (Js.truthy u); cbn [negb]; [|reflexivity].
  destruct (URL u None); [|reflexivity].
  destruct (Fetcher.fetchHTML net u) as [error|page]; cbn [snd clearSession store].
  - apply clearSession_absent, Hfresh.
  - pose proof (run_keeps
                  (fun w' => store w' = store w \/
                             exists s, store w' = (store w ++ [(sessionId, s)])%list)
                  (fun w' k v Hw' => own_session_storeAsset w w' k v Hfresh Hw')
                  (Fetcher.finalUrl page) (Fetcher.html page) w
                  (fun w' Hw' => Hw') (or_introl eq_refl)) as [-> | [s ->]].
    + apply clearSession_absent, Hfresh.
    + apply clearSession_own, Hfresh.
Qed.

(** X14. A job keeps to its own session: every call it makes on the storage
    module names the id of the job, and at the end every other session
    holds what it held at the start. *)
Theorem job_keeps_to_its_session (url : option string) (w : World) :
  (exists l,
      calls (snd (replicate net sessionId url w)) = (calls w ++ l)%list /\
      Forall (fun c => session_of c = sessionId) l) /\
  forall other,
    other <> sessionId ->
    Dict.get (store (snd (replicate net sessionId url w))) other =
    Dict.get (store w) other.
Proof.
  set (own := fun w' : World =>
                (exists l, calls w' = (calls w ++ l)%list /\
                           Forall (fun c => session_of c = sessionId) l) /\
                forall other, other <> sessionId ->
                              Dict.get (store w') other = Dict.get (store w) other).
  assert (Hstart : own w).
  { split; [exists []; split; [symmetry; apply app_nil_r | constructor]|].
    reflexivity. }
  assert (Hstore : forall w' k v, own w' -> own (storeAsset w' sessionId k v)).
  { intros w' k v [(l & Hl & Hown) Hother]. split.
    - exists (l ++ [StoreAsset sessionId k v])%list. split.
      + cbn [storeAsset calls]. rewrite Hl. symmetry. apply app_assoc.
      + apply Forall_app. split; [exact Hown | repeat constructor].
    - intros other Hne. cbn [storeAsset store]. rewrite storeAsset_get.
      destruct (String.eqb_spec sessionId other); [congruence | apply Hother, Hne]. }
  assert (Hget : forall w', own w' -> own (snd (getAssetMap w' sessionId))).
  { intros w' [(l & Hl & Hown) Hother]. split; [|exact Hother].
    exists (l ++ [GetAssetMap sessionId])%list. split.
    - cbn [getAssetMap snd calls]. rewrite Hl. symmetry. apply app_assoc.
    - apply Forall_app. split; [exact Hown | repeat constructor]. }
  assert (Hclear : forall w', own w' -> own (clearSession w' sessionId)).
  { intros w' [(l & Hl & Hown) Hother]. split.
    - exists (l ++ [ClearSession sessionId])%list. split.
      + cbn [clearSession calls]. rewrite Hl. symmetry. apply app_assoc.
      + apply Forall_app. split; [exact Hown | repeat constructor].
    - intros other Hne. cbn [clearSession store]. rewrite clearSession_get.
      destruct (String.eqb_spec sessionId other); [congruence | apply Hother, Hne]. }
  change (own (snd (replicate net sessionId url w))).
  unfold replicate.
  destruct url as [u|]; [|exact Hstart].
  destruct (Js.truthy u); cbn [negb]; [|exact Hstart].
  destruct (URL u None); [|exact Hstart].
  destruct (Fetcher.fetchHTML net u) as [error|page]; cbn [snd].
  - apply Hclear, Hstart.
  - apply Hclear, run_keeps; assumption.
Qed.


End OwnSession.

(** ** routes/replicate.js: what a job fetches and what it keeps *)

Section Fetched.
Import Replicate.
Context {url_api : UrlApi} {cheerio : Cheerio} {robots : Robots} {buffer : Base64}.
Variable net : Fetcher.Network.
Variable sessionId : string.
Variable finalUrl : string.










(** X18. STEP 5 of the handler rewrites the entries of the stylesheets and no
    other: under a key that is neither the literal text nor the absolute
    form of a stylesheet, the map that the rewriting works with has what
    the asset map of the session has. *)
Theorem processed_keeps_other_entries
    (assets : Parser.Assets) (assetMap : Dict.t string) (key : string) :
  (forall sheet, In sheet (Parser.stylesheets assets) ->
                 Parser.original sheet <> key /\ Parser.absolute sheet <> key) ->
  Dict.get (processedAssetMap finalUrl assets assetMap) key = Dict.get assetMap key.
Proof.
  unfold processedAssetMap. intros Hkey.
  rewrite <- (get_spread assetMap key).
  generalize (spread assetMap) as processed.
  induction (Parser.stylesheets assets) as [|sheet sheets IH]; intros processed;
    [reflexivity|].
  cbn [fold_left]. rewrite IH by (intros s Hs; apply Hkey; right; exact Hs).
  destruct (Hkey sheet (or_introl eq_refl)) as [Horiginal Habsolute].
  destruct (Js.or_else _ _) as [css|]; [|reflexivity].
  destruct (Js.truthy css); [|reflexivity].
  rewrite !get_set_other by assumption. reflexivity.
Qed.

End Fetched.

Section Offline.
Import Replicate.
Context {url_api : UrlApi} {cheerio : Cheerio} {robots : Robots} {buffer : Base64}.


End Offline.

(** ** Round trips *)

Section RoundTrips.
Context {url_api : UrlApi} {buffer : Base64}.


(** X20. What the fetcher returns for an image or another asset is inline
    already: it is never empty and starts with [data:], so that
    [resolveUrl] returns it unchanged whatever the base URL and
    [extractAssets] lists it in no document. *)
Theorem fetched_data_is_inline
    (net : Fetcher.Network) (request : string -> Fetcher.Outcome)
    (i : nat) (url refererUrl dataUrl : string) :
  Fetcher.fetchImage net i url refererUrl = Some dataUrl \/
  Fetcher.fetchAsset request url refererUrl = Some dataUrl ->
  Js.truthy dataUrl = true /\
  Js.startsWith dataUrl "data:" = true /\
  (forall baseUrl, Parser.resolveUrl dataUrl baseUrl = dataUrl) /\
  (forall doc baseUrl,
      ~ In dataUrl (map Parser.original
                        (Parser.images (Parser.extractAssets doc baseUrl) ++
                         Parser.stylesheets (Parser.extractAssets doc baseUrl)))).
Proof.
  intros Hfetch.
  assert (Hdata : Js.startsWith dataUrl "data:" = true).
  { destruct Hfetch as [Hfetch | Hfetch].
    - unfold Fetcher.fetchImage in Hfetch.
      destruct (Fetcher.get_image net i url); [discriminate Hfetch|].
      injection Hfetch as <-. reflexivity.
    - unfold Fetcher.fetchAsset in Hfetch.
      destruct (request url); [discriminate Hfetch|].
      injection Hfetch as <-. reflexivity. }
  repeat split.
  - unfold Js.startsWith in Hdata. destruct dataUrl; [discriminate Hdata | reflexivity].
  - exact Hdata.
  - intros baseUrl. apply resolveUrl_data, Hdata.
  - intros doc baseUrl Hin. apply in_map_iff in Hin as (r & <- & Hr).
    apply in_app_or in Hr. apply (extractAssets_fetchable doc baseUrl) in Hr.
    unfold fetchable in Hr. congruence.
Qed.



Lemma replace_from_absent pat repl s before :
  Js.includes s pat = false -> Js.replace_from pat repl 0 before s = s.
Proof.
  revert before. induction s as [|c s IH]; intros before Hs.
  - cbn [Js.includes] in Hs. cbn [Js.replace_from].
    destruct pat; [discriminate Hs | reflexivity].
  - cbn [Js.includes] in Hs. cbn [Js.replace_from].
    destruct (Js.strip_prefix pat (String c s)); [discriminate Hs|].
    rewrite (IH _ Hs). reflexivity.
Qed.

Lemma select_of_elems sel d t a :
  In (t, a) (elems d) -> sel t a = true -> exists cs, In (Elem t a cs) (select sel d).
Proof.
  unfold elems, select. intros Hin Hsel.
  apply in_flat_map in Hin as (n & Hn & Hin).
  assert (Hnode : exists cs, In (Elem t a cs) (select_node sel n)).
  { clear Hn. revert Hin.
    induction n as [t0 a0 cs0 IHcs | s0 | m0] using node_ind'; intros Hin;
      [|destruct Hin..].
    cbn [elems_node] in Hin. cbn [select_node]. destruct Hin as [E | Hin].
    - injection E as -> ->. rewrite Hsel. exists cs0. left. reflexivity.
    - apply in_flat_map in Hin as (c & Hc & Hin).
      rewrite Forall_forall in IHcs. destruct (IHcs c Hc Hin) as [cs Hcs].
      exists cs. apply in_or_app. right. apply in_flat_map. eauto. }
  destruct Hnode as [cs Hcs]. exists cs. apply in_flat_map. eauto.
Qed.

(** X22. No image and no stylesheet link of the page is overlooked: the
    [src] of every [img] element and the [href] of every stylesheet
    link, when it is not empty and not in the data scheme, is the
    literal text of a reference that [extractAssets] returns. *)
Theorem extraction_complete (doc : forest) (baseUrl : string) (a : attrs) (url : string) :
  Js.truthy url = true ->
  Js.startsWith url "data:" = false ->
  (In ("img", a) (elems doc) -> Dict.get a "src" = Some url ->
   In (Parser.asset false false url baseUrl)
      (Parser.images (Parser.extractAssets doc baseUrl))) /\
  (In ("link", a) (elems doc) -> Dict.get a "rel" = Some "stylesheet" ->
   Dict.get a "href" = Some url ->
   In (Parser.asset false false url baseUrl)
      (Parser.stylesheets (Parser.extractAssets doc baseUrl))).
Proof.
  intros Hurl Hdata. cbn [Parser.extractAssets Parser.images Parser.stylesheets]. split.
  - intros Hin Hsrc. apply in_or_app. left.
    destruct (select_of_elems (tag_with "img" "src") doc "img" a Hin) as [cs Hcs].
    { unfold tag_with, Dict.has. rewrite Hsrc. reflexivity. }
    apply in_flat_map. exists (Elem "img" a cs). split; [exact Hcs|].
    cbn [Parser.image_sources]. rewrite Hsrc, Hurl, Hdata. left. reflexivity.
  - intros Hin Hrel Hhref. apply in_or_app. left.
    destruct (select_of_elems (tag_attr_is "link" "rel" "stylesheet") doc "link" a Hin)
      as [cs Hcs].
    { unfold tag_attr_is. rewrite Hrel. reflexivity. }
    apply in_flat_map. exists (Elem "link" a cs). split; [exact Hcs|].
    cbn [Parser.linked_stylesheets]. rewrite Hhref, Hurl, Hdata. left. reflexivity.
Qed.

(** X23. [rewriteAssets] on the [style] attributes: a [style] in which no
    key of the asset map occurs is left as it is. *)
Theorem style_without_references_kept
    (doc : forest) (assetMap : Dict.t string) (baseUrl : option string) :
  Forall2
    (fun e e' =>
       forall style,
         Dict.get (snd e) "style" = Some style ->
         (forall key, In key (Dict.keys assetMap) -> Js.includes style key = false) ->
         Dict.get (snd e') "style" = Some style)
    (Doc.outside (Doc.inlined assetMap baseUrl) doc)
    (elems (Parser.rewriteAssets doc assetMap baseUrl)).
Proof.
  rewrite elems_outside, outside_rewriteAssets. cbv beta.
  rewrite (outside_ext
             (fun t a => Doc.inlined assetMap baseUrl t (substitute assetMap t a) || false)
             (Doc.inlined assetMap baseUrl))
    by (intros t a; rewrite orb_false_r; apply inlined_substitute).
  apply Forall2_map_r. intros [t a] _. cbn [lift fst snd].
  intros style Hstyle Hkeys. unfold substitute.
  set (a1 := on (tag_with "img" "src") (Parser.rewrite_src assetMap) t a).
  assert (Hstyle1 : Dict.get a1 "style" = Some style).
  { unfold a1, on. destruct (tag_with "img" "src" t a); [|exact Hstyle].
    rewrite get_rewrite_src by discriminate. exact Hstyle. }
  unfold on. destruct (attr_contains "style" "background" t a1); [|exact Hstyle1].
  unfold Parser.rewrite_style. rewrite Hstyle1, get_set_same. f_equal.
  assert (Hown : forall key, In key (ObjectKeys.own assetMap) ->
                             Js.includes style key = false).
  { intros key Hin. apply Hkeys, in_own, Hin. }
  induction (ObjectKeys.own assetMap) as [|key keys IH]; [reflexivity|].
  cbn [fold_left].
  replace (match Dict.get assetMap key with
           | Some v => Js.replaceAll style key v
           | None => style
           end) with style.
  - apply IH. intros k Hk. apply Hown. right. exact Hk.
  - destruct (Dict.get assetMap key); [|reflexivity].
    symmetry. apply replace_from_absent, Hown. left. reflexivity.
Qed.

End RoundTrips.

(** ** routes/replicate.js: the images of the replica *)

Section Inlined.
Import Replicate.
Context {url_api : UrlApi} {cheerio : Cheerio} {robots : Robots} {buffer : Base64}.
Variable net : Fetcher.Network.
Variable sessionId : string.
Variable finalUrl : string.



End Inlined.

(** ** The further properties on the sample pages *)

Section FurtherWitnesses.
Import Parser Fetcher Replicate.

Lemma generated_session_expiry_witness :
  Storage.expired 1730490700123 (Storage.generateSessionId 1730487000123 "k3j2h1g0f") =
    true /\
  forall store,
    Dict.get (Storage.cleanup 1730490700123 store)
             (Storage.generateSessionId 1730487000123 "k3j2h1g0f") = None.
Proof.
  exact (generated_session_expiry 1730487000123 1730490700123 "k3j2h1g0f" eq_refl).
Defined.

Lemma session_without_timestamp_stays_witness :
  Dict.get
    (fold_left (fun store now => Storage.cleanup now store)
               [1730490700123; 1730494300123]%N
               [("job-1", [("/a.png", Sample.png)])])
    "job-1" =
  Some [("/a.png", Sample.png)].
Proof.
  exact (session_without_timestamp_stays
           "job-1" [1730490700123; 1730494300123]%N
           [("job-1", [("/a.png", Sample.png)])] eq_refl).
Defined.

Lemma cleanup_composes_witness :
  (Storage.expired 1730490700123 "session_1730487000123_k3j2h1g0f" = true ->
   Storage.expired 1730494300123 "session_1730487000123_k3j2h1g0f" = true) /\
  Dict.get
    (Storage.cleanup 1730494300123
       (Storage.cleanup 1730490700123
          [("session_1730487000123_k3j2h1g0f", [("/a.png", Sample.png)])]))
    "session_1730487000123_k3j2h1g0f" =
  Dict.get
    (Storage.cleanup 1730494300123
       [("session_1730487000123_k3j2h1g0f", [("/a.png", Sample.png)])])
    "session_1730487000123_k3j2h1g0f".
Proof.
  apply (cleanup_composes 1730490700123 1730494300123
           [("session_1730487000123_k3j2h1g0f", [("/a.png", Sample.png)])]
           "session_1730487000123_k3j2h1g0f").
  discriminate.
Defined.

Lemma resolve_protocol_relative_witness :
  @resolveUrl Sample.url_api "//cdn/a.png" "http://h/" = "http://cdn/a.png" /\
  @resolveUrl Sample.url_api (@resolveUrl Sample.url_api "//cdn/a.png" "http://h/")
              "http://h/" =
  @resolveUrl Sample.url_api "//cdn/a.png" "http://h/".
Proof.
  destruct (proj2 (@resolve_protocol_relative Sample.url_api "//cdn/a.png" "http://h/"
                     eq_refl)
                  {| href := "http://h/"; protocol := "http:"; host := "h" |} eq_refl)
    as [Hresolved Hagain].
  split; [exact Hresolved | exact (Hagain (or_introl eq_refl))].
Defined.

Lemma job_leaves_the_store_witness :
  store (snd (@replicate Sample.url_api (Sample.cheerio Sample.plain_page)
                         Sample.robots Sample.buffer (Sample.network [])
                         "session_2" (Some "http://h/")
                         {| store := [("session_1", [("/a.png", Sample.png)])];
                            calls := [] |})) =
  [("session_1", [("/a.png", Sample.png)])].
Proof.
  exact (@job_leaves_the_store
           Sample.url_api (Sample.cheerio Sample.plain_page) Sample.robots Sample.buffer
           (Sample.network []) "session_2" (Some "http://h/")
           {| store := [("session_1", [("/a.png", Sample.png)])]; calls := [] |}
           eq_refl).
Defined.




Lemma processed_keeps_other_entries_witness :
  Dict.get
    (@processedAssetMap Sample.url_api "http://h/"
       {| images := []; stylesheets := [@asset Sample.url_api false false "b.css" "http://h/"] |}
       [("b.css", "body{color:red}"); ("a.png", Sample.png)])
    "a.png" =
  Some Sample.png.
Proof.
  apply (@processed_keeps_other_entries
           Sample.url_api "http://h/"
           {| images := []; stylesheets := [@asset Sample.url_api false false "b.css" "http://h/"] |}
           [("b.css", "body{color:red}"); ("a.png", Sample.png)] "a.png").
  intros sheet [<- | []]. split; discriminate.
Defined.

Lemma fetched_data_is_inline_witness :
  Js.truthy Sample.png = true /\
  Js.startsWith Sample.png "data:" = true /\
  (forall baseUrl, @resolveUrl Sample.url_api Sample.png baseUrl = Sample.png) /\
  (forall doc baseUrl,
      ~ In Sample.png
           (map original
                (images (@extractAssets Sample.url_api doc baseUrl) ++
                 stylesheets (@extractAssets Sample.url_api doc baseUrl)))).
Proof.
  exact (@fetched_data_is_inline
           Sample.url_api Sample.buffer (Sample.network []) (fun _ => Sample.timeout)
           0 "http://h/a.png" "http://h/" Sample.png (or_introl eq_refl)).
Defined.

Lemma extraction_complete_witness :
  In (@asset Sample.url_api false false "a.png" "http://h/")
     (images (@extractAssets Sample.url_api Sample.plain_page "http://h/")) /\
  In (@asset Sample.url_api false false "b.css" "http://h/")
     (stylesheets (@extractAssets Sample.url_api Sample.plain_page "http://h/")).
Proof.
  split.
  - apply (proj1 (@extraction_complete Sample.url_api Sample.plain_page "http://h/"
                    [("src", "a.png")] "a.png" eq_refl eq_refl)).
    + do 4 right. left. reflexivity.
    + reflexivity.
  - apply (proj2 (@extraction_complete Sample.url_api Sample.plain_page "http://h/"
                    [("rel", "stylesheet"); ("href", "b.css")] "b.css" eq_refl eq_refl)).
    + do 2 right. left. reflexivity.
    + reflexivity.
    + reflexivity.
Defined.

End FurtherWitnesses.

(** ** parser.js: formatHTML *)

Section Formatting.

(** [t] occurs in [s]. *)
Lemma includes_intro pre t post : Js.includes (pre ++ t ++ post) t = true.
Proof.
  induction pre as [|c pre IH].
  - cbn [append]. destruct t as [|a t]; [destruct post; reflexivity|].
    cbn [append Js.includes].
    change (String a (t ++ post)) with (String a t ++ post).
    rewrite strip_prefix_append. reflexivity.
  - cbn [append Js.includes].
    destruct (Js.strip_prefix t (String c (pre ++ t ++ post))); [reflexivity | exact IH].
Qed.

Lemma startsWith_prefix s p : Js.startsWith s p = true -> exists post, s = p ++ post.
Proof.
  unfold Js.startsWith. destruct (Js.strip_prefix p s) as [post|] eqn:E; [|discriminate].
  intros _. exists post. apply strip_prefix_some, E.
Qed.

Lemma trim_start_suffix s : exists pre, s = pre ++ Js.trim_start s.
Proof.
  assert (Hall : forall n s, String.length s <= n -> exists pre, s = pre ++ Js.trim_start s).
  { intros n. induction n as [|n IH]; intros s0 Hlen.
    - destruct s0; [exists ""; reflexivity | simpl in Hlen; lia].
    - destruct s0 as [|c1 s1]; [exists ""; reflexivity|].
      cbn [Js.trim_start]. simpl in Hlen.
      destruct (Js.white_space c1).
      { destruct (IH s1 ltac:(lia)) as [pre Hpre].
        exists (String c1 pre). cbn [append]. f_equal. exact Hpre. }
      destruct s1 as [|c2 s2]; [exists ""; reflexivity|]. simpl in Hlen.
      destruct (Js.white_space2 c1 c2).
      { destruct (IH s2 ltac:(lia)) as [pre Hpre].
        exists (String c1 (String c2 pre)). cbn [append]. do 2 f_equal. exact Hpre. }
      destruct s2 as [|c3 s3]; [exists ""; reflexivity|]. simpl in Hlen.
      destruct (Js.white_space3 c1 c2 c3); [|exists ""; reflexivity].
      destruct (IH s3 ltac:(lia)) as [pre Hpre].
      exists (String c1 (String c2 (String c3 pre))). cbn [append]. do 3 f_equal.
      exact Hpre. }
  exact (Hall (String.length s) s (le_n _)).
Qed.

Lemma trim_end_prefix s : exists post, s = Js.trim_end s ++ post.
Proof.
  induction s as [|c s IH]; [exists ""; reflexivity|].
  cbn [Js.trim_end].
  destruct (Js.trim_start (String c s)); [exists (String c s); reflexivity|].
  destruct IH as [post Hpost]. exists post. cbn [append]. f_equal. exact Hpost.
Qed.

Lemma trim_occurs s : exists pre post, s = pre ++ Js.trim s ++ post.
Proof.
  unfold Js.trim. destruct (trim_start_suffix s) as [pre Hpre].
  destruct (trim_end_prefix (Js.trim_start s)) as [post Hpost].
  exists pre, post. rewrite <- Hpost. exact Hpre.
Qed.

(** What starts the trimmed text of a part occurs in the part. *)
Lemma trim_startsWith s p :
  Js.startsWith (Js.trim s) p = true -> Js.includes s p = true.
Proof.
  intros Hp. apply startsWith_prefix in Hp as [rest Hrest].
  destruct (trim_occurs s) as (pre & post & Hs).
  rewrite Hs, Hrest, append_assoc. apply includes_intro.
Qed.

Lemma includes_tail c s p : Js.includes (String c s) p = false -> Js.includes s p = false.
Proof.
  cbn [Js.includes]. destruct (Js.strip_prefix p (String c s)); [discriminate|].
  intros H. exact H.
Qed.

Lemma includes_ci_tail c s p :
  Js.includes_ci (String c s) p = false -> Js.includes_ci s p = false.
Proof.
  cbn [Js.includes_ci]. destruct (Js.strip_prefix_ci true p (String c s)); [discriminate|].
  intros H. exact H.
Qed.

(** Without a style block the replacement returns the text as it is. *)
Lemma replace_without_style {S : Type} (fn : S -> string -> Rx.captures -> S * string)
    (state : S) s :
  Js.includes_ci s "<style" = false ->
  Rx.replace true Rx.style_block fn state s = (state, s).
Proof.
  unfold Rx.replace.
  assert (Hstart : forall s, Js.includes_ci s "<style" = false ->
                             Rx.at_start true Rx.style_block s = None).
  { intros s0 Hs0. unfold Rx.at_start, Rx.style_block. cbn [Rx.run].
    destruct s0 as [|c s0]; [reflexivity|].
    cbn [Js.includes_ci] in Hs0.
    destruct (Js.strip_prefix_ci true "<style" (String c s0)); [discriminate Hs0|].
    reflexivity. }
  induction s as [|c s IH]; intros Hs.
  - cbn [Rx.replace_from]. rewrite (Hstart "" Hs). reflexivity.
  - cbn [Rx.replace_from]. rewrite (Hstart _ Hs), (IH (includes_ci_tail _ _ _ Hs)).
    reflexivity.
Qed.

Lemma includes_elim s p :
  Js.includes s p = true -> exists pre post, s = pre ++ p ++ post.
Proof.
  induction s as [|c s IH]; cbn [Js.includes].
  - destruct (Js.strip_prefix p "") as [post|] eqn:E; [|discriminate].
    intros _. exists "", post. exact (strip_prefix_some _ _ _ E).
  - destruct (Js.strip_prefix p (String c s)) as [post|] eqn:E.
    + intros _. exists "", post. exact (strip_prefix_some _ _ _ E).
    + intros Hs. destruct (IH Hs) as (pre & post & ->).
      exists (String c pre), post. reflexivity.
Qed.

Lemma includes_within pre t post p :
  Js.includes t p = true -> Js.includes (pre ++ t ++ post) p = true.
Proof.
  intros Ht. apply includes_elim in Ht as (a & b & ->).
  replace (pre ++ (a ++ p ++ b) ++ post) with ((pre ++ a) ++ p ++ (b ++ post))
    by (rewrite !append_assoc; reflexivity).
  apply includes_intro.
Qed.

Lemma strip_prefix_ci_rest ci l s s' :
  Js.strip_prefix_ci ci l s = Some s' -> exists m, s = m ++ s'.
Proof.
  revert s. induction l as [|a l IH]; intros s Hs; cbn [Js.strip_prefix_ci] in Hs.
  - injection Hs as ->. exists "". reflexivity.
  - destruct s as [|b s]; [discriminate Hs|].
    destruct (if ci then Ascii.eqb (Js.upper a) (Js.upper b) else Ascii.eqb a b);
      [|discriminate Hs].
    destruct (IH s Hs) as [m ->]. exists (String b m). reflexivity.
Qed.

Lemma star_rest p s k x :
  Rx.star p s k = Some x -> exists m rest, s = m ++ rest /\ k rest = Some x.
Proof.
  revert x. induction s as [|c s IH]; intros x Hx; cbn [Rx.star] in Hx.
  - exists "", "". split; [reflexivity | exact Hx].
  - destruct (p c).
    + destruct (Rx.star p s k) as [y|] eqn:E.
      * injection Hx as <-. destruct (IH y eq_refl) as (m & rest & -> & Hk).
        exists (String c m), rest. split; [reflexivity | exact Hk].
      * exists "", (String c s). split; [reflexivity | exact Hx].
    + exists "", (String c s). split; [reflexivity | exact Hx].
Qed.

Lemma lazy_star_rest p s k x :
  Rx.lazy_star p s k = Some x -> exists m rest, s = m ++ rest /\ k rest = Some x.
Proof.
  revert x. induction s as [|c s IH]; intros x Hx; cbn [Rx.lazy_star] in Hx.
  - destruct (k "") as [y|] eqn:E; [|discriminate Hx].
    exists "", "". split; [reflexivity | congruence].
  - destruct (k (String c s)) as [y|] eqn:E.
    + exists "", (String c s). split; [reflexivity | congruence].
    + destruct (p c); [|discriminate Hx].
      destruct (IH x Hx) as (m & rest & -> & Hk).
      exists (String c m), rest. split; [reflexivity | exact Hk].
Qed.

(** A match hands the rest of the input to what follows. *)
Lemma run_rest ci r :
  forall s caps k x,
    Rx.run ci r s caps k = Some x ->
    exists m rest caps', s = m ++ rest /\ k rest caps' = Some x.
Proof.
  induction r as [l | p | p | p | r1 IH1 r2 IH2 | r1 IH1 r2 IH2 | i r IH];
    intros s caps k x Hx; cbn [Rx.run] in Hx.
  - destruct (Js.strip_prefix_ci ci l s) as [s'|] eqn:E; [|discriminate Hx].
    destruct (strip_prefix_ci_rest _ _ _ _ E) as [m ->]. eauto.
  - destruct s as [|c s]; [discriminate Hx|].
    destruct (p c); [|discriminate Hx].
    exists (String c ""), s, caps. split; [reflexivity | exact Hx].
  - apply star_rest in Hx as (m & rest & -> & Hk). eauto.
  - apply lazy_star_rest in Hx as (m & rest & -> & Hk). eauto.
  - apply IH1 in Hx as (m1 & rest1 & caps1 & -> & Hx).
    apply IH2 in Hx as (m2 & rest2 & caps2 & -> & Hx).
    exists (m1 ++ m2), rest2, caps2. split; [symmetry; apply append_assoc | exact Hx].
  - destruct (Rx.run ci r1 s caps k) as [y|] eqn:E.
    + injection Hx as <-. apply (IH1 _ _ _ _ E).
    + apply (IH2 _ _ _ _ Hx).
  - apply IH in Hx as (m & rest & caps' & -> & Hx). eauto.
Qed.

Lemma group_at_start ci i r s rest caps :
  Rx.at_start ci (Rx.Group i r) s = Some (rest, caps) ->
  exists m, s = m ++ rest /\ Rx.cap i caps = Some m.
Proof.
  unfold Rx.at_start.
  change (Rx.run ci (Rx.Group i r) s [] (fun rest caps => Some (rest, caps)))
    with (Rx.run ci r s [] (fun s' caps' => Some (s', (i, Js.consumed s s') :: caps'))).
  intros Hx. apply run_rest in Hx as (m & rest' & caps' & -> & Hx).
  injection Hx as <- <-. exists m. split; [reflexivity|].
  rewrite consumed_append. unfold Rx.cap. cbn [find fst snd].
  rewrite Nat.eqb_refl. reflexivity.
Qed.

Lemma tag_at_start s rest caps :
  Rx.at_start false Rx.tag s = Some (rest, caps) ->
  exists m, s = m ++ rest /\ Rx.cap 1 caps = Some m.
Proof. apply group_at_start. Qed.

Lemma split_skip ci r n m rest piece :
  Rx.split_from ci r n (String.length m) piece (m ++ rest) =
  Rx.split_from ci r n 0 piece rest.
Proof.
  induction m as [|c m IH]; [destruct rest; reflexivity|].
  cbn [String.length append Rx.split_from]. exact IH.
Qed.

(** Every part that the split gives is a piece of the text. *)
Lemma split_from_parts n0 :
  forall s piece part,
    String.length s <= n0 ->
    In part (Rx.split_from false Rx.tag 1 0 piece s) ->
    exists text, part = Some text /\ exists pre post, piece ++ s = pre ++ text ++ post.
Proof.
  assert (Hpiece : forall piece s, exists pre post, piece ++ s = pre ++ piece ++ post)
    by (intros piece s; exists "", s; reflexivity).
  induction n0 as [|n0 IH]; intros s piece part Hlen Hin.
  { destruct s; [|simpl in Hlen; lia].
    destruct Hin as [<- | []]. exists piece. split; [reflexivity | apply Hpiece]. }
  destruct s as [|c s'].
  { destruct Hin as [<- | []]. exists piece. split; [reflexivity | apply Hpiece]. }
  simpl in Hlen. cbn [Rx.split_from] in Hin.
  destruct (Rx.at_start false Rx.tag (String c s')) as [[rest caps]|] eqn:E.
  - destruct (tag_at_start _ _ _ E) as (m & Hs & Hcap).
    rewrite Hs, consumed_append in Hin.
    assert (Hgroups : Rx.groups 1 caps = [Some m])
      by (unfold Rx.groups; cbn [seq map]; rewrite Hcap; reflexivity).
    rewrite Hgroups in Hin.
    assert (Hchar : forall p0,
               In p0 (Rx.split_from false Rx.tag 1 0 (String c "") s') ->
               exists text, p0 = Some text /\
                            exists pre post, piece ++ String c s' = pre ++ text ++ post).
    { intros p0 Hp0.
      destruct (IH s' (String c "") p0 ltac:(lia) Hp0) as (text & -> & pre & post & Htext).
      exists text. split; [reflexivity|]. exists (piece ++ pre), post.
      cbn [append] in Htext. rewrite Htext, !append_assoc. reflexivity. }
    assert (Hm : exists pre post, piece ++ String c s' = pre ++ m ++ post)
      by (exists piece, rest; rewrite Hs; reflexivity).
    destruct m as [|a m'].
    + destruct piece as [|b piece'].
      * apply Hchar, Hin.
      * destruct Hin as [<- | [<- | Hin]].
        -- eexists. split; [reflexivity | apply Hpiece].
        -- eexists. split; [reflexivity | exact Hm].
        -- apply Hchar, Hin.
    + destruct Hin as [<- | [<- | Hin]].
      * eexists. split; [reflexivity | apply Hpiece].
      * eexists. split; [reflexivity | exact Hm].
      * cbn [append] in Hs. injection Hs as Hc Hs'.
        rewrite Hs', split_skip in Hin.
        assert (Hshort : String.length rest <= n0).
        { rewrite Hs', length_append in Hlen. lia. }
        destruct (IH rest "" part Hshort Hin) as (text & -> & pre & post & Htext).
        exists text. split; [reflexivity|].
        exists (piece ++ String c m' ++ pre), post. cbn [append] in Htext.
        rewrite Hs', Htext, ?append_assoc. cbn [append].
        rewrite ?append_assoc. reflexivity.
  - destruct (IH s' (piece ++ String c "") part ltac:(lia) Hin)
      as (text & -> & pre & post & Htext).
    exists text. split; [reflexivity|]. exists pre, post.
    rewrite <- Htext, append_assoc. reflexivity.
Qed.

Lemma split_parts s part :
  In part (Rx.split false Rx.tag 1 s) ->
  exists text, part = Some text /\ exists pre post, s = pre ++ text ++ post.
Proof.
  destruct s as [|c s'].
  - intros [<- | []]. exists "". split; [reflexivity|]. exists "", "". reflexivity.
  - intros Hin. apply (split_from_parts _ _ "" part (le_n _) Hin).
Qed.

Lemma split_without_tags s : Js.includes s "<" = false -> Rx.split false Rx.tag 1 s = [Some s].
Proof.
  assert (Hstart : forall c s, Js.includes (String c s) "<" = false ->
                               Rx.at_start false Rx.tag (String c s) = None).
  { intros c s0 Hs0. cbn [Js.includes Js.strip_prefix] in Hs0.
    unfold Rx.at_start, Rx.tag. cbn [Rx.run Js.strip_prefix_ci].
    destruct (Ascii.eqb "<" c); [discriminate Hs0 | reflexivity]. }
  assert (Hfrom : forall s piece, Js.includes s "<" = false ->
                                  Rx.split_from false Rx.tag 1 0 piece s = [Some (piece ++ s)]).
  { intros s0. induction s0 as [|c s0 IH]; intros piece Hs0.
    - cbn [Rx.split_from]. rewrite append_nil_r. reflexivity.
    - cbn [Rx.split_from]. rewrite (Hstart c s0 Hs0), (IH _ (includes_tail _ _ _ Hs0)).
      rewrite append_assoc. reflexivity. }
  intros Hs. destruct s as [|c s']; [reflexivity|].
  unfold Rx.split. apply (Hfrom (String c s') "" Hs).
Qed.

Lemma upper_not_lt c : Ascii.eqb "<" c = false -> Ascii.eqb (Js.upper "<") (Js.upper c) = false.
Proof.
  destruct c as [[] [] [] [] [] [] [] []]; intros Hc; try discriminate Hc; reflexivity.
Qed.

Lemma without_tags_without_style s :
  Js.includes s "<" = false -> Js.includes_ci s "<style" = false.
Proof.
  induction s as [|c s IH]; intros Hs; [reflexivity|].
  cbn [Js.includes_ci Js.strip_prefix_ci].
  cbn [Js.includes Js.strip_prefix] in Hs.
  destruct (Ascii.eqb "<" c) eqn:E; [discriminate Hs|].
  rewrite (upper_not_lt c E). apply IH, Hs.
Qed.

(** With nothing preserved, a part throws when its text, trimmed, starts
    like a placeholder, and returns otherwise. *)
Lemma format_part_nothing_preserved state text :
  Parser.format_part [] state (Some text) = None <->
  Js.startsWith (Js.trim text) "___STYLE_" = true.
Proof.
  unfold Parser.format_part. destruct state as [formatted indent].
  destruct (Js.trim text) as [|c part] eqn:Etrim.
  { cbn [Js.truthy negb]. split; discriminate. }
  cbn [Js.truthy negb].
  destruct (Js.startsWith (String c part) "___STYLE_") eqn:E.
  - split; [reflexivity|]. intros _.
    destruct (Rx.exec false Rx.style_placeholder (String c part)) as [caps|]; [|reflexivity].
    destruct (Js.parseInt _) as [index|]; [|reflexivity].
    destruct (index <? 0)%Z; [reflexivity|].
    destruct (Z.to_nat index); reflexivity.
  - split; [|discriminate]. intros Hnone. exfalso.
    destruct (Js.startsWith (String c part) "<"); [|discriminate Hnone].
    destruct (Js.startsWith (String c part) "</"); [discriminate Hnone|].
    destruct (Js.endsWith _ _ || _); discriminate Hnone.
Qed.

Lemma format_parts_nothing_preserved parts :
  (forall part, In part parts -> exists text, part = Some text) ->
  forall state,
    Parser.format_parts [] state parts = None <->
    Exists (fun part => exists text,
                part = Some text /\
                Js.startsWith (Js.trim text) "___STYLE_" = true) parts.
Proof.
  induction parts as [|part parts IH]; intros Hparts state.
  - cbn [Parser.format_parts]. split; [discriminate | intros H; inversion H].
  - destruct (Hparts part (or_introl eq_refl)) as [text ->].
    assert (Hrest : forall p0, In p0 parts -> exists t0, p0 = Some t0)
      by (intros p0 Hp0; apply Hparts; right; exact Hp0).
    cbn [Parser.format_parts].
    destruct (Parser.format_part [] state (Some text)) as [state'|] eqn:E.
    + rewrite (IH Hrest state'). split.
      * intros Hex. right. exact Hex.
      * intros Hex. inversion Hex as [? ? (t0 & Ht0 & Hbad) | ? ? Hex']; subst;
          [|exact Hex'].
        injection Ht0 as <-.
        apply format_part_nothing_preserved with (state := state) in Hbad. congruence.
    + split; [|reflexivity]. intros _. left. exists text. split; [reflexivity|].
      apply (proj1 (format_part_nothing_preserved state text) E).
Qed.

(** X26. [formatHTML] on a text without style block.  It throws exactly when
    one of the parts that the tags separate has a text that, trimmed,
    starts with [___STYLE_]: there is no block behind such a placeholder.
    So it returns whenever [___STYLE_] does not occur in the text. *)
Theorem formatHTML_without_style_blocks (html : string) :
  Js.includes_ci html "<style" = false ->
  (Parser.formatHTML html = None <->
   Exists (fun part => exists text,
               part = Some text /\
               Js.startsWith (Js.trim text) "___STYLE_" = true)
          (Rx.split false Rx.tag 1 html)) /\
  (Js.includes html "___STYLE_" = false -> Parser.formatHTML html <> None).
Proof.
  intros Hstyle.
  assert (Hparts : forall part, In part (Rx.split false Rx.tag 1 html) ->
                                exists text, part = Some text).
  { intros part Hin. destruct (split_parts html part Hin) as (text & -> & _). eauto. }
  assert (Hthrows :
            Parser.formatHTML html = None <->
            Exists (fun part => exists text,
                        part = Some text /\
                        Js.startsWith (Js.trim text) "___STYLE_" = true)
                   (Rx.split false Rx.tag 1 html)).
  { unfold Parser.formatHTML. rewrite (replace_without_style _ _ _ Hstyle).
    rewrite <- (format_parts_nothing_preserved _ Hparts ("", 0)).
    destruct (Parser.format_parts [] ("", 0) (Rx.split false Rx.tag 1 html)) as [[f i]|];
      split; congruence. }
  split; [exact Hthrows|].
  intros Hplain Hnone. apply Hthrows in Hnone.
  apply Exists_exists in Hnone as (part & Hin & text & -> & Hbad).
  destruct (split_parts html (Some text) Hin) as (text' & Heq & pre & post & Hhtml).
  injection Heq as <-.
  apply trim_startsWith in Hbad.
  rewrite Hhtml, (includes_within pre text post _ Hbad) in Hplain. discriminate Hplain.
Qed.

(** X27. [formatHTML] on a text without tag.  The result is the text,
    trimmed, on a line of its own, and nothing for a text that is all
    white space; a text that starts like a placeholder makes the function
    throw. *)
Theorem formatHTML_plain_text (html : string) :
  Js.includes html "<" = false ->
  Parser.formatHTML html =
  if negb (Js.truthy (Js.trim html)) then Some ""
  else if Js.startsWith (Js.trim html) "___STYLE_" then None
  else Some (Js.trim html ++ Js.nl).
Proof.
  intros Hplain. unfold Parser.formatHTML.
  rewrite (replace_without_style _ _ _ (without_tags_without_style _ Hplain)).
  rewrite (split_without_tags _ Hplain). cbn [Parser.format_parts].
  destruct (Js.startsWith (Js.trim html) "___STYLE_") eqn:Eplaceholder.
  - rewrite (proj2 (format_part_nothing_preserved ("", 0) html) Eplaceholder).
    destruct (Js.trim html); [discriminate Eplaceholder | reflexivity].
  - unfold Parser.format_part. rewrite Eplaceholder.
    destruct (negb (Js.truthy (Js.trim html))); [reflexivity|].
    destruct (Js.startsWith (Js.trim html) "<") eqn:Etag; [|reflexivity].
    apply trim_startsWith in Etag. congruence.
Qed.

Lemma includes_head c d s :
  Js.includes (String d s) (String c "") = false -> Ascii.eqb c d = false.
Proof.
  cbn [Js.includes Js.strip_prefix]. destruct (Ascii.eqb c d); [discriminate | reflexivity].
Qed.

Lemma includes_char_append a b c :
  Js.includes (a ++ b) (String c "") =
  Js.includes a (String c "") || Js.includes b (String c "").
Proof.
  induction a as [|d a IH]; [reflexivity|].
  cbn [append Js.includes Js.strip_prefix].
  destruct (Ascii.eqb c d); [reflexivity | exact IH].
Qed.

Lemma strip_prefix_ci_append ci l s : Js.strip_prefix_ci ci l (l ++ s) = Some s.
Proof.
  induction l as [|a l IH]; [reflexivity|].
  cbn [append Js.strip_prefix_ci]. rewrite !Ascii.eqb_refl.
  destruct ci; exact IH.
Qed.

(** [[^>]*] passes over a text without [>] up to the [>] that follows. *)
Lemma star_attributes attrs rest k x :
  Js.includes attrs ">" = false ->
  k (">" ++ rest) = Some x ->
  Rx.star Rx.not_gt (attrs ++ ">" ++ rest) k = Some x.
Proof.
  change (">" ++ rest) with (String ">" rest).
  intros Hattrs Hk. induction attrs as [|c attrs IH].
  - cbn. exact Hk.
  - cbn [append Rx.star]. rewrite (IH (includes_tail _ _ _ Hattrs)).
    destruct (Rx.not_gt c) eqn:E; [reflexivity|].
    unfold Rx.not_gt in E. rewrite Ascii.eqb_sym, (includes_head _ _ _ Hattrs) in E.
    discriminate E.
Qed.

(** [[\s\S]*?] stops at the first place where what follows matches. *)
Lemma lazy_content css rest k x :
  Js.includes css "<" = false ->
  (forall c s, Ascii.eqb "<" c = false -> k (String c s) = None) ->
  k rest = Some x ->
  Rx.lazy_star Rx.any (css ++ rest) k = Some x.
Proof.
  intros Hcss Hfails Hk. induction css as [|c css IH].
  - cbn [append]. destruct rest; cbn [Rx.lazy_star]; rewrite Hk; reflexivity.
  - cbn [append Rx.lazy_star]. rewrite (Hfails c _ (includes_head _ _ _ Hcss)).
    cbn [Rx.any]. apply IH, (includes_tail _ _ _ Hcss).
Qed.

Lemma style_block_at_start attrs css rest :
  Js.includes attrs ">" = false ->
  Js.includes css "<" = false ->
  Rx.at_start true Rx.style_block
    ("<style" ++ attrs ++ ">" ++ css ++ "</style>" ++ rest) =
  Some (rest, [(3, "</style>"); (2, css); (1, "<style" ++ attrs ++ ">")]).
Proof.
  intros Hattrs Hcss. unfold Rx.at_start, Rx.style_block. cbn [Rx.run].
  rewrite strip_prefix_ci_append.
  apply star_attributes; [exact Hattrs|].
  rewrite strip_prefix_ci_append.
  apply lazy_content; [exact Hcss | |].
  - intros c s Hc. cbn [Js.strip_prefix_ci]. rewrite (upper_not_lt c Hc). reflexivity.
  - rewrite strip_prefix_ci_append.
    rewrite !consumed_append.
    replace ("<style" ++ attrs ++ ">" ++ css ++ "</style>" ++ rest)
      with (("<style" ++ attrs ++ ">") ++ css ++ "</style>" ++ rest)
      by (rewrite <- !append_assoc; reflexivity).
    rewrite consumed_append. reflexivity.
Qed.

Lemma replace_skip {S : Type} ci r (fn : S -> string -> Rx.captures -> S * string)
    m state s :
  Rx.replace_from ci r fn (String.length m) state (m ++ s) =
  Rx.replace_from ci r fn 0 state s.
Proof.
  induction m as [|c m IH]; [reflexivity|].
  cbn [String.length append Rx.replace_from]. exact IH.
Qed.

(** A match at the place where [replace] stands gives way to what the
    function returns, and the search goes on behind it. *)
Lemma replace_match {S : Type} ci r (fn : S -> string -> Rx.captures -> S * string)
    state c m rest caps :
  Rx.at_start ci r (String c (m ++ rest)) = Some (rest, caps) ->
  Rx.replace_from ci r fn 0 state (String c (m ++ rest)) =
  let '(state', replacement) := fn state (String c m) caps in
  let '(state'', out) := Rx.replace_from ci r fn 0 state' rest in
  (state'', replacement ++ out).
Proof.
  intros Hstart. cbn [Rx.replace_from]. rewrite Hstart. cbv zeta.
  change (String c (m ++ rest)) with (String c m ++ rest).
  rewrite consumed_append.
  destruct (fn state (String c m) caps) as [state' replacement].
  rewrite replace_skip. reflexivity.
Qed.

Lemma replace_style_block attrs css text :
  Js.includes attrs ">" = false ->
  Js.includes css "<" = false ->
  Js.includes text "<" = false ->
  Rx.replace true Rx.style_block Parser.preserve []
    ("<style" ++ attrs ++ ">" ++ css ++ "</style>" ++ text) =
  ([{| Parser.open := Some ("<style" ++ attrs ++ ">");
       Parser.content := Some css;
       Parser.close := Some "</style>" |}],
   "___STYLE_0___" ++ text).
Proof.
  intros Hattrs Hcss Htext. unfold Rx.replace.
  pose proof (style_block_at_start attrs css text Hattrs Hcss) as Hstart.
  assert (Hblock : "<style" ++ attrs ++ ">" ++ css ++ "</style>" ++ text =
                   String "<" (("style" ++ attrs ++ ">" ++ css ++ "</style>") ++ text))
    by (rewrite !append_assoc; reflexivity).
  rewrite Hblock in *.
  rewrite (replace_match _ _ _ _ _ _ _ _ Hstart).
  unfold Parser.preserve. cbn [Rx.cap find fst snd Nat.eqb length app].
  pose proof (replace_without_style Parser.preserve
                [{| Parser.open := Some ("<style" ++ attrs ++ ">");
                    Parser.content := Some css;
                    Parser.close := Some "</style>" |}] text
                (without_tags_without_style _ Htext)) as Hrest.
  unfold Rx.replace, Parser.preserve in Hrest. rewrite Hrest.
  reflexivity.
Qed.

Lemma trim_start_keeps c s :
  Js.white_space c = false -> (N_of_ascii c <? 128)%N = true ->
  Js.trim_start (String c s) = String c s.
Proof.
  destruct c as [[] [] [] [] [] [] [] []]; intros Hw Hc;
    try discriminate Hw; try discriminate Hc;
    destruct s as [|c2 [|c3 s3]]; reflexivity.
Qed.

Lemma trim_end_keeps c s :
  Js.white_space c = false -> (N_of_ascii c <? 128)%N = true ->
  Js.trim_end (String c s) = String c (Js.trim_end s).
Proof.
  intros Hw Hc. cbn [Js.trim_end]. rewrite (trim_start_keeps c s Hw Hc). reflexivity.
Qed.

Lemma trim_placeholder text :
  Js.trim ("___STYLE_0___" ++ text) = "___STYLE_0___" ++ Js.trim_end text.
Proof.
  unfold Js.trim. cbn [append].
  rewrite (trim_start_keeps "_" _ eq_refl eq_refl).
  rewrite !trim_end_keeps by reflexivity. reflexivity.
Qed.

Lemma placeholder_index rest :
  Rx.exec false Rx.style_placeholder ("___STYLE_0___" ++ rest) = Some [(1, "0")].
Proof.
  assert (Hstart : Rx.at_start false Rx.style_placeholder ("___STYLE_0___" ++ rest) =
                   Some (rest, [(1, "0")])).
  { unfold Rx.at_start, Rx.style_placeholder. cbn [Rx.run].
    change ("___STYLE_0___" ++ rest) with ("___STYLE_" ++ "0" ++ "___" ++ rest).
    rewrite strip_prefix_ci_append. cbn [append Rx.digit Rx.star].
    change (String "_" (String "_" (String "_" rest))) with ("___" ++ rest).
    rewrite strip_prefix_ci_append.
    change (String "0" ("___" ++ rest)) with ("0" ++ "___" ++ rest).
    rewrite consumed_append. reflexivity. }
  cbn [append] in *. cbn [Rx.exec]. rewrite Hstart. reflexivity.
Qed.

(** X28. [formatHTML] on a style block that a text without tag follows.
    The block comes back as it stands, its content neither trimmed nor
    indented, on a line of its own; the text that follows it is not in
    the result. *)
Theorem formatHTML_style_block (attrs css text : string) :
  Js.includes attrs ">" = false ->
  Js.includes css "<" = false ->
  Js.includes text "<" = false ->
  Parser.formatHTML ("<style" ++ attrs ++ ">" ++ css ++ "</style>" ++ text) =
  Some ("<style" ++ attrs ++ ">" ++ css ++ "</style>" ++ Js.nl).
Proof.
  intros Hattrs Hcss Htext. unfold Parser.formatHTML.
  rewrite (replace_style_block attrs css text Hattrs Hcss Htext).
  rewrite split_without_tags
    by (rewrite includes_char_append, Htext; reflexivity).
  cbn [Parser.format_parts]. unfold Parser.format_part.
  rewrite trim_placeholder, placeholder_index.
  cbn [append Js.truthy negb].
  change (Js.startsWith _ "___STYLE_") with true. cbv iota.
  cbn [Rx.cap find fst snd Nat.eqb Js.key].
  change (Js.parseInt "0") with (Some 0%Z). cbv iota.
  change (0 <? 0)%Z with false. cbv iota.
  cbn [Z.to_nat nth_error Parser.open Parser.content Parser.close Js.key Js.repeat append].
  rewrite !append_assoc. reflexivity.
Qed.

Lemma formatHTML_without_style_blocks_witness :
  Parser.formatHTML "<p>Hi <b>you</b></p>" <> None.
Proof.
  exact (proj2 (formatHTML_without_style_blocks "<p>Hi <b>you</b></p>" eq_refl) eq_refl).
Defined.

Lemma formatHTML_plain_text_witness :
  Parser.formatHTML "___STYLE_0___" = None /\
  Parser.formatHTML "  ahoy  " = Some ("ahoy" ++ Js.nl).
Proof.
  split.
  - exact (formatHTML_plain_text "___STYLE_0___" eq_refl).
  - exact (formatHTML_plain_text "  ahoy  " eq_refl).
Defined.

Lemma formatHTML_style_block_witness :
  Parser.formatHTML "<style media=screen>  p { color: red }  </style> after" =
  Some ("<style media=screen>  p { color: red }  </style>" ++ Js.nl).
Proof.
  exact (formatHTML_style_block " media=screen" "  p { color: red }  " " after"
           eq_refl eq_refl eq_refl).
Defined.

End Formatting.
